(** * Michael-Scott lock-free queue (src/lockfree_queue.cpp)

    Shallow embedding of [pe::LockfreeQueue<T, Tag>].  Every shared-memory
    access of [Enqueue] and [Dequeue] (an atomic load, a compare-exchange,
    a hazard-pointer call, the allocation of a node, the read of a node's
    value) is one step of a thread; a schedule interleaves the steps of the
    threads of a pool.  The interleaving is sequentially consistent: the
    [std::memory_order] arguments of the source are not observable here.

    The sequential operations [Enqueue], [Dequeue] and the destructor are
    the same steps run by one thread without interference. *)

From Stdlib Require Import ZArith Lia.
From stdpp Require Import gmap list.

Abbreviation loc := positive.
Abbreviation tid := nat.

(** ** Tagged pointers: [struct alignas(16) Pointer] *)

(** [std::uintptr_t] arithmetic is modulo [2^64]. *)
Definition word_modulus : Z := 2 ^ 64.
Definition wrap (z : Z) : Z := (z mod word_modulus)%Z.

Record Pointer := { m_ptr : option loc; m_count : Z }.

Definition null_pointer : Pointer := {| m_ptr := None; m_count := 0 |}.

(** [Pointer::operator==] *)
Definition Pointer_eqb (lhs rhs : Pointer) : bool :=
  bool_decide (m_ptr lhs = m_ptr rhs) && bool_decide (m_count lhs = m_count rhs).

(** [Pointer::operator!=] *)
Definition Pointer_neqb (lhs rhs : Pointer) : bool := negb (Pointer_eqb lhs rhs).

(** [{ptr, old.m_count + 1}]: the desired value of every compare-exchange. *)
Definition bump (ptr : option loc) (old : Pointer) : Pointer :=
  {| m_ptr := ptr; m_count := wrap (m_count old + 1) |}.

(** Modelled from the spec: [DoubleQuadWordAtomic<Pointer>] is declared in a
    module that is not part of the sources.  Per section 4.2 its
    [CompareExchange(expected, desired)] replaces the stored pair by
    [desired] when it equals [expected], as one indivisible unit, and
    reports whether it did. *)
Definition CompareExchange (stored expected desired : Pointer) : Pointer * bool :=
  if Pointer_eqb stored expected then (desired, true) else (stored, false).

(** ** Nodes, hazard context, shared memory *)

Section Model.
Context {T : Type}.

Record Node := { m_value : T; m_next : Pointer }.

(** Modelled from the spec: [HPContext<Node, 2, 2, Tag>] is declared in a
    module that is not part of the sources.  Per section 4.3 [AddHazard]
    publishes a reference in a slot of the calling thread until its guard
    is released, and [RetireHazard] hands a node over for deferred
    reclamation.  The context is instrumented: it records what is
    published and what was retired, in order; it never frees a node, so an
    address is never handed out twice. *)
Record HPContext := {
  hazards : gmap (tid * nat) (option loc);
  retired : list loc
}.

Record World := {
  heap   : gmap loc Node;
  m_head : Pointer;
  m_tail : Pointer;
  m_hp   : HPContext
}.

Definition set_heap (h : gmap loc Node) (w : World) : World :=
  {| heap := h; m_head := m_head w; m_tail := m_tail w; m_hp := m_hp w |}.
Definition set_head (p : Pointer) (w : World) : World :=
  {| heap := heap w; m_head := p; m_tail := m_tail w; m_hp := m_hp w |}.
Definition set_tail (p : Pointer) (w : World) : World :=
  {| heap := heap w; m_head := m_head w; m_tail := p; m_hp := m_hp w |}.
Definition set_hp (c : HPContext) (w : World) : World :=
  {| heap := heap w; m_head := m_head w; m_tail := m_tail w; m_hp := c |}.

Definition AddHazard (t : tid) (slot : nat) (p : option loc) (w : World) : World :=
  set_hp {| hazards := <[(t, slot) := p]> (hazards (m_hp w));
            retired := retired (m_hp w) |} w.

(** The guard returned by [AddHazard] goes out of scope. *)
Definition ReleaseHazard (t : tid) (slot : nat) (w : World) : World :=
  set_hp {| hazards := delete (t, slot) (hazards (m_hp w));
            retired := retired (m_hp w) |} w.

Definition RetireHazard (l : loc) (w : World) : World :=
  set_hp {| hazards := hazards (m_hp w);
            retired := retired (m_hp w) ++ [l] |} w.

(** The atomic slots of the queue: [m_head], [m_tail] and the [m_next] of a
    node. *)
Inductive Slot := SHead | STail | SNext (l : loc).

Definition slot_load (s : Slot) (w : World) : option Pointer :=
  match s with
  | SHead => Some (m_head w)
  | STail => Some (m_tail w)
  | SNext l => m_next <$> heap w !! l
  end.

Definition slot_store (s : Slot) (p : Pointer) (w : World) : World :=
  match s with
  | SHead => set_head p w
  | STail => set_tail p w
  | SNext l =>
      match heap w !! l with
      | Some nd => set_heap (<[l := {| m_value := m_value nd; m_next := p |}]> (heap w)) w
      | None => w
      end
  end.

(** The five compare-exchange sites of the source. *)
Inductive CasSite :=
  | LinkNext      (* Enqueue, line 92 *)
  | HelpTailEnq   (* Enqueue, line 96 *)
  | SwingTail     (* Enqueue, line 100 *)
  | HelpTailDeq   (* Dequeue, line 127 *)
  | AdvanceHead.  (* Dequeue, line 136 *)

Inductive Ret := RetVoid | RetOpt (o : option T).

Inductive Op := OpEnqueue (v : T) | OpDequeue.

(** What a step does to the shared state, for the log. [EvCas] records the
    value stored in the slot before the exchange and the desired one. *)
Inductive Event :=
  | EvCas (t : tid) (site : CasSite) (s : Slot) (old desired : Pointer) (ok : bool)
  | EvRetire (t : tid) (l : loc)
  | EvReturn (t : tid) (op : Op) (r : Ret).

(** [slot.CompareExchange(expected, desired)] by thread [t]; [None] when the
    slot is the link of a node that does not exist. *)
Definition cas (t : tid) (site : CasSite) (s : Slot) (expected desired : Pointer)
    (w : World) : option (World * bool * list Event) :=
  stored ← slot_load s w;
  let '(new, ok) := CompareExchange stored expected desired in
  Some (if ok then slot_store s new w else w, ok,
        [EvCas t site s stored desired ok]).

(** ** Program points of [Enqueue] and [Dequeue] with their live locals *)

Inductive Frame :=
  | EnqNew (v : T)                                    (* line 80 *)
  | EnqLoadTail (node : loc)                          (* line 85 *)
  | EnqHazard (node : loc) (tail : Pointer)           (* line 86 *)
  | EnqCheck (node : loc) (tail : Pointer)            (* line 87 *)
  | EnqLoadNext (node : loc) (tail : Pointer)         (* line 90 *)
  | EnqCas (node : loc) (tail next : Pointer)         (* lines 91-98 *)
  | EnqSwing (node : loc) (tail : Pointer)            (* line 100 *)
  | DeqLoadHead                                       (* line 111 *)
  | DeqHazard (head : Pointer)                        (* line 112 *)
  | DeqCheck (head : Pointer)                         (* line 113 *)
  | DeqLoadTail (head : Pointer)                      (* line 116 *)
  | DeqLoadNext (head tail : Pointer)                 (* line 117 *)
  | DeqHazardNext (head tail next : Pointer)          (* line 118 *)
  | DeqRecheck (head tail next : Pointer)             (* line 120 *)
  | DeqBranch (head tail next : Pointer)              (* lines 123-135 *)
  | DeqCas (head next : Pointer) (ret : T)            (* line 136 *)
  | DeqRetire (head : Pointer) (ret : T).             (* lines 140-141 *)

Inductive Next := Continue (f : Frame) | Return (r : Ret).

(** One step of thread [t] at program point [f].  [None] is undefined
    behaviour: a null or dangling node is dereferenced. *)
Definition step_frame (t : tid) (f : Frame) (w : World)
    : option (World * Next * list Event) :=
  match f with
  | EnqNew v =>
      let node := fresh (dom (heap w)) in
      Some (set_heap (<[node := {| m_value := v; m_next := null_pointer |}]> (heap w)) w,
            Continue (EnqLoadTail node), [])
  | EnqLoadTail node =>
      Some (w, Continue (EnqHazard node (m_tail w)), [])
  | EnqHazard node tail =>
      Some (AddHazard t 0 (m_ptr tail) w, Continue (EnqCheck node tail), [])
  | EnqCheck node tail =>
      if Pointer_neqb tail (m_tail w)
      then Some (ReleaseHazard t 0 w, Continue (EnqLoadTail node), [])
      else Some (w, Continue (EnqLoadNext node tail), [])
  | EnqLoadNext node tail =>
      tl ← m_ptr tail;
      nd ← heap w !! tl;
      Some (w, Continue (EnqCas node tail (m_next nd)), [])
  | EnqCas node tail next =>
      match m_ptr next with
      | None =>
          tl ← m_ptr tail;
          '(w', ok, evs) ← cas t LinkNext (SNext tl) next (bump (Some node) next) w;
          Some (ReleaseHazard t 0 w',
                Continue (if ok : bool then EnqSwing node tail else EnqLoadTail node),
                evs)
      | Some _ =>
          '(w', _, evs) ← cas t HelpTailEnq STail tail (bump (m_ptr next) tail) w;
          Some (ReleaseHazard t 0 w', Continue (EnqLoadTail node), evs)
      end
  | EnqSwing node tail =>
      '(w', _, evs) ← cas t SwingTail STail tail (bump (Some node) tail) w;
      Some (w', Return RetVoid, evs)
  | DeqLoadHead =>
      Some (w, Continue (DeqHazard (m_head w)), [])
  | DeqHazard head =>
      Some (AddHazard t 0 (m_ptr head) w, Continue (DeqCheck head), [])
  | DeqCheck head =>
      if Pointer_neqb head (m_head w)
      then Some (ReleaseHazard t 0 w, Continue DeqLoadHead, [])
      else Some (w, Continue (DeqLoadTail head), [])
  | DeqLoadTail head =>
      Some (w, Continue (DeqLoadNext head (m_tail w)), [])
  | DeqLoadNext head tail =>
      hd ← m_ptr head;
      nd ← heap w !! hd;
      Some (w, Continue (DeqHazardNext head tail (m_next nd)), [])
  | DeqHazardNext head tail next =>
      Some (AddHazard t 1 (m_ptr next) w, Continue (DeqRecheck head tail next), [])
  | DeqRecheck head tail next =>
      if Pointer_neqb head (m_head w)
      then Some (ReleaseHazard t 0 (ReleaseHazard t 1 w), Continue DeqLoadHead, [])
      else Some (w, Continue (DeqBranch head tail next), [])
  | DeqBranch head tail next =>
      match m_ptr next with
      | None =>
          Some (ReleaseHazard t 0 (ReleaseHazard t 1 w), Return (RetOpt None), [])
      | Some nx =>
          if decide (m_ptr head = m_ptr tail)
          then
            '(w', _, evs) ← cas t HelpTailDeq STail tail (bump (m_ptr next) tail) w;
            Some (ReleaseHazard t 0 (ReleaseHazard t 1 w'), Continue DeqLoadHead, evs)
          else
            nd ← heap w !! nx;
            Some (w, Continue (DeqCas head next (m_value nd)), [])
      end
  | DeqCas head next ret =>
      '(w', ok, evs) ← cas t AdvanceHead SHead head (bump (m_ptr next) head) w;
      Some (ReleaseHazard t 0 (ReleaseHazard t 1 w'),
            Continue (if ok : bool then DeqRetire head ret else DeqLoadHead),
            evs)
  | DeqRetire head ret =>
      hd ← m_ptr head;
      Some (RetireHazard hd w, Return (RetOpt (Some ret)), [EvRetire t hd])
  end.

(** ** Threads and schedules *)

Definition entry (op : Op) : Frame :=
  match op with
  | OpEnqueue v => EnqNew v
  | OpDequeue => DeqLoadHead
  end.

(** A thread runs the calls of [todo] one after the other; [frame] is
    [None] between two calls; [results] are the calls it has completed. *)
Record Thread := {
  todo    : list Op;
  frame   : option Frame;
  results : list (Op * Ret)
}.

Definition step_thread (t : tid) (th : Thread) (w : World)
    : option (World * Thread * list Event) :=
  match todo th with
  | [] => Some (w, th, [])
  | op :: rest =>
      '(w', nx, evs) ← step_frame t (default (entry op) (frame th)) w;
      match nx with
      | Continue f' =>
          Some (w', {| todo := todo th; frame := Some f'; results := results th |}, evs)
      | Return r =>
          Some (w', {| todo := rest; frame := None; results := results th ++ [(op, r)] |},
                evs ++ [EvReturn t op r])
      end
  end.

Record State := {
  world : World;
  pool  : list Thread;
  log   : list Event
}.

Definition step (t : tid) (s : State) : option State :=
  th ← pool s !! t;
  '(w', th', evs) ← step_thread t th (world s);
  Some {| world := w'; pool := <[t := th']> (pool s); log := log s ++ evs |}.

Fixpoint run (sched : list tid) (s : State) : option State :=
  match sched with
  | [] => Some s
  | t :: sched' => s' ← step t s; run sched' s'
  end.

(** [LockfreeQueue() : LockfreeQueue(new Node{})] *)
Definition new_queue (T_default : T) : World :=
  let head : loc := fresh (dom (∅ : gmap loc Node)) in
  {| heap := {[ head := {| m_value := T_default; m_next := null_pointer |} ]};
     m_head := {| m_ptr := Some head; m_count := 0 |};
     m_tail := {| m_ptr := Some head; m_count := 0 |};
     m_hp := {| hazards := ∅; retired := [] |} |}.

Definition spawn (prog : list Op) : Thread :=
  {| todo := prog; frame := None; results := [] |}.

Definition init (T_default : T) (progs : list (list Op)) : State :=
  {| world := new_queue T_default; pool := spawn <$> progs; log := [] |}.

Definition Reachable (T_default : T) (s : State) : Prop :=
  ∃ progs sched, run sched (init T_default progs) = Some s.

(** ** One call without interference *)

Inductive Outcome (A : Type) :=
  | Finished (a : A)
  | Fault
  | OutOfFuel.
Global Arguments Finished {A} a.
Global Arguments Fault {A}.
Global Arguments OutOfFuel {A}.

Fixpoint run_frame (fuel : nat) (t : tid) (f : Frame) (w : World)
    : Outcome (World * Ret * list Event) :=
  match fuel with
  | O => OutOfFuel
  | S fuel' =>
      match step_frame t f w with
      | None => Fault
      | Some (w', Return r, evs) => Finished (w', r, evs)
      | Some (w', Continue f', evs) =>
          match run_frame fuel' t f' w' with
          | Finished (w'', r, evs') => Finished (w'', r, evs ++ evs')
          | Fault => Fault
          | OutOfFuel => OutOfFuel
          end
      end
  end.

Definition Enqueue (fuel : nat) (t : tid) (v : T) (w : World) :=
  run_frame fuel t (EnqNew v) w.

Definition Dequeue (fuel : nat) (t : tid) (w : World) :=
  run_frame fuel t DeqLoadHead w.

(** The calls of [ops] made by one thread, one after the other. *)
Fixpoint run_ops (fuel : nat) (t : tid) (ops : list Op) (w : World)
    : Outcome (World * list Ret) :=
  match ops with
  | [] => Finished (w, [])
  | op :: ops' =>
      match run_frame fuel t (entry op) w with
      | Finished (w', r, _) =>
          match run_ops fuel t ops' w' with
          | Finished (w'', rs) => Finished (w'', r :: rs)
          | Fault => Fault
          | OutOfFuel => OutOfFuel
          end
      | Fault => Fault
      | OutOfFuel => OutOfFuel
      end
  end.

(** [~LockfreeQueue()]: [do value = Dequeue(); while(value.has_value());] *)
Fixpoint Destroy (rounds fuel : nat) (t : tid) (w : World)
    : Outcome (World * list Event) :=
  match rounds with
  | O => OutOfFuel
  | S rounds' =>
      match Dequeue fuel t w with
      | Finished (w', RetOpt (Some _), evs) =>
          match Destroy rounds' fuel t w' with
          | Finished (w'', evs') => Finished (w'', evs ++ evs')
          | o => o
          end
      | Finished (w', _, evs) => Finished (w', evs)
      | Fault => Fault
      | OutOfFuel => OutOfFuel
      end
  end.

End Model.

Global Arguments Node : clear implicits.
Global Arguments HPContext : clear implicits.
Global Arguments World : clear implicits.
Global Arguments Ret : clear implicits.
Global Arguments Op : clear implicits.
Global Arguments Event : clear implicits.
Global Arguments Frame : clear implicits.
Global Arguments Next : clear implicits.
Global Arguments Thread : clear implicits.
Global Arguments State : clear implicits.

(** ** Reclamation *)

Section Reclaim.
Context {T : Type}.
Implicit Types (w : World T).

(** The memory without the nodes of [fr]: what is left once they are
    freed. *)
Definition live (fr : gset loc) w : World T :=
  set_heap (filter (λ kv, kv.1 ∉ fr) (heap w)) w.

(** The queue together with the set of the nodes that the hazard context
    has freed. *)
Record Mem := { state : State T; freed : gset loc }.

Inductive Action := Run (t : tid) | Free (l : loc).

(** Modelled from the spec: the reclamation of [HPContext], which is
    declared in a module that is not part of the sources.  Per section 4.3
    a retired node is not physically freed until no live hazard of any
    thread protects it; when it is freed beyond that is the context's
    choice. *)
Definition reclaimable (l : loc) (h : Mem) : bool :=
  bool_decide (l ∈ retired (m_hp (world (state h))))
  && bool_decide (l ∉ freed h)
  && bool_decide (map_Forall (λ _ p, p ≠ Some l) (hazards (m_hp (world (state h))))).

(** A step of thread [t], or the context freeing [l].  The step of a
    thread is undefined when it is undefined in the memory without the
    freed nodes: it dereferences a node that was freed. *)
Definition act (a : Action) (h : Mem) : option Mem :=
  match a with
  | Run t =>
      th ← pool (state h) !! t;
      match todo th with
      | [] => Some h
      | op :: _ =>
          _ ← step_frame t (default (entry op) (frame th))
                (live (freed h) (world (state h)));
          s' ← step t (state h);
          Some {| state := s'; freed := freed h |}
      end
  | Free l =>
      if reclaimable l h
      then Some {| state := state h; freed := {[l]} ∪ freed h |}
      else Some h
  end.

Fixpoint perform (acts : list Action) (h : Mem) : option Mem :=
  match acts with
  | [] => Some h
  | a :: acts' => h' ← act a h; perform acts' h'
  end.

Definition start (T_default : T) (progs : list (list (Op T))) : Mem :=
  {| state := init T_default progs; freed := ∅ |}.

End Reclaim.

Global Arguments Mem : clear implicits.

(** * Vocabulary of the proofs

    Nothing below is read by a step: these are the specification of the
    sequential behaviour, the observations made on a run and the invariants
    of the reachable states. *)

Section Vocabulary.
Context {T : Type}.
Implicit Types (w : World T) (f : Frame T) (chain : list (loc * T)).
Implicit Types (th : Thread T) (s : State T) (lg evs : list (Event T)).

Definition Exec (n : nat) (t : tid) f w (res : World T * Ret T * list (Event T)) : Prop :=
  ∀ fuel, n ≤ fuel → run_frame fuel t f w = Finished res.

Record Shape chain (i j : nat) w : Prop := {
  sh_nodup : NoDup chain.*1;
  sh_links : ∀ k l v, chain !! k = Some (l, v) →
      ∃ nx, heap w !! l = Some {| m_value := v; m_next := nx |}
            ∧ m_ptr nx = fst <$> chain !! S k;
  sh_head : m_ptr (m_head w) = fst <$> chain !! i;
  sh_tail : m_ptr (m_tail w) = fst <$> chain !! j;
  sh_le : i ≤ j;
  sh_lt : j < length chain;
  sh_lag : length chain ≤ S (S j)
}.

Definition released (t : tid) (w : World T) : World T :=
  ReleaseHazard t 0 (ReleaseHazard t 1 w).

(** Footprints of a thread *)
Definition enq_nodes th : list loc :=
  match frame th with
  | Some (EnqLoadTail n) | Some (EnqHazard n _) | Some (EnqCheck n _)
  | Some (EnqLoadNext n _) | Some (EnqCas n _ _) | Some (EnqSwing n _) => [n]
  | _ => []
  end.

Definition pend_retire th : list loc :=
  match frame th with
  | Some (DeqRetire hd _) => option_list (m_ptr hd)
  | _ => []
  end.

Definition enq_val (c : Op T * Ret T) : list T :=
  match c.1 with OpEnqueue v => [v] | OpDequeue => [] end.

Definition deq_val (c : Op T * Ret T) : list T :=
  match c.2 with RetOpt (Some v) => [v] | _ => [] end.

Definition linked_vals th : list T :=
  flat_map enq_val (results th) ++
  match frame th, todo th with
  | Some (EnqSwing _ _), OpEnqueue v :: _ => [v]
  | _, _ => []
  end.

Definition deq_vals th : list T :=
  flat_map deq_val (results th) ++
  match frame th with
  | Some (DeqRetire _ v) => [v]
  | _ => []
  end.

Definition gather {A} (f : Thread T → list A) (pl : list (Thread T)) : list A :=
  pl ≫= f.

(** Snapshots held in locals *)
Definition At chain (k : nat) (p : Pointer) : Prop :=
  ∃ l, m_ptr p = Some l ∧ chain.*1 !! k = Some l.

Definition TailSnap chain (j : nat) w (k : nat) (tl : Pointer) : Prop :=
  At chain k tl ∧ k ≤ j ∧ (k = j → tl = m_tail w).

Definition HeadSnap chain (i : nat) w (k : nat) (hd : Pointer) : Prop :=
  At chain k hd ∧ k ≤ i ∧ (k = i → hd = m_head w).

Definition NextOf chain (k : nat) (nx : Pointer) : Prop :=
  ∀ x, m_ptr nx = Some x → chain.*1 !! S k = Some x.

Definition Unlinked chain w (n : loc) (v : T) : Prop :=
  (n ∉ chain.*1) ∧ heap w !! n = Some {| m_value := v; m_next := null_pointer |}.

Definition Unswung lg (t : tid) (n : loc) : Prop :=
  ∀ t' site old des,
    EvCas t' site STail old des true ∈ lg → m_ptr des = Some n →
    t' ≠ t ∧ site ≠ SwingTail.

Definition FInv chain (i j : nat) w lg (t : tid) (op : Op T) f : Prop :=
  match op, f with
  | OpEnqueue v, EnqNew v' => v' = v
  | OpEnqueue v, EnqLoadTail n => Unlinked chain w n v
  | OpEnqueue v, (EnqHazard n tl | EnqCheck n tl | EnqLoadNext n tl) =>
      Unlinked chain w n v ∧ ∃ k, TailSnap chain j w k tl
  | OpEnqueue v, EnqCas n tl nx =>
      Unlinked chain w n v ∧ ∃ k, TailSnap chain j w k tl ∧ NextOf chain k nx
  | OpEnqueue v, EnqSwing n tl =>
      ∃ k, TailSnap chain j w k tl ∧ chain !! S k = Some (n, v) ∧ Unswung lg t n
  | OpDequeue, DeqLoadHead => True
  | OpDequeue, (DeqHazard hd | DeqCheck hd | DeqLoadTail hd) =>
      ∃ k, HeadSnap chain i w k hd
  | OpDequeue, DeqLoadNext hd tl =>
      ∃ k l, HeadSnap chain i w k hd ∧ TailSnap chain j w l tl ∧ k ≤ l
  | OpDequeue, (DeqHazardNext hd tl nx | DeqRecheck hd tl nx | DeqBranch hd tl nx) =>
      ∃ k l, HeadSnap chain i w k hd ∧ TailSnap chain j w l tl ∧ k ≤ l
             ∧ NextOf chain k nx
  | OpDequeue, DeqCas hd nx ret =>
      ∃ k x, HeadSnap chain i w k hd ∧ m_ptr nx = Some x
             ∧ chain !! S k = Some (x, ret) ∧ S k ≤ j
  | OpDequeue, DeqRetire hd ret =>
      ∃ k h x, m_ptr hd = Some h ∧ chain.*1 !! k = Some h ∧ k < i
               ∧ chain !! S k = Some (x, ret)
  | _, _ => False
  end.

Definition LInv chain (i j : nat) w lg (t : tid) th : Prop :=
  match todo th with
  | [] => frame th = None
  | op :: _ => FInv chain i j w lg t op (default (entry op) (frame th))
  end.

Record GInv chain (i j : nat) s : Prop := {
  g_shape : Shape chain i j (world s);
  g_nodes : NoDup (gather enq_nodes (pool s));
  g_retired :
    retired (m_hp (world s)) ++ gather pend_retire (pool s) ≡ₚ take i chain.*1;
  g_linked : gather linked_vals (pool s) ≡ₚ (drop 1 chain).*2;
  g_deq : gather deq_vals (pool s) ≡ₚ (take i (drop 1 chain)).*2;
  g_local : ∀ t th, pool s !! t = Some th → LInv chain i j (world s) (log s) t th;
  g_log_in : ∀ t' site old des,
    EvCas t' site STail old des true ∈ log s → ∃ l, m_ptr des = Some l ∧ l ∈ chain.*1;
  g_log_ex : ∀ k l, 0 < k ≤ j → chain.*1 !! k = Some l →
    ∃ t' site old des, EvCas t' site STail old des true ∈ log s ∧ m_ptr des = Some l
}.

Record Ext chain (i j : nat) w chain' (i' j' : nat) w' : Prop := {
  ext_chain : chain `prefix_of` chain';
  ext_i : i ≤ i';
  ext_j : j ≤ j';
  ext_head : i' = i → m_head w' = m_head w;
  ext_tail : j' = j → m_tail w' = m_tail w;
  ext_heap : ∀ l nd, heap w !! l = Some nd → l ∉ chain.*1 → heap w' !! l = Some nd
}.

Definition frame_nodes f : list loc :=
  match f with
  | EnqLoadTail n | EnqHazard n _ | EnqCheck n _
  | EnqLoadNext n _ | EnqCas n _ _ | EnqSwing n _ => [n]
  | _ => []
  end.

Definition quiet evs : Prop :=
  ∀ t' site old des, EvCas t' site STail old des true ∉ evs.

Definition continue_thread th f : Thread T :=
  {| todo := todo th; frame := Some f; results := results th |}.

Definition return_thread th (op : Op T) (rest : list (Op T)) (r : Ret T) : Thread T :=
  {| todo := rest; frame := None; results := results th ++ [(op, r)] |}.

Definition frame_retire f : list loc :=
  match f with DeqRetire hd _ => option_list (m_ptr hd) | _ => [] end.

Definition frame_linked (op : Op T) f : list T :=
  match f, op with EnqSwing _ _, OpEnqueue v => [v] | _, _ => [] end.

Definition frame_deq f : list T :=
  match f with DeqRetire _ v => [v] | _ => [] end.

Definition next_thread th (op : Op T) (rest : list (Op T)) (nx : Next T) : Thread T :=
  match nx with
  | Continue f' => continue_thread th f'
  | Return r => return_thread th op rest r
  end.

Definition next_events (t : tid) (op : Op T) (nx : Next T) evs : list (Event T) :=
  match nx with
  | Continue _ => evs
  | Return r => evs ++ [EvReturn t op r]
  end.

Definition next_nodes (nx : Next T) : list loc :=
  match nx with Continue f' => frame_nodes f' | Return _ => [] end.

Definition next_retire (nx : Next T) : list loc :=
  match nx with Continue f' => frame_retire f' | Return _ => [] end.

Definition next_linked (op : Op T) (nx : Next T) : list T :=
  match nx with Continue f' => frame_linked op f' | Return r => enq_val (op, r) end.

Definition next_deq (op : Op T) (nx : Next T) : list T :=
  match nx with Continue f' => frame_deq f' | Return r => deq_val (op, r) end.

Definition Inv s : Prop := ∃ chain i j, GInv chain i j s.

(** The queue as a list: the specification of the sequential behaviour. *)
Fixpoint fifo_model (ops : list (Op T)) (q : list T) : list T * list (Ret T) :=
  match ops with
  | [] => (q, [])
  | OpEnqueue v :: ops' =>
      let '(q', rs) := fifo_model ops' (q ++ [v]) in (q', RetVoid :: rs)
  | OpDequeue :: ops' =>
      match q with
      | [] => let '(q', rs) := fifo_model ops' [] in (q', RetOpt None :: rs)
      | x :: q0 => let '(q', rs) := fifo_model ops' q0 in (q', RetOpt (Some x) :: rs)
      end
  end.

(** A state between two calls of a sequential run: every node ever
    allocated is in the chain, the nodes before [head] are the retired
    ones, in order. *)
Record Seq chain (i : nat) w : Prop := {
  seq_shape : Shape chain i (length chain - 1) w;
  seq_retired : retired (m_hp w) = take i chain.*1;
  seq_dom : dom (heap w) = list_to_set chain.*1
}.

Definition queued chain (i : nat) : list T := (drop (S i) chain).*2.

Definition op_values (op : Op T) : list T :=
  match op with OpEnqueue v => [v] | OpDequeue => [] end.

(** The values handed to [Enqueue] by the programs of the threads. *)
Definition enqueued (progs : list (list (Op T))) : list T :=
  progs ≫= flat_map op_values.

(** The values returned so far by the [Dequeue] calls of all threads. *)
Definition returned s : list T :=
  gather (λ th, flat_map deq_val (results th)) (pool s).

Definition finished s : Prop := Forall (λ th, todo th = []) (pool s).

Definition Hist (progs : list (list (Op T))) s : Prop :=
  Forall2 (λ th p, (results th).*1 ++ todo th = p) (pool s) progs.

Definition site_slot (site : CasSite) (sl : Slot) : Prop :=
  match site, sl with
  | LinkNext, SNext _ => True
  | (HelpTailEnq | SwingTail | HelpTailDeq), STail => True
  | AdvanceHead, SHead => True
  | _, _ => False
  end.

Definition LogSites s : Prop :=
  ∀ t' site sl old des, EvCas t' site sl old des true ∈ log s → site_slot site sl.

(** ** Vocabulary of the further properties *)

(** What a node keeps for ever: it stays allocated, its value never
    changes, and neither does its [m_next] once it is not null. *)
Definition node_kept (nd nd' : Node T) : Prop :=
  m_value nd' = m_value nd
  ∧ (is_Some (m_ptr (m_next nd)) → m_next nd' = m_next nd).

Definition nodes_kept w w' : Prop :=
  ∀ l nd, heap w !! l = Some nd → ∃ nd', heap w' !! l = Some nd' ∧ node_kept nd nd'.

(** The hazard guards in scope at a program point: [tail_hazard] (slot 0)
    from line 86 to the end of the loop body of [Enqueue]; [head_hazard]
    (slot 0) from line 112 and [next_hazard] (slot 1) from line 118 to the
    end of the loop body of [Dequeue]. *)
Definition guard f (slot : nat) : option (option loc) :=
  match f, slot with
  | (EnqCheck _ tl | EnqLoadNext _ tl | EnqCas _ tl _), 0 => Some (m_ptr tl)
  | (DeqCheck hd | DeqLoadTail hd | DeqLoadNext hd _ | DeqHazardNext hd _ _
     | DeqRecheck hd _ _ | DeqBranch hd _ _ | DeqCas hd _ _), 0 => Some (m_ptr hd)
  | (DeqRecheck _ _ nx | DeqBranch _ _ nx | DeqCas _ nx _), 1 => Some (m_ptr nx)
  | _, _ => None
  end.

Definition guards s (t : tid) (slot : nat) : option (option loc) :=
  th ← pool s !! t; f ← frame th; guard f slot.

Definition HzInv s : Prop :=
  ∀ t slot, hazards (m_hp (world s)) !! (t, slot) = guards s t slot.

(** The nodes that the step at a program point dereferences: lines 90 and
    92 go through [tail.m_ptr], line 117 through [head.m_ptr], line 135
    through [next.m_ptr]. *)
Definition derefs f : list loc :=
  match f with
  | EnqLoadNext _ tl => option_list (m_ptr tl)
  | EnqCas _ tl nx =>
      match m_ptr nx with None => option_list (m_ptr tl) | Some _ => [] end
  | DeqLoadNext hd _ => option_list (m_ptr hd)
  | DeqBranch hd tl nx =>
      match m_ptr nx with
      | Some x => if decide (m_ptr hd = m_ptr tl) then [] else [x]
      | None => []
      end
  | _ => []
  end.

(** The snapshots that are published and were found current after they
    were published. *)
Definition validated f : list loc :=
  match f with
  | EnqLoadNext _ tl | EnqCas _ tl _ => option_list (m_ptr tl)
  | DeqLoadTail hd | DeqLoadNext hd _ | DeqHazardNext hd _ _ | DeqRecheck hd _ _ =>
      option_list (m_ptr hd)
  | DeqBranch hd _ nx | DeqCas hd nx _ => option_list (m_ptr hd) ++ option_list (m_ptr nx)
  | _ => []
  end.

Definition MInv (d : T) (h : Mem T) : Prop :=
  Reachable d (state h)
  ∧ (∀ l, l ∈ freed h → l ∈ retired (m_hp (world (state h))))
  ∧ ∀ t th f, pool (state h) !! t = Some th → frame th = Some f →
      ∀ l, l ∈ validated f → l ∉ freed h.

(** The exchanges that take effect on the queue as a list: the one of line
    92 links a node, the one of line 136 makes a node the new [head]. *)
Definition linked_by (e : Event T) : option (tid * loc) :=
  match e with
  | EvCas t LinkNext _ _ des true => pair t <$> m_ptr des
  | _ => None
  end.

Definition advanced_by (e : Event T) : option (tid * loc) :=
  match e with
  | EvCas t AdvanceHead _ _ des true => pair t <$> m_ptr des
  | _ => None
  end.

Definition links lg : list (tid * loc) := omap linked_by lg.
Definition heads lg : list (tid * loc) := omap advanced_by lg.

(** What a step of thread [t] adds to the chain and to the part of it that
    is before [head]. *)
Definition StepTrace chain (i : nat) chain' (i' : nat) (t : tid) (op : Op T) f
    (nx : Next T) evs : Prop :=
  ∃ new adv : list (loc * T),
    chain' = chain ++ new
    ∧ links evs = pair t <$> new.*1
    ∧ next_linked op nx = frame_linked op f ++ new.*2
    ∧ take i' (drop 1 chain') = take i (drop 1 chain) ++ adv
    ∧ heads evs = pair t <$> adv.*1
    ∧ next_deq op nx = frame_deq f ++ adv.*2.

(** The value of the node that an exchange installs. *)
Definition installed w (e : option (tid * loc)) : option (tid * T) :=
  '(t, l) ← e; nd ← heap w !! l; Some (t, m_value nd).

(** The order in which the values entered the queue (one entry per
    successful exchange of line 92, with the thread that made it and the
    value of the node it linked), and the order in which they left it (one
    entry per successful exchange of line 136, with the value of the node
    that became [head]). *)
Definition enq_order s : list (tid * T) :=
  omap (λ e, installed (world s) (linked_by e)) (log s).

Definition deq_order s : list (tid * T) :=
  omap (λ e, installed (world s) (advanced_by e)) (log s).

Definition by_thread {A} (t : tid) (l : list (tid * A)) : list A :=
  (filter (λ p, p.1 = t) l).*2.

Definition node_of (p : tid * (loc * T)) : tid * loc := (p.1, p.2.1).
Definition value_of (p : tid * (loc * T)) : tid * T := (p.1, p.2.2).

Definition Ordered s : Prop :=
  ∃ chain i j (enqs deqs : list (tid * (loc * T))),
    GInv chain i j s
    ∧ enqs.*2 = drop 1 chain
    ∧ node_of <$> enqs = links (log s)
    ∧ deqs.*2 = take i (drop 1 chain)
    ∧ node_of <$> deqs = heads (log s)
    ∧ ∀ t th, pool s !! t = Some th →
        by_thread t (value_of <$> enqs) = linked_vals th
        ∧ by_thread t (value_of <$> deqs) = deq_vals th.

(** The nodes met by following [m_next] from [p], at most [n] of them. *)
Fixpoint walk (n : nat) w (p : option loc) : list loc :=
  match n, p with
  | S n', Some l =>
      l :: match heap w !! l with
           | Some nd => walk n' w (m_ptr (m_next nd))
           | None => []
           end
  | _, _ => []
  end.

(** The successful exchanges of [m_head] and of [m_tail]. *)
Definition swaps (sl : Slot) (e : Event T) : bool :=
  match e, sl with
  | EvCas _ _ SHead _ _ true, SHead => true
  | EvCas _ _ STail _ _ true, STail => true
  | _, _ => false
  end.

Definition count_swaps (sl : Slot) lg : nat :=
  length (filter (λ e, swaps sl e = true) lg).

Definition Tagged s : Prop :=
  m_count (m_head (world s)) = wrap (Z.of_nat (count_swaps SHead (log s)))
  ∧ m_count (m_tail (world s)) = wrap (Z.of_nat (count_swaps STail (log s)))
  ∧ ∀ l nd, heap (world s) !! l = Some nd →
      m_count (m_next nd) = match m_ptr (m_next nd) with Some _ => 1%Z | None => 0%Z end.

Definition Bumped (c c' : Z) (n : nat) : Prop :=
  (n = 0 ∧ c' = c) ∨ (n = 1 ∧ c' = wrap (c + 1)).

Definition nodes_tagged w : Prop :=
  ∀ l nd, heap w !! l = Some nd →
    m_count (m_next nd) = match m_ptr (m_next nd) with Some _ => 1%Z | None => 0%Z end.

(** The number of steps after which a call is back at the top of its loop
    (line 85, line 111), or has returned, at the latest. *)
Definition rank f : nat :=
  match f with
  | EnqLoadTail _ | DeqLoadHead => 0
  | EnqNew _ | EnqSwing _ _ | DeqRetire _ _ => 1
  | EnqCas _ _ _ | DeqCas _ _ _ => 2
  | EnqLoadNext _ _ | DeqBranch _ _ _ => 3
  | EnqCheck _ _ | DeqRecheck _ _ _ => 4
  | EnqHazard _ _ | DeqHazardNext _ _ _ => 5
  | DeqLoadNext _ _ => 6
  | DeqLoadTail _ => 7
  | DeqCheck _ => 8
  | DeqHazard _ => 9
  end.

(** Every allocated node is in the chain or is the node of an [Enqueue]
    call in progress. *)
Definition Accounted s : Prop :=
  ∃ chain i j, GInv chain i j s
    ∧ ∀ l, l ∈ dom (heap (world s))
           ↔ l ∈ chain.*1 ∨ ∃ t th, pool s !! t = Some th ∧ l ∈ enq_nodes th.

(** The steps left in the current iteration of the loop of a call. *)
Definition steps_left f : nat :=
  match f with
  | EnqNew _ => 6
  | EnqLoadTail _ => 5
  | EnqHazard _ _ => 4
  | EnqCheck _ _ => 3
  | EnqLoadNext _ _ => 2
  | EnqCas _ _ _ | EnqSwing _ _ => 1
  | DeqLoadHead => 9
  | DeqHazard _ => 8
  | DeqCheck _ => 7
  | DeqLoadTail _ => 6
  | DeqLoadNext _ _ => 5
  | DeqHazardNext _ _ _ => 4
  | DeqRecheck _ _ _ => 3
  | DeqBranch _ _ _ => 2
  | DeqCas _ _ _ | DeqRetire _ _ => 1
  end.

(** The snapshots that the iteration depends on are still what the shared
    slots hold. *)
Definition up_to_date w f : bool :=
  match f with
  | EnqHazard _ tl | EnqCheck _ tl | EnqLoadNext _ tl => Pointer_eqb tl (m_tail w)
  | EnqCas _ tl nx =>
      Pointer_eqb tl (m_tail w)
      && match m_ptr tl ≫= λ l, slot_load (SNext l) w with
         | Some p => Pointer_eqb p nx
         | None => false
         end
  | DeqHazard hd | DeqCheck hd | DeqLoadTail hd | DeqCas hd _ _ =>
      Pointer_eqb hd (m_head w)
  | DeqLoadNext hd tl | DeqHazardNext hd tl _ | DeqRecheck hd tl _ | DeqBranch hd tl _ =>
      Pointer_eqb hd (m_head w) && Pointer_eqb tl (m_tail w)
  | _ => true
  end.

(** An iteration that runs on an outdated snapshot is run once more. *)
Definition effort w f : nat := steps_left f + (if up_to_date w f then 0 else 10).

(** The successful exchanges that a call can still make before it
    returns: an [Enqueue] links its node and [tail] follows; a [Dequeue]
    advances [head]. *)
Definition owed f : nat :=
  match f with
  | EnqNew _ | EnqLoadTail _ | EnqHazard _ _ | EnqCheck _ _ | EnqLoadNext _ _
  | EnqCas _ _ _ => 2
  | DeqLoadHead | DeqHazard _ | DeqCheck _ | DeqLoadTail _ | DeqLoadNext _ _
  | DeqHazardNext _ _ _ | DeqRecheck _ _ _ | DeqBranch _ _ _ | DeqCas _ _ _ => 1
  | EnqSwing _ _ | DeqRetire _ _ => 0
  end.

(** Whether [tail] is behind the last node. *)
Definition lag w : nat :=
  match m_ptr (m_tail w) ≫= λ l, heap w !! l with
  | Some nd => match m_ptr (m_next nd) with Some _ => 1 | None => 0 end
  | None => 0
  end.

(** The program point of a thread that has a call to make or to finish. *)
Definition current th : option (Frame T) :=
  match todo th with
  | [] => None
  | op :: _ => Some (default (entry op) (frame th))
  end.

Definition owed_by th : nat := from_option owed 0 (current th).
Definition effort_of w th : nat := from_option (effort w) 0 (current th).

Definition potential s : nat :=
  10 * length (pool s) * (sum_list_with owed_by (pool s) + lag (world s))
  + sum_list_with (effort_of (world s)) (pool s).

(** The number of calls that have returned. *)
Definition calls_done s : nat := sum_list_with (λ th, length (results th)) (pool s).

(** Hazard slots and new nodes are not what a snapshot is compared with. *)
Definition same_view w w' : Prop :=
  m_head w' = m_head w ∧ m_tail w' = m_tail w
  ∧ ∀ l nd, heap w !! l = Some nd → heap w' !! l = Some nd.

(** The queue holds no value: the [m_next] of the node at [head] is
    null. *)
Definition empty w : bool :=
  match m_ptr (m_head w) ≫= λ h, heap w !! h with
  | Some nd => match m_ptr (m_next nd) with None => true | Some _ => false end
  | None => false
  end.

(** [s0] is a state that the run [sched] went through while thread [t] was
    inside the call that it is in after [sched], which is the one after the
    calls of [rs]. *)
Definition Earlier (d : T) (progs : list (list (Op T))) (sched : list tid)
    (t : tid) (rs : list (Op T * Ret T)) s0 : Prop :=
  ∃ sched1 th0,
    sched1 `prefix_of` sched ∧ run sched1 (init d progs) = Some s0
    ∧ pool s0 !! t = Some th0 ∧ results th0 = rs ∧ is_Some (frame th0).

(** In [s0] the node of the snapshot [hd] had a null [m_next], and [head]
    was at that node or further. *)
Definition Seen chain (i : nat) (hd : Pointer) s0 : Prop :=
  ∃ k i0 h nd0,
    chain.*1 !! k = Some h ∧ m_ptr hd = Some h ∧ k ≤ i0 ∧ i0 ≤ i
    ∧ m_ptr (m_head (world s0)) = chain.*1 !! i0
    ∧ heap (world s0) !! h = Some nd0 ∧ m_ptr (m_next nd0) = None.

(** What a [Dequeue] call that has read a null [m_next] (line 117) knows
    about the run so far. *)
Definition Witness (d : T) (progs : list (list (Op T))) (sched : list tid)
    chain (i : nat) (t : tid) (rs : list (Op T * Ret T)) f : Prop :=
  match f with
  | DeqHazardNext hd _ nx | DeqRecheck hd _ nx =>
      m_ptr nx = None →
      ∃ s0, Earlier d progs sched t rs s0 ∧ Seen chain i hd s0
  | DeqBranch _ _ nx =>
      m_ptr nx = None →
      ∃ s0, Earlier d progs sched t rs s0 ∧ empty (world s0) = true
  | _ => True
  end.

Definition WInv (d : T) (progs : list (list (Op T))) (sched : list tid) s : Prop :=
  ∃ chain i j, GInv chain i j s ∧
    ∀ t th f, pool s !! t = Some th → frame th = Some f →
      Witness d progs sched chain i t (results th) f.

(** ** Vocabulary of completed runs, appended nodes and empty calls *)

(** The number of calls that have not returned. *)
Definition calls_left s : nat := sum_list_with (λ th, length (todo th)) (pool s).

(** Every node of [w0] is in [w] what it was in [w0]. *)
Definition untouched w0 w : Prop :=
  ∀ l nd, heap w0 !! l = Some nd → heap w !! l = Some nd.

(** One node of [w0], whose [m_next] was null, has [n] for successor in
    [w]; its value and every other node of [w0] are what they were. *)
Definition linked_behind (n : loc) w0 w (l : loc) : Prop :=
  ∃ nd, heap w0 !! l = Some nd ∧ m_ptr (m_next nd) = None
    ∧ heap w !! l = Some {| m_value := m_value nd; m_next := bump (Some n) (m_next nd) |}
    ∧ ∀ l' nd', l' ≠ l → heap w0 !! l' = Some nd' → heap w !! l' = Some nd'.

(** What an [Enqueue] call that is to link the node [n] has done to the
    nodes of [w0]. *)
Definition enqueuing (n : loc) w0 f w : Prop :=
  match f with
  | EnqLoadTail n' | EnqHazard n' _ | EnqCheck n' _ | EnqLoadNext n' _ | EnqCas n' _ _ =>
      n' = n ∧ untouched w0 w
  | EnqSwing n' _ => n' = n ∧ (untouched w0 w ∨ ∃ l, linked_behind n w0 w l)
  | _ => False
  end.

(** The program points of a [Dequeue] call that has not exchanged
    [head]. *)
Definition searching f : bool :=
  match f with
  | DeqLoadHead | DeqHazard _ | DeqCheck _ | DeqLoadTail _ | DeqLoadNext _ _
  | DeqHazardNext _ _ _ | DeqRecheck _ _ _ | DeqBranch _ _ _ | DeqCas _ _ _ => true
  | _ => false
  end.

(** What thread [t] may log in a [Dequeue] call that returns the empty
    optional: the exchange of line 127, an exchange of line 136 that
    fails, and the return. *)
Definition harmless (t : tid) (e : Event T) : Prop :=
  match e with
  | EvCas t' HelpTailDeq STail _ _ _ => t' = t
  | EvCas t' AdvanceHead SHead _ _ false => t' = t
  | EvReturn t' OpDequeue (RetOpt None) => t' = t
  | _ => False
  end.

(** What a step of thread [t] from [w] to [w'] that logs [evs] does not
    do: it changes no node, not [head], not the retired list, no hazard
    slot of another thread, and [tail] only by a successful exchange of
    line 127. *)
Definition passive (t : tid) w w' evs : Prop :=
  heap w' = heap w ∧ m_head w' = m_head w
  ∧ retired (m_hp w') = retired (m_hp w)
  ∧ (∀ t' slot, t' ≠ t →
       hazards (m_hp w') !! (t', slot) = hazards (m_hp w) !! (t', slot))
  ∧ Forall (harmless t) evs
  ∧ (m_tail w' ≠ m_tail w →
     ∃ old, evs = [EvCas t HelpTailDeq STail old (m_tail w') true]).

(** The same of a step of the pool. *)
Definition Passive (t : tid) s0 s1 : Prop :=
  ∃ evs, log s1 = log s0 ++ evs ∧ passive t (world s0) (world s1) evs.

(** The thread is between two calls, or in a [Dequeue] call that has not
    exchanged [head]. *)
Definition calm th : Prop :=
  match frame th with Some f => searching f = true | None => True end.

(** Every step that thread [t] has made in the call it is in was
    passive, as long as the call has not exchanged [head]. *)
Definition CInv (d : T) (progs : list (list (Op T))) (sched : list tid) s : Prop :=
  ∀ t th, pool s !! t = Some th → calm th →
    ∀ sched0 s0 th0 s1,
      sched0 ++ [t] `prefix_of` sched → run sched0 (init d progs) = Some s0 →
      pool s0 !! t = Some th0 → results th0 = results th →
      step t s0 = Some s1 → Passive t s0 s1.

(** The thread that an event is the doing of. *)
Definition event_thread (e : Event T) : tid :=
  match e with
  | EvCas t _ _ _ _ _ | EvRetire t _ | EvReturn t _ _ => t
  end.

(** The program points between line 111 and the branches of lines 123 to
    135: one pass through the loop of [Dequeue], before any exchange. *)
Definition in_iteration f : bool :=
  match f with
  | DeqHazard _ | DeqCheck _ | DeqLoadTail _ | DeqLoadNext _ _
  | DeqHazardNext _ _ _ | DeqRecheck _ _ _ | DeqBranch _ _ _ => true
  | _ => false
  end.

(** The run [sched] went through a state [s_top] in which thread [t], in
    the call after those of [rs], was about to execute line 111, and
    nothing that was logged since is the doing of [t]. *)
Definition Top (d : T) (progs : list (list (Op T))) (sched : list tid)
    (t : tid) (rs : list (Op T * Ret T)) lg : Prop :=
  ∃ sched1 s_top th_top lgs,
    sched1 `prefix_of` sched ∧ run sched1 (init d progs) = Some s_top
    ∧ pool s_top !! t = Some th_top ∧ results th_top = rs
    ∧ current th_top = Some DeqLoadHead
    ∧ lg = log s_top ++ lgs ∧ Forall (λ e, event_thread e ≠ t) lgs.

(** Every thread that is inside a pass through the loop of [Dequeue] has
    logged nothing since it entered it. *)
Definition IInv (d : T) (progs : list (list (Op T))) (sched : list tid) s : Prop :=
  ∀ t th f, pool s !! t = Some th → frame th = Some f → in_iteration f = true →
    Top d progs sched t (results th) (log s).

End Vocabulary.

(** ** Concrete runs *)

(** Concrete runs over [int] payloads. *)
Definition run_from (progs : list (list (Op Z))) (sched : list tid) : State Z :=
  default (init 0%Z []) (run sched (init 0%Z progs)).

(** One producer and one consumer.  The producer links its node and is
    preempted before line 100; the consumer finds [tail] lagging and helps;
    the producer's own exchange then fails; the consumer takes the value. *)
Definition helped_progs : list (list (Op Z)) := [[OpEnqueue 1%Z]; [OpDequeue]].
Definition helped_sched : list tid :=
  replicate 6 0 ++ replicate 8 1 ++ [0] ++ replicate 10 1.
Definition helped_run : State Z := run_from helped_progs helped_sched.
Definition helped_mid : State Z :=
  run_from helped_progs (replicate 6 0 ++ replicate 8 1).

(** One producer and two consumers.  Consumer 1 helps [tail] forward,
    consumer 2 takes the only value, consumer 1 then finds the queue
    empty. *)
Definition raced_progs : list (list (Op Z)) :=
  [[OpEnqueue 1%Z]; [OpDequeue]; [OpDequeue]].
Definition raced_sched : list tid :=
  replicate 6 0 ++ replicate 8 1 ++ replicate 10 2 ++ replicate 8 1.
Definition raced_run : State Z := run_from raced_progs raced_sched.

(** The run of [raced_run], stopped before consumer 1 helps [tail]
    forward, and before it returns. *)
Definition raced_help : State Z := run_from raced_progs (replicate 6 0 ++ replicate 7 1).
Definition raced_last_sched : list tid :=
  replicate 6 0 ++ replicate 8 1 ++ replicate 10 2 ++ replicate 7 1.
Definition raced_last : State Z := run_from raced_progs raced_last_sched.

(** One producer and two consumers.  Consumer 1 reads the only value and is
    preempted before line 136; consumer 2 takes the value; the exchange of
    consumer 1 then fails, and it finds the queue empty. *)
Definition lost_progs : list (list (Op Z)) :=
  [[OpEnqueue 1%Z]; [OpDequeue]; [OpDequeue]].
Definition lost_sched : list tid :=
  replicate 7 0 ++ replicate 8 1 ++ replicate 10 2 ++ replicate 9 1.
Definition lost_run : State Z := run_from lost_progs lost_sched.

(** One thread, stopped between the exchange of line 136 and line 140. *)
Definition retiring_run : State Z :=
  run_from [[OpEnqueue 1%Z; OpDequeue]] (replicate 16 0).

Definition many : nat := Z.to_nat (2 ^ 64 - 1).

Definition wrap_ops : list (Op Z) :=
  concat (replicate many [OpEnqueue 0%Z; OpDequeue]) ++ [OpEnqueue 0%Z].

Definition before_cas : World Z :=
  world (run_from [[OpEnqueue 1%Z; OpDequeue]] (replicate 15 0)).

Definition enqueued_one : State Z := run_from [[OpEnqueue 1%Z]] (replicate 7 0).

(** One consumer on an empty queue, stopped before it returns. *)
Definition idle_dequeue : State Z := run_from [[OpDequeue]] (replicate 7 0).

(** * Tactics *)

Ltac hz_solve :=
  apply map_eq; intros ?;
  repeat (rewrite lookup_delete || rewrite lookup_insert);
  repeat case_decide; simplify_eq; done.

Ltac unpack :=
  repeat match goal with
  | H : ∃ _, _ |- _ => destruct H as [? H]
  | H : _ ∧ _ |- _ => destruct H as [? H]
  end.

Ltac step_cases H :=
  repeat (simpl in H; match type of H with
    | (if ?c then _ else _) = _ => destruct c eqn:?
    | (match m_ptr ?p with _ => _ end) = _ => destruct (m_ptr p) eqn:?
    | (cas ?a ?b ?c ?d ?e ?g ≫= _) = _ =>
        destruct (cas a b c d e g) as [[[??]?]|] eqn:?
    | (m_ptr ?p ≫= _) = _ => destruct (m_ptr p) eqn:?
    | ((?h !! ?k) ≫= _) = _ => destruct (h !! k) eqn:?
    end); simplify_eq/=.

Ltac hz_lookup :=
  repeat first
    [ rewrite lookup_delete_eq | rewrite lookup_insert_eq
    | rewrite lookup_delete_ne by congruence
    | rewrite lookup_insert_ne by congruence ].

(** * Proofs *)

Lemma Pointer_eqb_eq p q : Pointer_eqb p q = true ↔ p = q.
Proof.
  unfold Pointer_eqb. rewrite andb_true_iff, !bool_decide_eq_true.
  destruct p, q; simpl. split; [intros [-> ->]; done | by intros [= -> ->]].
Qed.

Lemma Pointer_eqb_refl p : Pointer_eqb p p = true.
Proof. by apply Pointer_eqb_eq. Qed.

Lemma Pointer_neqb_refl p : Pointer_neqb p p = false.
Proof. unfold Pointer_neqb. by rewrite Pointer_eqb_refl. Qed.

Lemma Pointer_neqb_true p q : Pointer_neqb p q = true ↔ p ≠ q.
Proof.
  unfold Pointer_neqb. rewrite negb_true_iff, <- not_true_iff_false.
  by rewrite Pointer_eqb_eq.
Qed.

Section Execution.
Context {T : Type}.
Implicit Types (w : World T) (f : Frame T) (chain : list (loc * T)).

Lemma Exec_return t f w w' r evs :
  step_frame t f w = Some (w', Return r, evs) → Exec 1 t f w (w', r, evs).
Proof. intros H [|fuel] ?; [lia|]. simpl. by rewrite H. Qed.

Lemma Exec_continue n t f w w1 f1 evs1 w' r evs :
  step_frame t f w = Some (w1, Continue f1, evs1) →
  Exec n t f1 w1 (w', r, evs) →
  Exec (S n) t f w (w', r, evs1 ++ evs).
Proof.
  intros H1 H2 [|fuel] ?; [lia|]. simpl. rewrite H1.
  rewrite (H2 fuel) by lia. done.
Qed.

Lemma run_frame_mono fuel fuel' t f w res :
  run_frame fuel t f w = Finished res → fuel ≤ fuel' →
  run_frame fuel' t f w = Finished res.
Proof.
  revert fuel' f w res. induction fuel as [|fuel IH]; intros fuel' f w res H Hle; [done|].
  destruct fuel' as [|fuel']; [lia|]. simpl in *.
  destruct (step_frame t f w) as [[[w1 [f1|r]] evs]|]; try done.
  destruct (run_frame fuel t f1 w1) as [[[w2 r2] evs2]| |] eqn:E; try done.
  rewrite (IH fuel' _ _ _ E) by lia. done.
Qed.

Lemma Exec_unique n t f w res fuel res' :
  Exec n t f w res → run_frame fuel t f w = Finished res' → res' = res.
Proof.
  intros H1 H2.
  pose proof (run_frame_mono _ (max n fuel) _ _ _ _ H2 ltac:(lia)) as H3.
  rewrite (H1 (max n fuel)) in H3 by lia. congruence.
Qed.

End Execution.

Section ShapeBasics.
Context {T : Type}.
Implicit Types (w : World T) (f : Frame T) (chain : list (loc * T)).

Lemma Shape_lookup chain i j w k l :
  Shape chain i j w → chain.*1 !! k = Some l →
  ∃ v nx, chain !! k = Some (l, v) ∧ heap w !! l = Some {| m_value := v; m_next := nx |}
          ∧ m_ptr nx = chain.*1 !! S k.
Proof.
  intros Sh H. rewrite list_lookup_fmap in H.
  destruct (chain !! k) as [[l' v]|] eqn:E; simplify_eq/=.
  destruct (sh_links _ _ _ _ Sh _ _ _ E) as (nx & ? & ?).
  exists v, nx. by rewrite list_lookup_fmap.
Qed.

Lemma Shape_fresh chain i j w :
  Shape chain i j w → fresh (dom (heap w)) ∉ chain.*1.
Proof.
  intros Sh [k Hk]%list_elem_of_lookup.
  destruct (Shape_lookup _ _ _ _ _ _ Sh Hk) as (v & nx & _ & Hh & _).
  apply (is_fresh (dom (heap w))). apply elem_of_dom. eauto.
Qed.

End ShapeBasics.

Section ShapeSteps.
Context {T : Type}.
Implicit Types (w : World T) (f : Frame T) (chain : list (loc * T)).

Lemma Shape_frame chain i j w w' :
  heap w' = heap w → m_head w' = m_head w → m_tail w' = m_tail w →
  Shape chain i j w → Shape chain i j w'.
Proof.
  intros Hh Hd Ht [].
  split; rewrite ?Hh, ?Hd, ?Ht; done.
Qed.

Lemma Shape_set_hp chain i j w c :
  Shape chain i j w → Shape chain i j (set_hp c w).
Proof. by apply Shape_frame. Qed.

Lemma Shape_AddHazard chain i j w t slot p :
  Shape chain i j w → Shape chain i j (AddHazard t slot p w).
Proof. apply Shape_set_hp. Qed.

Lemma Shape_ReleaseHazard chain i j w t slot :
  Shape chain i j w → Shape chain i j (ReleaseHazard t slot w).
Proof. apply Shape_set_hp. Qed.

Lemma Shape_RetireHazard chain i j w l :
  Shape chain i j w → Shape chain i j (RetireHazard l w).
Proof. apply Shape_set_hp. Qed.

Lemma Shape_alloc chain i j w n nd :
  heap w !! n = None →
  Shape chain i j w → Shape chain i j (set_heap (<[n := nd]> (heap w)) w).
Proof.
  intros Hn Sh. destruct Sh as [ND LK HD TL ? ? ?]. split; try done; simpl.
  intros k l v Hk. destruct (LK k l v Hk) as (nx & Hl & Hnx).
  exists nx. split; [|done]. rewrite lookup_insert_ne; [done|congruence].
Qed.

Lemma Shape_tail chain i j w p x :
  chain.*1 !! S j = Some x → m_ptr p = Some x →
  Shape chain i j w → Shape chain i (S j) (set_tail p w).
Proof.
  intros Hx Hp [ND LK HD TL ? ? ?].
  pose proof (lookup_lt_Some _ _ _ Hx) as Hlt. rewrite length_fmap in Hlt.
  split; try done; simpl; try lia.
  by rewrite Hp, <- Hx, list_lookup_fmap.
Qed.

Lemma Shape_head chain i j w p x :
  chain.*1 !! S i = Some x → m_ptr p = Some x → i < j →
  Shape chain i j w → Shape chain (S i) j (set_head p w).
Proof.
  intros Hx Hp Hij [ND LK HD TL ? ? ?].
  split; try done; simpl; try lia.
  by rewrite Hp, <- Hx, list_lookup_fmap.
Qed.

Lemma Shape_link chain i j w l n v nd p :
  chain.*1 !! j = Some l → S j = length chain →
  n ∉ chain.*1 →
  heap w !! n = Some nd → m_value nd = v → m_ptr (m_next nd) = None →
  m_ptr p = Some n →
  Shape chain i j w →
  Shape (chain ++ [(n, v)]) i j (slot_store (SNext l) p w).
Proof.
  intros Hl Hlast Hn Hnd Hv Hnx Hp Sh.
  destruct (Shape_lookup _ _ _ _ _ _ Sh Hl) as (vl & nxl & Hcl & Hhl & Hnxl).
  destruct Sh as [ND LK HD TL ? ? ?].
  assert (l ≠ n) as Hne.
  { intros ->. apply Hn. by eapply list_elem_of_lookup_2. }
  unfold slot_store. rewrite Hhl. simpl.
  split; simpl.
  - rewrite fmap_app. simpl. apply NoDup_app. split; [done|]. split.
    + intros x Hx ->%list_elem_of_singleton. done.
    + apply NoDup_singleton.
  - intros k l' v' Hk.
    destruct (decide (k < length chain)) as [Hlt|Hge].
    + rewrite lookup_app_l in Hk by done.
      destruct (LK _ _ _ Hk) as (nx & Hh' & Hnx').
      destruct (decide (l' = l)) as [->|Hne'].
      * assert (k = j) as ->.
        { eapply NoDup_lookup; [exact ND| |exact Hl].
          by rewrite list_lookup_fmap, Hk. }
        rewrite lookup_insert_eq. simplify_eq. eexists. split; [done|]. simpl.
        rewrite Hp, Hlast, lookup_app_r by lia.
        by rewrite Nat.sub_diag.
      * exists nx. rewrite lookup_insert_ne by done. split; [done|].
        rewrite Hnx'. destruct (decide (S k < length chain)).
        -- by rewrite lookup_app_l.
        -- assert (k = j) as -> by lia. exfalso. apply Hne'.
           rewrite list_lookup_fmap, Hk in Hl. by simplify_eq/=.
    + assert (k = length chain) as ->.
      { apply lookup_lt_Some in Hk. rewrite length_app in Hk. simpl in Hk. lia. }
      rewrite lookup_app_r, Nat.sub_diag in Hk by lia. simplify_eq/=.
      rewrite lookup_insert_ne by done. destruct nd as [vn nxn]; simpl in *.
      exists nxn. split; [done|]. rewrite Hnx.
      rewrite lookup_ge_None_2; [done|]. rewrite length_app. simpl. lia.
  - rewrite HD. rewrite lookup_app_l by lia. done.
  - rewrite TL. rewrite lookup_app_l by lia. done.
  - done.
  - rewrite length_app; simpl; lia.
  - rewrite length_app; simpl; lia.
Qed.

End ShapeSteps.

Section SoloEnqueue.
Context {T : Type}.
Implicit Types (w : World T) (f : Frame T) (chain : list (loc * T)).
Local Arguments cas : simpl never.

Lemma cas_success t site s expected desired w :
  slot_load s w = Some expected →
  cas t site s expected desired w
  = Some (slot_store s desired w, true, [EvCas t site s expected desired true]).
Proof.
  intros H. unfold cas, CompareExchange. rewrite H. simpl.
  by rewrite Pointer_eqb_refl.
Qed.

Lemma cas_failure t site s stored expected desired w :
  slot_load s w = Some stored → stored ≠ expected →
  cas t site s expected desired w
  = Some (w, false, [EvCas t site s stored desired false]).
Proof.
  intros H Hne. unfold cas, CompareExchange. rewrite H. simpl.
  destruct (Pointer_eqb stored expected) eqn:E; [|done].
  by apply Pointer_eqb_eq in E.
Qed.

Lemma Exec_mono n n' t f w res : Exec n t f w res → n ≤ n' → Exec n' t f w res.
Proof. intros H ? fuel ?. apply H. lia. Qed.

Lemma Exec_events n t f w w' r evs evs' :
  Exec n t f w (w', r, evs) → evs = evs' → Exec n t f w (w', r, evs').
Proof. by intros ? <-. Qed.

Lemma enq_loop_nolag t chain i j w n v :
  Shape chain i j w → S j = length chain →
  n ∉ chain.*1 → heap w !! n = Some {| m_value := v; m_next := null_pointer |} →
  ∃ w' evs, Exec 6 t (EnqLoadTail n) w (w', RetVoid, evs)
    ∧ Shape (chain ++ [(n, v)]) i (S j) w'
    ∧ m_head w' = m_head w
    ∧ retired (m_hp w') = retired (m_hp w)
    ∧ hazards (m_hp w') = delete (t, 0) (hazards (m_hp w))
    ∧ dom (heap w') = dom (heap w).
Proof.
  intros Sh Hlast Hn Hnd.
  pose proof (sh_tail _ _ _ _ Sh) as Htl.
  destruct (chain !! j) as [[l vl]|] eqn:Hj; [|by apply lookup_ge_None in Hj; lia].
  simpl in Htl.
  assert (chain.*1 !! j = Some l) as Hj1 by (by rewrite list_lookup_fmap, Hj).
  destruct (Shape_lookup _ _ _ _ _ _ Sh Hj1) as (vl' & nx & Hcl & Hhl & Hnx).
  rewrite (lookup_ge_None_2 _ (S j)) in Hnx by (rewrite length_fmap; lia).
  eexists _, _. split; [|split; [|split; [|split; [|split]]]].
  - eapply Exec_continue; [reflexivity|].
    eapply Exec_continue; [reflexivity|].
    eapply Exec_continue; [cbn; by rewrite Pointer_neqb_refl|].
    eapply Exec_continue; [cbn; rewrite Htl; cbn; rewrite Hhl; reflexivity|].
    eapply Exec_continue.
    { cbn. rewrite Hnx, Htl. cbn.
      rewrite cas_success by (cbn; by rewrite Hhl). reflexivity. }
    eapply Exec_return. cbn.
    rewrite cas_success; [reflexivity|]. cbn. by rewrite Hhl.
  - cbn. rewrite Hhl. cbn.
    eapply Shape_tail; [| reflexivity |].
    { rewrite fmap_app, lookup_app_r by (rewrite length_fmap; lia).
      rewrite length_fmap, Hlast, Nat.sub_diag. reflexivity. }
    apply Shape_ReleaseHazard.
    eapply (Shape_frame _ _ _ (slot_store (SNext l) (bump (Some n) nx) w));
      [cbn; by rewrite Hhl..|].
    eapply Shape_link; eauto.
  - cbn. rewrite Hhl. reflexivity.
  - cbn. rewrite Hhl. reflexivity.
  - cbn. rewrite Hhl. cbn. by rewrite delete_insert_eq.
  - cbn. rewrite Hhl. cbn. rewrite dom_insert_L.
    assert (l ∈ dom (heap w)) by (apply elem_of_dom; eauto). set_solver.
Qed.

Lemma enq_loop t chain i j w n v :
  Shape chain i j w →
  n ∉ chain.*1 → heap w !! n = Some {| m_value := v; m_next := null_pointer |} →
  ∃ w' evs, Exec 11 t (EnqLoadTail n) w (w', RetVoid, evs)
    ∧ Shape (chain ++ [(n, v)]) i (length chain) w'
    ∧ m_head w' = m_head w
    ∧ retired (m_hp w') = retired (m_hp w)
    ∧ hazards (m_hp w') = delete (t, 0) (hazards (m_hp w))
    ∧ dom (heap w') = dom (heap w).
Proof.
  intros Sh Hn Hnd.
  destruct (decide (S j = length chain)) as [Hlast|Hlag].
  { destruct (enq_loop_nolag t _ _ _ _ _ _ Sh Hlast Hn Hnd) as (w' & evs & HE & ?).
    exists w', evs. rewrite <- Hlast. split; [|done]. eapply Exec_mono; [done|lia]. }
  assert (S (S j) = length chain) as Hlen.
  { pose proof (sh_lt _ _ _ _ Sh). pose proof (sh_lag _ _ _ _ Sh). lia. }
  pose proof (sh_tail _ _ _ _ Sh) as Htl.
  destruct (chain !! j) as [[l vl]|] eqn:Hj; [|by apply lookup_ge_None in Hj; lia].
  simpl in Htl.
  assert (chain.*1 !! j = Some l) as Hj1 by (by rewrite list_lookup_fmap, Hj).
  destruct (Shape_lookup _ _ _ _ _ _ Sh Hj1) as (vl' & nx & Hcl & Hhl & Hnx).
  destruct (chain.*1 !! S j) as [x|] eqn:Hx;
    [|apply lookup_ge_None in Hx; rewrite length_fmap in Hx; lia].
  set (w1 := ReleaseHazard t 0 (slot_store STail (bump (Some x) (m_tail w))
                                 (AddHazard t 0 (Some l) w))).
  assert (Shape chain i (S j) w1) as Sh1.
  { subst w1. apply Shape_ReleaseHazard. cbn.
    eapply Shape_tail; [exact Hx|by cbn|by apply Shape_AddHazard]. }
  destruct (enq_loop_nolag t _ _ _ w1 n v Sh1)
    as (w' & evs & HE & Sh' & Hh & Hr & Hz & Hd); [lia|done|done|].
  eexists w', _. split; [|split; [|split; [|split; [|split]]]].
  - eapply Exec_continue; [reflexivity|].
    eapply Exec_continue; [reflexivity|].
    eapply Exec_continue; [cbn; by rewrite Pointer_neqb_refl|].
    eapply Exec_continue; [cbn; rewrite Htl; cbn; rewrite Hhl; reflexivity|].
    eapply Exec_continue.
    { cbn. rewrite Hnx. rewrite cas_success by done. reflexivity. }
    exact HE.
  - by rewrite <- Hlen.
  - by rewrite Hh.
  - by rewrite Hr.
  - rewrite Hz. subst w1. cbn. by rewrite delete_insert_eq, delete_delete_eq.
  - by rewrite Hd.
Qed.

Lemma Enqueue_solo t chain i j w v :
  Shape chain i j w →
  ∃ w' evs, Exec 12 t (EnqNew v) w (w', RetVoid, evs)
    ∧ Shape (chain ++ [(fresh (dom (heap w)), v)]) i (length chain) w'
    ∧ m_head w' = m_head w
    ∧ retired (m_hp w') = retired (m_hp w)
    ∧ hazards (m_hp w') = delete (t, 0) (hazards (m_hp w))
    ∧ dom (heap w') = {[fresh (dom (heap w))]} ∪ dom (heap w).
Proof.
  intros Sh. set (n := fresh (dom (heap w))).
  assert (heap w !! n = None) as Hnone.
  { apply not_elem_of_dom. apply is_fresh. }
  set (w0 := set_heap (<[n := {| m_value := v; m_next := null_pointer |}]> (heap w)) w).
  destruct (enq_loop t chain i j w0 n v) as (w' & evs & HE & Sh' & Hh & Hr & Hz & Hd).
  - by apply Shape_alloc.
  - by eapply Shape_fresh.
  - subst w0. cbn. by rewrite lookup_insert_eq.
  - exists w', ([] ++ evs). split; [|split; [|split; [|split; [|split]]]]; try done.
    + eapply Exec_continue; [reflexivity|]. exact HE.
    + rewrite Hd. subst w0. cbn. by rewrite dom_insert_L.
Qed.

End SoloEnqueue.

Section SoloDequeue.
Context {T : Type}.
Implicit Types (w : World T) (f : Frame T) (chain : list (loc * T)).
Local Arguments cas : simpl never.

Lemma Dequeue_solo_empty t chain i j w :
  Shape chain i j w → S i = length chain →
  Exec 8 t DeqLoadHead w
    (released t (AddHazard t 1 None (AddHazard t 0 (m_ptr (m_head w)) w)),
     RetOpt None, []).
Proof.
  intros Sh Hlast.
  pose proof (sh_head _ _ _ _ Sh) as Hhd.
  destruct (chain !! i) as [[h vh]|] eqn:Hi; [|by apply lookup_ge_None in Hi; lia].
  simpl in Hhd.
  assert (chain.*1 !! i = Some h) as Hi1 by (by rewrite list_lookup_fmap, Hi).
  destruct (Shape_lookup _ _ _ _ _ _ Sh Hi1) as (vh' & nx & Hch & Hhh & Hnx).
  rewrite (lookup_ge_None_2 _ (S i)) in Hnx by (rewrite length_fmap; lia).
  eapply Exec_events; [|shelve].
  eapply Exec_continue; [reflexivity|].
  eapply Exec_continue; [reflexivity|].
  eapply Exec_continue; [cbn; by rewrite Pointer_neqb_refl|].
  eapply Exec_continue; [reflexivity|].
  eapply Exec_continue; [cbn; rewrite Hhd; cbn; rewrite Hhh; reflexivity|].
  eapply Exec_continue; [reflexivity|].
  eapply Exec_continue; [cbn; by rewrite Pointer_neqb_refl|].
  eapply Exec_return. cbn. rewrite Hnx, Hhd. reflexivity.
  Unshelve. reflexivity.
Qed.

Lemma deq_loop_nolag t chain i j w h vh x v :
  Shape chain i j w → i < j →
  chain !! i = Some (h, vh) → chain !! S i = Some (x, v) →
  ∃ w', Exec 10 t DeqLoadHead w
          (w', RetOpt (Some v),
           [EvCas t AdvanceHead SHead (m_head w) (bump (Some x) (m_head w)) true;
            EvRetire t h])
    ∧ Shape chain (S i) j w'
    ∧ heap w' = heap w
    ∧ m_head w' = bump (Some x) (m_head w)
    ∧ m_tail w' = m_tail w
    ∧ retired (m_hp w') = retired (m_hp w) ++ [h]
    ∧ hazards (m_hp w') = delete (t, 0) (delete (t, 1) (hazards (m_hp w))).
Proof.
  intros Sh Hij Hi Hsi.
  pose proof (sh_head _ _ _ _ Sh) as Hhd. rewrite Hi in Hhd. simpl in Hhd.
  pose proof (sh_tail _ _ _ _ Sh) as Htl.
  destruct (chain !! j) as [[l vl]|] eqn:Hj;
    [|by apply lookup_ge_None in Hj; pose proof (sh_lt _ _ _ _ Sh); lia].
  simpl in Htl.
  assert (h ≠ l) as Hne.
  { intros ->. assert (i = j); [|lia].
    eapply NoDup_lookup; [apply (sh_nodup _ _ _ _ Sh)|..];
      by rewrite list_lookup_fmap, ?Hi, ?Hj. }
  destruct (sh_links _ _ _ _ Sh _ _ _ Hi) as (nx & Hhh & Hnx).
  rewrite Hsi in Hnx. simpl in Hnx.
  destruct (sh_links _ _ _ _ Sh _ _ _ Hsi) as (nxx & Hhx & _).
  eexists. split; [|split; [|split; [|split; [|split; [|split]]]]].
  - eapply Exec_events; [|shelve].
    eapply Exec_continue; [reflexivity|].
    eapply Exec_continue; [reflexivity|].
    eapply Exec_continue; [cbn; by rewrite Pointer_neqb_refl|].
    eapply Exec_continue; [reflexivity|].
    eapply Exec_continue; [cbn; rewrite Hhd; cbn; rewrite Hhh; reflexivity|].
    eapply Exec_continue; [reflexivity|].
    eapply Exec_continue; [cbn; by rewrite Pointer_neqb_refl|].
    eapply Exec_continue.
    { cbn. rewrite Hnx, Hhd, Htl.
      rewrite decide_False by congruence. cbn. rewrite Hhx. reflexivity. }
    eapply Exec_continue.
    { cbn. rewrite cas_success by done. rewrite Hnx. reflexivity. }
    eapply Exec_return. cbn. rewrite Hhd. reflexivity.
  - cbn. apply Shape_RetireHazard, Shape_ReleaseHazard, Shape_ReleaseHazard. cbn.
    eapply Shape_head; [by rewrite list_lookup_fmap, Hsi|done|done|].
    by apply Shape_AddHazard, Shape_AddHazard.
  - reflexivity.
  - reflexivity.
  - reflexivity.
  - reflexivity.
  - cbn. hz_solve.
  Unshelve. reflexivity.
Qed.

Lemma Dequeue_solo_nonempty t chain i j w h vh x v :
  Shape chain i j w →
  chain !! i = Some (h, vh) → chain !! S i = Some (x, v) →
  ∃ w' pre, Exec 18 t DeqLoadHead w
          (w', RetOpt (Some v),
           pre ++ [EvCas t AdvanceHead SHead (m_head w) (bump (Some x) (m_head w)) true;
                   EvRetire t h])
    ∧ Shape chain (S i) (max j (S i)) w'
    ∧ heap w' = heap w
    ∧ m_head w' = bump (Some x) (m_head w)
    ∧ retired (m_hp w') = retired (m_hp w) ++ [h]
    ∧ hazards (m_hp w') = delete (t, 0) (delete (t, 1) (hazards (m_hp w))).
Proof.
  intros Sh Hi Hsi.
  destruct (decide (i < j)) as [Hij|Hij].
  { destruct (deq_loop_nolag t _ _ _ _ _ _ _ _ Sh Hij Hi Hsi)
      as (w' & HE & Sh' & ? & ? & ? & ? & ?).
    exists w', []. replace (max j (S i)) with j by lia.
    split; [|done]. eapply Exec_mono; [exact HE|lia]. }
  assert (i = j) as <- by (pose proof (sh_le _ _ _ _ Sh); lia).
  pose proof (sh_head _ _ _ _ Sh) as Hhd. rewrite Hi in Hhd. simpl in Hhd.
  pose proof (sh_tail _ _ _ _ Sh) as Htl. rewrite Hi in Htl. simpl in Htl.
  destruct (sh_links _ _ _ _ Sh _ _ _ Hi) as (nx & Hhh & Hnx).
  rewrite Hsi in Hnx. simpl in Hnx.
  set (w1 := released t (slot_store STail (bump (Some x) (m_tail w))
               (AddHazard t 1 (Some x) (AddHazard t 0 (Some h) w)))).
  assert (Shape chain i (S i) w1) as Sh1.
  { subst w1. apply Shape_ReleaseHazard, Shape_ReleaseHazard. cbn.
    eapply Shape_tail; [by rewrite list_lookup_fmap, Hsi|done|].
    by apply Shape_AddHazard, Shape_AddHazard. }
  destruct (deq_loop_nolag t _ _ _ w1 _ _ _ _ Sh1 ltac:(lia) Hi Hsi)
    as (w' & HE & Sh' & Hhp & Hhead & Htail & Hret & Hhz).
  exists w', [EvCas t HelpTailDeq STail (m_tail w) (bump (Some x) (m_tail w)) true].
  split; [|split; [|split; [|split; [|split]]]].
  - eapply Exec_events; [|shelve].
    eapply Exec_continue; [reflexivity|].
    eapply Exec_continue; [reflexivity|].
    eapply Exec_continue; [cbn; by rewrite Pointer_neqb_refl|].
    eapply Exec_continue; [reflexivity|].
    eapply Exec_continue; [cbn; rewrite Hhd; cbn; rewrite Hhh; reflexivity|].
    eapply Exec_continue; [reflexivity|].
    eapply Exec_continue; [cbn; by rewrite Pointer_neqb_refl|].
    eapply Exec_continue.
    { cbn. rewrite Hnx, Hhd, Htl.
      rewrite decide_True by done. rewrite cas_success by done. reflexivity. }
    exact HE.
  - by replace (max i (S i)) with (S i) by lia.
  - by rewrite Hhp.
  - by rewrite Hhead.
  - by rewrite Hret.
  - rewrite Hhz. subst w1. cbn. hz_solve.
  Unshelve. reflexivity.
Qed.

End SoloDequeue.

Section Invariant.
Context {T : Type}.
Implicit Types (w : World T) (f : Frame T) (chain : list (loc * T)).
Implicit Types (th : Thread T) (s : State T) (lg evs : list (Event T)).

Lemma prefix_lookup_fst chain chain' k (l : loc) :
  chain `prefix_of` chain' → chain.*1 !! k = Some l → chain'.*1 !! k = Some l.
Proof.
  intros [r ->] H. rewrite fmap_app. by apply lookup_app_l_Some.
Qed.

Lemma At_ext chain chain' k p :
  chain `prefix_of` chain' → At chain k p → At chain' k p.
Proof. intros Hp (l & ? & ?). exists l. eauto using prefix_lookup_fst. Qed.

Lemma TailSnap_ext chain i j w chain' i' j' w' k tl :
  Ext chain i j w chain' i' j' w' →
  TailSnap chain j w k tl → TailSnap chain' j' w' k tl.
Proof.
  intros E (HA & Hle & Heq). pose proof (ext_j _ _ _ _ _ _ _ _ E).
  split; [|split].
  - eapply At_ext; [apply E|done].
  - lia.
  - intros ->. assert (j' = j) as -> by lia.
    rewrite (ext_tail _ _ _ _ _ _ _ _ E) by done. by apply Heq.
Qed.

Lemma HeadSnap_ext chain i j w chain' i' j' w' k hd :
  Ext chain i j w chain' i' j' w' →
  HeadSnap chain i w k hd → HeadSnap chain' i' w' k hd.
Proof.
  intros E (HA & Hle & Heq). pose proof (ext_i _ _ _ _ _ _ _ _ E).
  split; [|split].
  - eapply At_ext; [apply E|done].
  - lia.
  - intros ->. assert (i' = i) as -> by lia.
    rewrite (ext_head _ _ _ _ _ _ _ _ E) by done. by apply Heq.
Qed.

Lemma NextOf_ext chain chain' k nx :
  chain `prefix_of` chain' → NextOf chain k nx → NextOf chain' k nx.
Proof. intros Hp H x Hx. eauto using prefix_lookup_fst. Qed.

Lemma prefix_lookup chain chain' k (c : loc * T) :
  chain `prefix_of` chain' → chain !! k = Some c → chain' !! k = Some c.
Proof. intros [r ->] H. by apply lookup_app_l_Some. Qed.

Lemma FInv_ext chain i j w lg chain' i' j' w' evs t op f :
  Ext chain i j w chain' i' j' w' →
  (∀ n, n ∈ frame_nodes f → n ∉ chain.*1 → n ∉ chain'.*1) →
  (∀ n, n ∈ frame_nodes f → Unswung lg t n → Unswung (lg ++ evs) t n) →
  FInv chain i j w lg t op f → FInv chain' i' j' w' (lg ++ evs) t op f.
Proof.
  intros E Hn Hu.
  pose proof (ext_chain _ _ _ _ _ _ _ _ E) as Hp.
  pose proof (ext_i _ _ _ _ _ _ _ _ E) as Hi.
  pose proof (ext_j _ _ _ _ _ _ _ _ E) as Hj.
  assert (∀ n v, n ∈ frame_nodes f → Unlinked chain w n v → Unlinked chain' w' n v) as HU.
  { intros n v Hin [H1 H2]. split; [|by eapply ext_heap]. by apply Hn. }
  unfold FInv. destruct op as [v|], f; try done; simpl in *;
    intros H; unpack;
    repeat match goal with
    | |- _ ∧ _ => split
    | |- ∃ _, _ => eexists
    | |- Unlinked _ _ _ _ => apply HU; [by apply list_elem_of_singleton|done]
    | |- Unswung _ _ _ => apply Hu; [by apply list_elem_of_singleton|done]
    end;
    eauto using TailSnap_ext, HeadSnap_ext, NextOf_ext, prefix_lookup, prefix_lookup_fst;
    try lia.
Qed.

Lemma enq_nodes_frame th :
  enq_nodes th = from_option frame_nodes [] (frame th).
Proof. unfold enq_nodes. by destruct (frame th) as [[]|]. Qed.

Lemma frame_nodes_entry (op : Op T) : frame_nodes (entry op) = [].
Proof. by destruct op. Qed.

Lemma LInv_ext chain i j w lg chain' i' j' w' evs t th :
  Ext chain i j w chain' i' j' w' →
  (∀ n, n ∈ enq_nodes th → n ∉ chain.*1 → n ∉ chain'.*1) →
  (∀ n, n ∈ enq_nodes th → Unswung lg t n → Unswung (lg ++ evs) t n) →
  LInv chain i j w lg t th → LInv chain' i' j' w' (lg ++ evs) t th.
Proof.
  intros E Hn Hu. unfold LInv. rewrite enq_nodes_frame in Hn, Hu.
  destruct (todo th) as [|op rest]; [done|].
  apply FInv_ext; [done|..]; destruct (frame th); simpl in *;
    rewrite ?frame_nodes_entry; try done; intros n Hin; by apply not_elem_of_nil in Hin.
Qed.

Lemma gather_split {A} (f : Thread T → list A) pl t th :
  pl !! t = Some th → gather f pl ≡ₚ f th ++ gather f (delete t pl).
Proof.
  intros H. unfold gather. rewrite <- (take_drop_middle pl t th H) at 1.
  rewrite delete_take_drop, !bind_app, bind_cons.
  by rewrite Permutation_app_swap_app.
Qed.

Lemma gather_insert {A} (f : Thread T → list A) pl t th th' :
  pl !! t = Some th → gather f (<[t := th']> pl) ≡ₚ f th' ++ gather f (delete t pl).
Proof.
  intros H. unfold gather.
  rewrite insert_take_drop by (by eapply lookup_lt_Some).
  rewrite delete_take_drop, !bind_app, bind_cons.
  by rewrite Permutation_app_swap_app.
Qed.

Lemma gather_delete_elem {A} (f : Thread T → list A) pl t (x : A) :
  x ∈ gather f (delete t pl) →
  ∃ t2 th2, t2 ≠ t ∧ pl !! t2 = Some th2 ∧ x ∈ f th2.
Proof.
  unfold gather. intros (th2 & Hx & Hth)%list_elem_of_bind.
  apply list_elem_of_lookup in Hth as [k Hk].
  destruct (decide (k < t)).
  - exists k, th2. rewrite list_lookup_delete_lt in Hk by done. split; [lia|done].
  - exists (S k), th2. rewrite list_lookup_delete_ge in Hk by lia. split; [lia|done].
Qed.

Lemma enq_nodes_NoDup th : NoDup (enq_nodes th).
Proof.
  unfold enq_nodes. destruct (frame th) as [[]|];
    auto using NoDup_nil_2, NoDup_singleton.
Qed.

Lemma enq_nodes_distinct pl t1 t2 th1 th2 n :
  NoDup (gather enq_nodes pl) →
  pl !! t1 = Some th1 → pl !! t2 = Some th2 → t1 ≠ t2 →
  n ∈ enq_nodes th1 → n ∈ enq_nodes th2 → False.
Proof.
  intros ND H1 H2 Hne Hn1 Hn2.
  rewrite (gather_split _ _ _ _ H1) in ND.
  apply NoDup_app in ND as (_ & Hdisj & _).
  apply (Hdisj n Hn1). unfold gather. apply list_elem_of_bind.
  exists th2. split; [done|].
  apply list_elem_of_lookup.
  destruct (decide (t2 < t1)).
  - exists t2. by rewrite list_lookup_delete_lt.
  - exists (pred t2). rewrite list_lookup_delete_ge by lia.
    replace (S (pred t2)) with t2 by lia. done.
Qed.

Lemma LInv_node_alloc chain i j w lg t th n :
  Shape chain i j w → LInv chain i j w lg t th →
  n ∈ enq_nodes th → is_Some (heap w !! n).
Proof.
  intros Sh. unfold LInv. rewrite enq_nodes_frame.
  destruct (frame th) as [f|]; simpl; [|by intros _ ?%not_elem_of_nil].
  destruct (todo th) as [|[v|] rest]; [done|..]; destruct f; try done; simpl;
    intros H Hn; try (by apply not_elem_of_nil in Hn);
    apply list_elem_of_singleton in Hn as ->; unpack;
    try match goal with H : Unlinked _ _ _ _ |- _ => destruct H as [_ H]; by eauto end.
  assert (chain.*1 !! S x = Some node) as Hx
    by (rewrite list_lookup_fmap; by destruct (chain !! S x) as [[]|]; simplify_eq/=).
  destruct (Shape_lookup _ _ _ _ _ _ Sh Hx) as (? & ? & _ & -> & _). eauto.
Qed.

End Invariant.

Section Preservation.
Context {T : Type}.
Implicit Types (w : World T) (f : Frame T) (chain : list (loc * T)).
Implicit Types (th : Thread T) (s : State T) (lg evs : list (Event T)).

Lemma GInv_step chain i j s t th w' th' evs chain' i' j' :
  GInv chain i j s →
  pool s !! t = Some th →
  Ext chain i j (world s) chain' i' j' w' →
  Shape chain' i' j' w' →
  (∀ n, n ∈ enq_nodes th' → n ∈ enq_nodes th ∨ heap (world s) !! n = None) →
  (∀ l, l ∈ chain'.*1 → l ∈ chain.*1 ∨ l ∈ enq_nodes th) →
  (∀ R, retired (m_hp (world s)) ++ pend_retire th ++ R ≡ₚ take i chain.*1 →
        retired (m_hp w') ++ pend_retire th' ++ R ≡ₚ take i' chain'.*1) →
  (∀ R, linked_vals th ++ R ≡ₚ (drop 1 chain).*2 →
        linked_vals th' ++ R ≡ₚ (drop 1 chain').*2) →
  (∀ R, deq_vals th ++ R ≡ₚ (take i (drop 1 chain)).*2 →
        deq_vals th' ++ R ≡ₚ (take i' (drop 1 chain')).*2) →
  LInv chain' i' j' w' (log s ++ evs) t th' →
  (∀ t' site old des, EvCas t' site STail old des true ∈ evs →
     t' = t ∧ ∃ l, m_ptr des = Some l ∧ l ∈ chain'.*1
                   ∧ (site = SwingTail → l ∈ enq_nodes th)) →
  (j' = j ∨ ∃ t' site old des l,
     j' = S j ∧ chain'.*1 !! S j = Some l
     ∧ EvCas t' site STail old des true ∈ evs ∧ m_ptr des = Some l) →
  GInv chain' i' j'
    {| world := w'; pool := <[t := th']> (pool s); log := log s ++ evs |}.
Proof.
  intros G Ht E Sh' Hnodes Hchain Hret Hlinked Hdeq Hlocal Hevs Hj.
  destruct G as [Sh ND Gret Glinked Gdeq Glocal Glin Glex].
  pose proof (ext_chain _ _ _ _ _ _ _ _ E) as Hp.
  split; simpl.
  - done.
  - rewrite (gather_insert _ _ _ _ _ Ht).
    pose proof ND as ND'. rewrite (gather_split _ _ _ _ Ht) in ND'.
    apply NoDup_app in ND' as (_ & Hdisj & NDR).
    apply NoDup_app. split; [apply enq_nodes_NoDup|]. split; [|done].
    intros n Hn HR.
    destruct (Hnodes n Hn) as [Hold|Hnone]; [by eapply Hdisj|].
    apply gather_delete_elem in HR as (t2 & th2 & Hne & Ht2 & Hn2).
    destruct (LInv_node_alloc _ _ _ _ _ _ _ _ Sh (Glocal _ _ Ht2) Hn2) as [? Hs].
    congruence.
  - rewrite (gather_insert _ _ _ _ _ Ht).
    rewrite (gather_split _ _ _ _ Ht) in Gret. by apply Hret.
  - rewrite (gather_insert _ _ _ _ _ Ht).
    rewrite (gather_split _ _ _ _ Ht) in Glinked. by apply Hlinked.
  - rewrite (gather_insert _ _ _ _ _ Ht).
    rewrite (gather_split _ _ _ _ Ht) in Gdeq. by apply Hdeq.
  - intros t2 th2 Ht2.
    apply list_lookup_insert_Some in Ht2 as [(-> & -> & _)|(Hne & Ht2)]; [done|].
    eapply LInv_ext; [exact E| | |by apply Glocal].
    + intros n Hn Hnc Hnc'.
      destruct (Hchain n Hnc') as [?|Hin]; [done|].
      by eapply (enq_nodes_distinct (pool s) t t2).
    + intros n Hn HU t' site old des [Hin|Hin]%elem_of_app Hdes; [by eapply HU|].
      destruct (Hevs _ _ _ _ Hin) as (-> & l & Hl & _ & Hsw).
      split; [done|]. intros ->. specialize (Hsw eq_refl). simplify_eq.
      by eapply (enq_nodes_distinct (pool s) t t2).
  - intros t' site old des [Hin|Hin]%elem_of_app.
    + destruct (Glin _ _ _ _ Hin) as (l & Hl & Hlc). exists l. split; [done|].
      destruct Hp as [r ->]. rewrite fmap_app. set_solver.
    + destruct (Hevs _ _ _ _ Hin) as (_ & l & ? & ? & _). eauto.
  - intros k l Hk Hkl.
    destruct (decide (k ≤ j)) as [Hle|Hgt].
    + pose proof (sh_lt _ _ _ _ Sh) as Hlt.
      destruct (chain.*1 !! k) as [l0|] eqn:Hk0;
        [|apply lookup_ge_None in Hk0; rewrite length_fmap in Hk0; lia].
      rewrite (prefix_lookup_fst _ _ _ _ Hp Hk0) in Hkl. simplify_eq.
      destruct (Glex k l ltac:(lia) Hk0) as (t' & site & old & des & Hin & Hd).
      exists t', site, old, des. split; [|done]. apply elem_of_app. by left.
    + destruct Hj as [->|(t' & site & old & des & l' & -> & Hl' & Hin & Hd)]; [lia|].
      assert (k = S j) as -> by lia. simplify_eq.
      exists t', site, old, des. split; [|done]. apply elem_of_app. by right.
Qed.

End Preservation.

Section LocalSteps.
Context {T : Type}.
Implicit Types (w : World T) (f : Frame T) (chain : list (loc * T)).
Implicit Types (th : Thread T) (s : State T) (lg evs : list (Event T)).
Local Arguments cas : simpl never.

Lemma Ext_same chain i j w i' j' w' :
  heap w' = heap w → i ≤ i' → j ≤ j' →
  (i' = i → m_head w' = m_head w) → (j' = j → m_tail w' = m_tail w) →
  Ext chain i j w chain i' j' w'.
Proof. intros Hh ????. split; try done. intros l nd ? _. by rewrite Hh. Qed.

(** A step that changes neither the list nor [head] and [tail]. *)
Lemma GInv_local chain i j s t th w' th' evs :
  GInv chain i j s →
  pool s !! t = Some th →
  heap w' = heap (world s) → m_head w' = m_head (world s) →
  m_tail w' = m_tail (world s) →
  retired (m_hp w') = retired (m_hp (world s)) →
  enq_nodes th' ⊆ enq_nodes th →
  pend_retire th' = pend_retire th →
  linked_vals th' = linked_vals th →
  deq_vals th' = deq_vals th →
  quiet evs →
  LInv chain i j (world s) (log s) t th' →
  GInv chain i j {| world := w'; pool := <[t := th']> (pool s); log := log s ++ evs |}.
Proof.
  intros G Ht Hh Hhd Htl Hr Hn Hp Hl Hd Hq HL.
  assert (Ext chain i j (world s) chain i j w') as E by (by apply Ext_same).
  eapply GInv_step; try done.
  - eapply Shape_frame; [done..|]. apply G.
  - intros n Hin. left. by apply Hn.
  - by left.
  - intros R. by rewrite Hr, Hp.
  - intros R. by rewrite Hl.
  - intros R. by rewrite Hd.
  - eapply LInv_ext; [exact E|done| |done].
    intros n _ HU t' site old des [Hin|Hin]%elem_of_app Hdes; [by eapply HU|].
    by apply Hq in Hin.
  - intros t' site old des Hin. by apply Hq in Hin.
  - by left.
Qed.

Lemma quiet_nil : quiet ([] : list (Event T)).
Proof. intros ???? H. by apply not_elem_of_nil in H. Qed.

Lemma quiet_return t (op : Op T) r : quiet [EvReturn t op r].
Proof. intros ???? H. apply list_elem_of_singleton in H. done. Qed.

Lemma quiet_app evs1 evs2 : quiet evs1 → quiet evs2 → quiet (evs1 ++ evs2).
Proof. intros H1 H2 ???? [H|H]%elem_of_app; [by eapply H1|by eapply H2]. Qed.

Lemma quiet_failed t site sl old des :
  quiet ([EvCas t site sl old des false] : list (Event T)).
Proof. intros ???? H. apply list_elem_of_singleton in H. done. Qed.

Lemma quiet_other t site sl old des ok :
  sl ≠ STail → quiet ([EvCas t site sl old des ok] : list (Event T)).
Proof. intros ? ???? H. apply list_elem_of_singleton in H. congruence. Qed.

Lemma TailSnap_now chain i j w :
  Shape chain i j w → TailSnap chain j w j (m_tail w).
Proof.
  intros Sh. split; [|done].
  pose proof (sh_tail _ _ _ _ Sh) as H. pose proof (sh_lt _ _ _ _ Sh).
  destruct (chain !! j) as [[l v]|] eqn:E; [|by apply lookup_ge_None in E; lia].
  exists l. split; [done|]. by rewrite list_lookup_fmap, E.
Qed.

Lemma HeadSnap_now chain i j w :
  Shape chain i j w → HeadSnap chain i w i (m_head w).
Proof.
  intros Sh. split; [|done].
  pose proof (sh_head _ _ _ _ Sh) as H. pose proof (sh_lt _ _ _ _ Sh).
  pose proof (sh_le _ _ _ _ Sh).
  destruct (chain !! i) as [[l v]|] eqn:E; [|by apply lookup_ge_None in E; lia].
  exists l. split; [done|]. by rewrite list_lookup_fmap, E.
Qed.

Lemma NextOf_load chain i j w k p l nd :
  Shape chain i j w → At chain k p → m_ptr p = Some l → heap w !! l = Some nd →
  NextOf chain k (m_next nd).
Proof.
  intros Sh (l' & Hl' & Hk) Hl Hnd x Hx. simplify_eq.
  destruct (Shape_lookup _ _ _ _ _ _ Sh Hk) as (v & nx & _ & Hh & Hnx).
  simplify_eq/=. by rewrite <- Hnx.
Qed.

Lemma At_heap chain i j w k p :
  Shape chain i j w → At chain k p →
  ∃ l v nx, m_ptr p = Some l ∧ chain !! k = Some (l, v)
            ∧ heap w !! l = Some {| m_value := v; m_next := nx |}
            ∧ m_ptr nx = chain.*1 !! S k.
Proof.
  intros Sh (l & Hl & Hk).
  destruct (Shape_lookup _ _ _ _ _ _ Sh Hk) as (v & nx & ? & ? & ?).
  by exists l, v, nx.
Qed.

Lemma At_inj chain i j w k1 k2 p1 p2 :
  Shape chain i j w → At chain k1 p1 → At chain k2 p2 →
  m_ptr p1 = m_ptr p2 → k1 = k2.
Proof.
  intros Sh (l1 & H1 & Hk1) (l2 & H2 & Hk2) Heq.
  rewrite H1, H2 in Heq. simplify_eq.
  eapply NoDup_lookup; [apply (sh_nodup _ _ _ _ Sh)|done..].
Qed.

End LocalSteps.

Section ThreadSteps.
Context {T : Type}.
Implicit Types (w : World T) (f : Frame T) (chain : list (loc * T)).
Implicit Types (th : Thread T) (s : State T) (lg evs : list (Event T)).
Local Arguments cas : simpl never.

Lemma step_thread_inv t th w w' th' evs :
  step_thread t th w = Some (w', th', evs) →
  (todo th = [] ∧ w' = w ∧ th' = th ∧ evs = []) ∨
  ∃ op rest nx evs0,
    todo th = op :: rest
    ∧ step_frame t (default (entry op) (frame th)) w = Some (w', nx, evs0)
    ∧ match nx with
      | Continue f' => th' = continue_thread th f' ∧ evs = evs0
      | Return r => th' = return_thread th op rest r ∧ evs = evs0 ++ [EvReturn t op r]
      end.
Proof.
  unfold step_thread. destruct (todo th) as [|op rest] eqn:Htodo.
  { intros [= <- <- <-]. by left. }
  intros H. right. exists op, rest.
  destruct (step_frame _ _ _) as [[[w1 nx] evs0]|]; [|done]. simpl in H.
  exists nx, evs0. split; [done|].
  destruct nx; simplify_eq; unfold continue_thread; by rewrite ?Htodo.
Qed.

Lemma cas_inv t site sl expected desired w w' ok evs :
  cas t site sl expected desired w = Some (w', ok, evs) →
  ∃ stored, slot_load sl w = Some stored
    ∧ evs = [EvCas t site sl stored desired ok]
    ∧ ((ok = true ∧ stored = expected ∧ w' = slot_store sl desired w)
       ∨ (ok = false ∧ stored ≠ expected ∧ w' = w)).
Proof.
  unfold cas, CompareExchange. destruct (slot_load sl w) as [stored|]; [|done]. simpl.
  destruct (Pointer_eqb stored expected) eqn:E; intros [= <- <- <-];
    exists stored; (split; [done|]); (split; [done|]).
  - left. by apply Pointer_eqb_eq in E.
  - right. split; [done|]. split; [|done]. intros ->. by rewrite Pointer_eqb_refl in E.
Qed.

Lemma FInv_entry chain i j w lg t op : FInv chain i j w lg t op (entry op).
Proof. by destruct op. Qed.

Lemma LInv_return chain i j w lg t th op rest r :
  LInv chain i j w lg t (return_thread th op rest r).
Proof.
  unfold LInv, return_thread. simpl. destruct rest as [|op' rest]; [done|].
  apply FInv_entry.
Qed.

Lemma LInv_continue chain i j w lg t th op rest f :
  todo th = op :: rest →
  FInv chain i j w lg t op f → LInv chain i j w lg t (continue_thread th f).
Proof. intros H. unfold LInv, continue_thread. simpl. by rewrite H. Qed.

Lemma LInv_frame chain i j w lg t th op rest :
  todo th = op :: rest → LInv chain i j w lg t th →
  FInv chain i j w lg t op (default (entry op) (frame th)).
Proof. intros H. unfold LInv. by rewrite H. Qed.

(** Footprints of a continued thread *)
Lemma enq_nodes_continue th f : enq_nodes (continue_thread th f) = frame_nodes f.
Proof. by rewrite enq_nodes_frame. Qed.

Lemma enq_nodes_return th op rest r : enq_nodes (return_thread th op rest r) = [].
Proof. done. Qed.

Lemma enq_nodes_default th op :
  enq_nodes th = frame_nodes (default (entry op) (frame th)).
Proof.
  rewrite enq_nodes_frame. destruct (frame th); [done|]. simpl.
  by rewrite frame_nodes_entry.
Qed.

Lemma pend_retire_default th op :
  pend_retire th = frame_retire (default (entry op) (frame th)).
Proof. unfold pend_retire. destruct (frame th) as [[]|]; try done. by destruct op. Qed.

Lemma linked_vals_default th op rest :
  todo th = op :: rest →
  linked_vals th
  = flat_map enq_val (results th) ++ frame_linked op (default (entry op) (frame th)).
Proof.
  intros H. unfold linked_vals. rewrite H.
  destruct (frame th) as [[]|]; try done; by destruct op.
Qed.

Lemma deq_vals_default th op :
  deq_vals th
  = flat_map deq_val (results th) ++ frame_deq (default (entry op) (frame th)).
Proof. unfold deq_vals. destruct (frame th) as [[]|]; try done. by destruct op. Qed.

Lemma linked_vals_continue th op rest f :
  todo th = op :: rest →
  linked_vals (continue_thread th f) = flat_map enq_val (results th) ++ frame_linked op f.
Proof. intros H. unfold linked_vals. simpl. rewrite H. by destruct f, op. Qed.

Lemma pend_retire_continue th f : pend_retire (continue_thread th f) = frame_retire f.
Proof. by destruct f. Qed.

Lemma deq_vals_continue th f :
  deq_vals (continue_thread th f) = flat_map deq_val (results th) ++ frame_deq f.
Proof. by destruct f. Qed.

Lemma linked_vals_return th op rest r :
  linked_vals (return_thread th op rest r)
  = flat_map enq_val (results th) ++ enq_val (op, r).
Proof.
  unfold linked_vals. simpl. rewrite flat_map_app. simpl.
  by rewrite !app_nil_r.
Qed.

Lemma deq_vals_return th op rest r :
  deq_vals (return_thread th op rest r)
  = flat_map deq_val (results th) ++ deq_val (op, r).
Proof.
  unfold deq_vals. simpl. rewrite flat_map_app. simpl.
  by rewrite !app_nil_r.
Qed.

Lemma GInv_local_continue chain i j s t th op rest w' f' evs :
  GInv chain i j s →
  pool s !! t = Some th → todo th = op :: rest →
  heap w' = heap (world s) → m_head w' = m_head (world s) →
  m_tail w' = m_tail (world s) →
  retired (m_hp w') = retired (m_hp (world s)) →
  frame_nodes f' ⊆ frame_nodes (default (entry op) (frame th)) →
  frame_retire f' = frame_retire (default (entry op) (frame th)) →
  frame_linked op f' = frame_linked op (default (entry op) (frame th)) →
  frame_deq f' = frame_deq (default (entry op) (frame th)) →
  quiet evs →
  FInv chain i j (world s) (log s) t op f' →
  GInv chain i j {| world := w'; pool := <[t := continue_thread th f']> (pool s);
                    log := log s ++ evs |}.
Proof.
  intros G Ht Htodo ? ? ? ? Hn Hr Hl Hd Hq HF.
  eapply GInv_local; try done.
  - by rewrite enq_nodes_continue, (enq_nodes_default th op).
  - by rewrite pend_retire_continue, (pend_retire_default th op).
  - rewrite (linked_vals_continue _ _ _ _ Htodo), (linked_vals_default th _ _ Htodo).
    by rewrite Hl.
  - by rewrite deq_vals_continue, (deq_vals_default th op), Hd.
  - by eapply LInv_continue.
Qed.

Lemma GInv_local_return chain i j s t th op rest w' r evs :
  GInv chain i j s →
  pool s !! t = Some th → todo th = op :: rest →
  heap w' = heap (world s) → m_head w' = m_head (world s) →
  m_tail w' = m_tail (world s) →
  retired (m_hp w') = retired (m_hp (world s)) →
  frame_retire (default (entry op) (frame th)) = [] →
  frame_linked op (default (entry op) (frame th)) = enq_val (op, r) →
  frame_deq (default (entry op) (frame th)) = deq_val (op, r) →
  quiet evs →
  GInv chain i j {| world := w'; pool := <[t := return_thread th op rest r]> (pool s);
                    log := log s ++ evs |}.
Proof.
  intros G Ht Htodo ? ? ? ? Hr Hl Hd Hq.
  eapply GInv_local; try done.
  - rewrite enq_nodes_return. set_solver.
  - by rewrite (pend_retire_default th op), Hr.
  - by rewrite linked_vals_return, (linked_vals_default th _ _ Htodo), Hl.
  - by rewrite deq_vals_return, (deq_vals_default th op), Hd.
  - apply LInv_return.
Qed.

Lemma enq_nodes_next th op rest nx :
  enq_nodes (next_thread th op rest nx) = next_nodes nx.
Proof. destruct nx; [apply enq_nodes_continue|done]. Qed.

Lemma pend_retire_next th op rest nx :
  pend_retire (next_thread th op rest nx) = next_retire nx.
Proof. destruct nx; [apply pend_retire_continue|done]. Qed.

Lemma linked_vals_next th op rest nx :
  todo th = op :: rest →
  linked_vals (next_thread th op rest nx)
  = flat_map enq_val (results th) ++ next_linked op nx.
Proof.
  intros H. destruct nx; [by eapply linked_vals_continue|apply linked_vals_return].
Qed.

Lemma deq_vals_next th op rest nx :
  deq_vals (next_thread th op rest nx)
  = flat_map deq_val (results th) ++ next_deq op nx.
Proof. destruct nx; [apply deq_vals_continue|apply deq_vals_return]. Qed.

Lemma GInv_step_frame chain i j s t th op rest f w' nx evs0 chain' i' j' :
  GInv chain i j s →
  pool s !! t = Some th → todo th = op :: rest →
  default (entry op) (frame th) = f →
  Ext chain i j (world s) chain' i' j' w' →
  Shape chain' i' j' w' →
  (∀ n, n ∈ next_nodes nx → n ∈ frame_nodes f ∨ heap (world s) !! n = None) →
  (∀ l, l ∈ chain'.*1 → l ∈ chain.*1 ∨ l ∈ frame_nodes f) →
  (∀ R, retired (m_hp (world s)) ++ frame_retire f ++ R ≡ₚ take i chain.*1 →
        retired (m_hp w') ++ next_retire nx ++ R ≡ₚ take i' chain'.*1) →
  (∀ R, frame_linked op f ++ R ≡ₚ (drop 1 chain).*2 →
        next_linked op nx ++ R ≡ₚ (drop 1 chain').*2) →
  (∀ R, frame_deq f ++ R ≡ₚ (take i (drop 1 chain)).*2 →
        next_deq op nx ++ R ≡ₚ (take i' (drop 1 chain')).*2) →
  (∀ f', nx = Continue f' → FInv chain' i' j' w' (log s ++ evs0) t op f') →
  (∀ t' site old des, EvCas t' site STail old des true ∈ evs0 →
     t' = t ∧ ∃ l, m_ptr des = Some l ∧ l ∈ chain'.*1
                   ∧ (site = SwingTail → l ∈ frame_nodes f)) →
  (j' = j ∨ ∃ t' site old des l,
     j' = S j ∧ chain'.*1 !! S j = Some l
     ∧ EvCas t' site STail old des true ∈ evs0 ∧ m_ptr des = Some l) →
  GInv chain' i' j'
    {| world := w'; pool := <[t := next_thread th op rest nx]> (pool s);
       log := log s ++ next_events t op nx evs0 |}.
Proof.
  intros G Ht Htodo Hf E Sh' Hnodes Hchain Hret Hlinked Hdeq HF Hevs Hj.
  assert (∀ t' site old des,
    EvCas t' site STail old des true ∈ next_events t op nx evs0 →
    EvCas t' site STail old des true ∈ evs0) as Hsub.
  { intros ????. destruct nx; simpl; [done|].
    intros [?|Hin]%elem_of_app; [done|]. by apply list_elem_of_singleton in Hin. }
  assert (∀ e, e ∈ evs0 → e ∈ next_events t op nx evs0) as Hsup.
  { intros e He. destruct nx; simpl; [done|]. apply elem_of_app. by left. }
  eapply GInv_step; try done.
  - intros n. rewrite (enq_nodes_default th op), Hf, enq_nodes_next. apply Hnodes.
  - intros l. rewrite (enq_nodes_default th op), Hf. apply Hchain.
  - intros R. rewrite (pend_retire_default th op), Hf, pend_retire_next. apply Hret.
  - intros R. rewrite (linked_vals_default th _ _ Htodo), Hf.
    rewrite (linked_vals_next _ _ _ _ Htodo).
    rewrite <- !app_assoc, !(Permutation_app_swap_app (flat_map _ _)). apply Hlinked.
  - intros R. rewrite (deq_vals_default th op), Hf, deq_vals_next.
    rewrite <- !app_assoc, !(Permutation_app_swap_app (flat_map _ _)). apply Hdeq.
  - destruct nx; simpl; [|apply LInv_return].
    eapply LInv_continue; [done|]. by apply HF.
  - intros t' site old des Hin. apply Hsub in Hin.
    rewrite (enq_nodes_default th op), Hf. apply (Hevs _ _ _ _ Hin).
  - destruct Hj as [?|(t' & site & old & des & l & ? & ? & Hin & ?)]; [by left|].
    right. exists t', site, old, des, l. eauto 10.
Qed.

End ThreadSteps.

Section StepCases.
Context {T : Type}.
Implicit Types (w : World T) (f : Frame T) (chain : list (loc * T)).
Implicit Types (th : Thread T) (s : State T) (lg evs : list (Event T)).
Local Arguments cas : simpl never.

Ltac solve_quiet :=
  let Hin := fresh in
  intros ???? Hin;
  repeat (apply elem_of_cons in Hin as [Hin|Hin]; [done|]);
  by apply not_elem_of_nil in Hin.

Ltac local_continue Hf :=
  cbn [next_thread next_events];
  eapply GInv_local_continue;
    [eassumption | eassumption | eassumption
    | reflexivity | reflexivity | reflexivity | reflexivity
    | cbn [entry] in *; rewrite <- Hf; simpl; try set_solver
    | cbn [entry] in *; rewrite <- Hf; reflexivity
    | cbn [entry] in *; rewrite <- Hf; reflexivity
    | cbn [entry] in *; rewrite <- Hf; reflexivity
    | first [apply quiet_nil | apply quiet_failed | idtac]
    | simpl ].

Lemma GInv_tail chain i j s t th op rest f w' nx site des x :
  GInv chain i j s →
  pool s !! t = Some th → todo th = op :: rest →
  default (entry op) (frame th) = f →
  heap w' = heap (world s) → m_head w' = m_head (world s) → m_tail w' = des →
  retired (m_hp w') = retired (m_hp (world s)) →
  m_ptr des = Some x → chain.*1 !! S j = Some x →
  next_nodes nx ⊆ frame_nodes f →
  next_retire nx = frame_retire f →
  next_linked op nx = frame_linked op f →
  next_deq op nx = frame_deq f →
  (site = SwingTail → x ∈ frame_nodes f) →
  (∀ f', nx = Continue f' →
     FInv chain i (S j) w'
       (log s ++ [EvCas t site STail (m_tail (world s)) des true]) t op f') →
  GInv chain i (S j)
    {| world := w'; pool := <[t := next_thread th op rest nx]> (pool s);
       log := log s ++ next_events t op nx
                [EvCas t site STail (m_tail (world s)) des true] |}.
Proof.
  intros G Ht Htodo Hf Hh Hhd Htl Hr Hdes Hx Hn Hret Hlnk Hdq Hsw HF.
  pose proof (g_shape _ _ _ _ G) as Sh.
  eapply GInv_step_frame; try done.
  - apply Ext_same; try done; lia.
  - eapply (Shape_frame _ _ _ (set_tail des (world s))); [done..|].
    by eapply Shape_tail.
  - intros n Hin. left. by apply Hn.
  - by left.
  - intros R. by rewrite Hr, Hret.
  - intros R. by rewrite Hlnk.
  - intros R. by rewrite Hdq.
  - intros t' site' old des' Hin. apply list_elem_of_singleton in Hin.
    simplify_eq. split; [done|]. exists x. split; [done|]. split; [|done].
    by eapply list_elem_of_lookup_2.
  - right. exists t, site, (m_tail (world s)), des, x.
    repeat (split; [done|]). split; [|done]. by apply list_elem_of_singleton.
Qed.

Lemma take_fst_snoc chain (i : nat) (c : loc * T) :
  i ≤ length chain → take i (chain ++ [c]).*1 = take i chain.*1.
Proof. intros H. rewrite fmap_app, take_app_le; [done|by rewrite length_fmap]. Qed.

Lemma drop1_snoc chain (c : loc * T) :
  0 < length chain → drop 1 (chain ++ [c]) = drop 1 chain ++ [c].
Proof. intros H. by rewrite drop_app_le by lia. Qed.

(** The step adds nothing to the chain and leaves [head] in place. *)
Ltac same_trace :=
  exists [], []; rewrite !app_nil_r; by repeat split.

Lemma step_frame_trace chain i j s t th op rest w' nx evs0 :
  GInv chain i j s →
  pool s !! t = Some th → todo th = op :: rest →
  step_frame t (default (entry op) (frame th)) (world s) = Some (w', nx, evs0) →
  ∃ chain' i' j',
    GInv chain' i' j'
      {| world := w'; pool := <[t := next_thread th op rest nx]> (pool s);
         log := log s ++ next_events t op nx evs0 |}
    ∧ StepTrace chain i chain' i' t op (default (entry op) (frame th)) nx evs0.
Proof.
  intros G Ht Htodo Hstep.
  pose proof (g_shape _ _ _ _ G) as Sh.
  pose proof (LInv_frame _ _ _ _ _ _ _ _ _ Htodo (g_local _ _ _ _ G _ _ Ht)) as HF.
  remember (default (entry op) (frame th)) as f eqn:Hf.
  destruct op as [v|], f; try done; simpl in HF, Hstep.
  - (* EnqNew *)
    simplify_eq. set (n := fresh (dom (heap (world s)))).
    assert (heap (world s) !! n = None) as Hnone.
    { apply not_elem_of_dom. apply is_fresh. }
    exists chain, i, j. split; [|same_trace].
    eapply GInv_step_frame; try done.
    + split; try done. simpl. intros l nd Hl _.
      rewrite lookup_insert_ne; [done|congruence].
    + by apply Shape_alloc.
    + intros n' ->%list_elem_of_singleton. by right.
    + by left.
    + intros f' [= <-]. split; [by eapply Shape_fresh|].
      simpl. by rewrite lookup_insert_eq.
    + intros ???? Hin. by apply not_elem_of_nil in Hin.
    + by left.
  - (* EnqLoadTail *)
    simplify_eq. exists chain, i, j. split; [|same_trace]. local_continue Hf.
    split; [done|]. exists j. by eapply TailSnap_now.
  - (* EnqHazard *)
    simplify_eq. exists chain, i, j. split; [|same_trace]. local_continue Hf. done.
  - (* EnqCheck *)
    destruct (Pointer_neqb tail (m_tail (world s))); simplify_eq;
      exists chain, i, j; (split; [|same_trace]); local_continue Hf;
      [by destruct HF|done].
  - (* EnqLoadNext *)
    destruct HF as (HU & k & HS).
    destruct (At_heap _ _ _ _ _ _ Sh (proj1 HS)) as (l & vl & nxl & Hl & Hk & Hh & Hnx).
    rewrite Hl in Hstep. simpl in Hstep. rewrite Hh in Hstep. simplify_eq/=.
    exists chain, i, j. split; [|same_trace]. local_continue Hf.
    split; [done|]. exists k. split; [done|]. intros x Hx. by rewrite <- Hnx.
  - (* EnqCas *)
    destruct HF as (HU & k & HS & HN).
    destruct (At_heap _ _ _ _ _ _ Sh (proj1 HS)) as (l & vl & nxl & Hl & Hk & Hh & Hnx).
    destruct (m_ptr next) as [x|] eqn:Hx; simpl in Hstep.
    + (* help *)
      destruct (cas _ _ _ _ _ _) as [[[w1 ok] evs]|] eqn:Hcas; [|done].
      simplify_eq/=.
      apply cas_inv in Hcas as (stored & Hld & -> & [(-> & -> & ->)|(-> & Hne & ->)]);
        simplify_eq/=.
      * assert (k = j) as ->.
        { eapply At_inj; [done|apply HS|by eapply TailSnap_now|done]. }
        exists chain, i, (S j). split; [|same_trace].
        eapply (GInv_tail _ _ _ _ _ _ _ _ _ _ (Continue _)); try done;
          [by apply HN|].
        intros f' [= <-]. destruct HU. by split.
      * exists chain, i, j. split; [|same_trace]. local_continue Hf. done.
    + (* link *)
      rewrite Hl in Hstep. simpl in Hstep.
      destruct (cas _ _ _ _ _ _) as [[[w1 ok] evs]|] eqn:Hcas; [|done].
      simplify_eq/=.
      apply cas_inv in Hcas as (stored & Hld & -> & [(-> & -> & ->)|(-> & Hne & ->)]);
        simpl in Hld; rewrite Hh in Hld; simplify_eq/=.
      * rewrite Hx in Hnx. symmetry in Hnx.
        apply lookup_ge_None in Hnx. rewrite length_fmap in Hnx.
        pose proof (sh_lt _ _ _ _ Sh) as Hjlt.
        pose proof (sh_le _ _ _ _ Sh) as Hij.
        destruct HS as (HA & Hkj & Hcur).
        assert (k = j) as -> by lia.
        assert (S j = length chain) as Hlast by lia.
        destruct HU as [Hnc Hnh].
        assert (chain.*1 !! j = Some l) as Hjl by (by rewrite list_lookup_fmap, Hk).
        assert (l ≠ node) as Hln.
        { intros ->. apply Hnc. by eapply list_elem_of_lookup_2. }
        set (w1 := slot_store (SNext l) (bump (Some node) next) (world s)).
        assert (heap w1 = <[l := {| m_value := vl; m_next := bump (Some node) next |}]>
                            (heap (world s))
                ∧ m_head w1 = m_head (world s) ∧ m_tail w1 = m_tail (world s)
                ∧ m_hp w1 = m_hp (world s)) as (Hw1h & Hw1hd & Hw1tl & Hw1hp).
        { subst w1. unfold slot_store. by rewrite Hh. }
        assert (Ext chain i j (world s) (chain ++ [(node, v)]) i j (ReleaseHazard t 0 w1))
          as E.
        { split; try done.
          - by apply prefix_app_r.
          - simpl. rewrite Hw1h. intros l0 nd0 Hl0 Hnot.
            rewrite lookup_insert_ne; [done|]. intros <-. apply Hnot.
            by eapply list_elem_of_lookup_2. }
        exists (chain ++ [(node, v)]), i, j. split.
        2:{ exists [(node, v)], []. rewrite !app_nil_r. repeat split.
            rewrite drop1_snoc by lia. rewrite take_app_le; [done|].
            rewrite length_drop. lia. }
        eapply GInv_step_frame with (nx := Continue _) (w' := ReleaseHazard t 0 w1);
          try done.
        -- apply Shape_ReleaseHazard. subst w1.
           eapply Shape_link; eauto.
        -- intros n' Hn'. by left.
        -- intros l0. rewrite fmap_app. intros [?|Hin]%elem_of_app; [by left|right].
           done.
        -- intros R. simpl. rewrite Hw1hp.
           rewrite take_fst_snoc; [done|]. lia.
        -- intros R. simpl. intros HR. rewrite drop1_snoc by lia.
           rewrite fmap_app. simpl. rewrite HR. apply Permutation_cons_append.
        -- intros R. simpl. rewrite drop1_snoc by lia.
           rewrite take_app_le; [done|]. rewrite length_drop. lia.
        -- intros f' [= <-]. simpl. exists j. split; [|split].
           ++ eapply TailSnap_ext; [exact E|]. by split.
           ++ rewrite Hlast. by rewrite lookup_app_r, Nat.sub_diag by lia.
           ++ intros t' site old des [Hin|Hin]%elem_of_app Hdes.
              ** destruct (g_log_in _ _ _ _ G _ _ _ _ Hin) as (l0 & ? & ?).
                 by simplify_eq.
              ** apply list_elem_of_singleton in Hin. done.
        -- intros t' site old des Hin. apply list_elem_of_singleton in Hin. done.
        -- by left.
      * exists chain, i, j. split; [|same_trace]. local_continue Hf. done.
  - (* EnqSwing *)
    destruct HF as (k & HS & Hk & HUs).
    destruct (cas _ _ _ _ _ _) as [[[w1 ok] evs]|] eqn:Hcas; [|done].
    simplify_eq/=.
    apply cas_inv in Hcas as (stored & Hld & -> & [(-> & -> & ->)|(-> & Hne & ->)]);
      simplify_eq/=.
    + assert (k = j) as ->.
      { eapply At_inj; [done|apply HS|by eapply TailSnap_now|done]. }
      exists chain, i, (S j). split; [|same_trace].
      eapply GInv_tail with (nx := Return _); try done.
      * by rewrite list_lookup_fmap, Hk.
      * simpl. set_solver.
      * intros _. simpl. set_solver.
    + exists chain, i, j. split; [|same_trace]. cbn [next_thread next_events].
      eapply GInv_local_return; try done;
        try (cbn [entry] in *; rewrite <- Hf; reflexivity).
      solve_quiet.
  - (* DeqLoadHead *)
    simplify_eq. exists chain, i, j. split; [|same_trace]. local_continue Hf.
    exists i. by eapply HeadSnap_now.
  - (* DeqHazard *)
    simplify_eq. exists chain, i, j. split; [|same_trace]. local_continue Hf. done.
  - (* DeqCheck *)
    destruct (Pointer_neqb head (m_head (world s))); simplify_eq;
      exists chain, i, j; (split; [|same_trace]); local_continue Hf; done.
  - (* DeqLoadTail *)
    simplify_eq. exists chain, i, j. split; [|same_trace]. local_continue Hf.
    destruct HF as (k & HS). exists k, j. split; [done|].
    split; [by eapply TailSnap_now|].
    destruct HS as (_ & ? & _). pose proof (sh_le _ _ _ _ Sh). lia.
  - (* DeqLoadNext *)
    destruct HF as (k & l & HS & HTS & Hkl).
    destruct (At_heap _ _ _ _ _ _ Sh (proj1 HS)) as (h & vh & nxh & Hh & Hk & Hhh & Hnx).
    rewrite Hh in Hstep. simpl in Hstep. rewrite Hhh in Hstep. simplify_eq/=.
    exists chain, i, j. split; [|same_trace]. local_continue Hf.
    exists k, l. repeat (split; [done|]). intros x Hx. by rewrite <- Hnx.
  - (* DeqHazardNext *)
    simplify_eq. exists chain, i, j. split; [|same_trace]. local_continue Hf. done.
  - (* DeqRecheck *)
    destruct (Pointer_neqb head (m_head (world s))); simplify_eq;
      exists chain, i, j; (split; [|same_trace]); local_continue Hf; done.
  - (* DeqBranch *)
    destruct HF as (k & l & HS & HTS & Hkl & HN).
    destruct (m_ptr next) as [x|] eqn:Hx; simpl in Hstep.
    + destruct (decide (m_ptr head = m_ptr tail)) as [Heq|Hneq].
      * destruct (cas _ _ _ _ _ _) as [[[w1 ok] evs]|] eqn:Hcas; [|done].
        simplify_eq/=.
        apply cas_inv in Hcas as (stored & Hld & -> & [(-> & -> & ->)|(-> & Hne & ->)]);
          simplify_eq/=.
        -- assert (l = j) as ->.
           { eapply At_inj; [done|apply HTS|by eapply TailSnap_now|done]. }
           assert (k = j) as ->.
           { eapply At_inj; [done|apply HS|apply HTS|done]. }
           exists chain, i, (S j). split; [|same_trace].
           eapply GInv_tail with (nx := Continue _); try done; [by apply HN|].
           by intros f' [= <-].
        -- exists chain, i, j. split; [|same_trace]. local_continue Hf. done.
      * assert (k ≠ l) as Hkne.
        { intros ->. destruct HS as ((h1 & Hh1 & Hc1) & _).
          destruct HTS as ((h2 & Hh2 & Hc2) & _). congruence. }
        destruct (Shape_lookup _ _ _ _ _ _ Sh (HN x Hx))
          as (vx & nxx & Hcx & Hhx & _).
        rewrite Hhx in Hstep. simplify_eq/=.
        exists chain, i, j. split; [|same_trace]. local_continue Hf.
        exists k, x. repeat (split; [done|]). destruct HTS as (_ & ? & _). lia.
    + simplify_eq. exists chain, i, j. split; [|same_trace].
      cbn [next_thread next_events].
      eapply GInv_local_return; try done;
        try (cbn [entry] in *; rewrite <- Hf; reflexivity).
      solve_quiet.
  - (* DeqCas *)
    destruct HF as (k & x & HS & Hx & Hk & Hkj).
    destruct (cas _ _ _ _ _ _) as [[[w1 ok] evs]|] eqn:Hcas; [|done].
    simplify_eq/=.
    apply cas_inv in Hcas as (stored & Hld & -> & [(-> & -> & ->)|(-> & Hne & ->)]);
      simplify_eq/=.
    + assert (k = i) as ->.
      { eapply At_inj; [done|apply HS|by eapply HeadSnap_now|done]. }
      destruct HS as ((h & Hh & Hi) & _).
      assert (chain.*1 !! S i = Some x) as Hsi by (by rewrite list_lookup_fmap, Hk).
      rewrite Hx.
      set (w1 := released t (set_head (bump (Some x) (m_head (world s))) (world s))).
      exists chain, (S i), j. split.
      2:{ exists [], [(x, ret)]. rewrite !app_nil_r. repeat split.
          apply take_S_r. by rewrite lookup_drop. }
      eapply GInv_step_frame with (nx := Continue _) (w' := w1); try done.
      * apply Ext_same; try done; lia.
      * subst w1. apply Shape_ReleaseHazard, Shape_ReleaseHazard.
        eapply Shape_head; eauto.
      * simpl. set_solver.
      * by left.
      * intros R. simpl. rewrite Hh. simpl.
        rewrite (take_S_r _ _ _ Hi). intros HR.
        rewrite <- HR, <- Permutation_middle, <- Permutation_cons_append. done.
      * intros R. simpl. intros HR.
        rewrite (take_S_r _ i (x, ret)) by (by rewrite lookup_drop).
        rewrite fmap_app. simpl. rewrite HR. apply Permutation_cons_append.
      * intros f' [= <-]. simpl. exists i, h, x. repeat (split; [done|]).
        split; [lia|done].
      * intros t' site old des Hin. apply list_elem_of_singleton in Hin. done.
      * by left.
    + exists chain, i, j. split; [|same_trace]. local_continue Hf. done.
  - (* DeqRetire *)
    destruct HF as (k & h & x & Hh & Hk & Hki & Hsk).
    rewrite Hh in Hstep. simplify_eq/=.
    exists chain, i, j. split; [|same_trace].
    eapply GInv_step_frame with (nx := Return _) (w' := RetireHazard h (world s))
      (evs0 := [EvRetire t h]);
      try done.
    + by apply Shape_RetireHazard.
    + simpl. set_solver.
    + by left.
    + intros R. simpl. rewrite Hh. simpl. by rewrite <- app_assoc.
    + intros ???? Hin. apply list_elem_of_singleton in Hin. done.
    + by left.
Qed.

Lemma step_frame_GInv chain i j s t th op rest w' nx evs0 :
  GInv chain i j s →
  pool s !! t = Some th → todo th = op :: rest →
  step_frame t (default (entry op) (frame th)) (world s) = Some (w', nx, evs0) →
  ∃ chain' i' j',
    GInv chain' i' j'
      {| world := w'; pool := <[t := next_thread th op rest nx]> (pool s);
         log := log s ++ next_events t op nx evs0 |}.
Proof.
  intros G Ht Htodo Hstep.
  destruct (step_frame_trace _ _ _ _ _ _ _ _ _ _ _ G Ht Htodo Hstep)
    as (chain' & i' & j' & G' & _).
  by exists chain', i', j'.
Qed.

End StepCases.

Section Reachability.
Context {T : Type}.
Implicit Types (w : World T) (f : Frame T) (chain : list (loc * T)).
Implicit Types (th : Thread T) (s : State T) (lg evs : list (Event T)).
Local Arguments cas : simpl never.

Lemma step_inv_shape t s s' :
  step t s = Some s' →
  ∃ th w' th' evs,
    pool s !! t = Some th ∧ step_thread t th (world s) = Some (w', th', evs)
    ∧ s' = {| world := w'; pool := <[t := th']> (pool s); log := log s ++ evs |}.
Proof.
  unfold step. destruct (pool s !! t) as [th|]; [|done]. simpl.
  destruct (step_thread t th (world s)) as [[[w' th'] evs]|] eqn:E; [|done].
  simpl. intros [= <-]. by exists th, w', th', evs.
Qed.

Lemma step_Inv t s s' : Inv s → step t s = Some s' → Inv s'.
Proof.
  intros (chain & i & j & G) (th & w' & th' & evs & Ht & Hst & ->)%step_inv_shape.
  apply step_thread_inv in Hst
    as [(Htodo & -> & -> & ->)|(op & rest & nx & evs0 & Htodo & Hsf & Hnx)].
  - exists chain, i, j. rewrite list_insert_id, app_nil_r by done. by destruct s.
  - destruct (step_frame_GInv _ _ _ _ _ _ _ _ _ _ _ G Ht Htodo Hsf)
      as (chain' & i' & j' & G').
    exists chain', i', j'. by destruct nx; destruct Hnx as [-> ->].
Qed.

Lemma run_Inv sched s s' : Inv s → run sched s = Some s' → Inv s'.
Proof.
  revert s. induction sched as [|t sched IH]; intros s HI; simpl.
  - by intros [= <-].
  - destruct (step t s) as [s1|] eqn:E; [|done]. simpl.
    apply IH. by eapply step_Inv.
Qed.

Lemma gather_spawn {A} (g : Thread T → list A) progs :
  (∀ p, g (spawn p) = []) → gather g (spawn <$> progs) = [].
Proof.
  intros Hg. unfold gather. induction progs as [|p progs IH]; [done|].
  rewrite fmap_cons, bind_cons, IH, Hg. done.
Qed.

Lemma init_Inv (d : T) progs : Inv (init d progs).
Proof.
  set (h := fresh (dom (∅ : gmap loc (Node T)))).
  exists [(h, d)], 0, 0. split; simpl.
  - split; simpl; try done; try lia.
    + apply NoDup_singleton.
    + intros [|k] l v Hk; [|done]. simplify_eq/=.
      exists null_pointer. split; [|done]. apply lookup_singleton_eq.
  - rewrite gather_spawn; [apply NoDup_nil_2|done].
  - rewrite gather_spawn; done.
  - rewrite gather_spawn; done.
  - rewrite gather_spawn; done.
  - intros t th (p & -> & _)%list_lookup_fmap_Some. unfold LInv. simpl.
    destruct p as [|op p]; [done|]. apply FInv_entry.
  - intros ???? H. by apply not_elem_of_nil in H.
  - intros k l Hk. lia.
Qed.

Theorem Reachable_Inv (d : T) s : Reachable d s → Inv s.
Proof. intros (progs & sched & H). eapply run_Inv; [apply init_Inv|done]. Qed.

(** No reachable state faults. *)
Lemma step_frame_safe chain i j w lg t op f :
  Shape chain i j w → FInv chain i j w lg t op f →
  is_Some (step_frame t f w).
Proof.
  intros Sh HF.
  assert (∀ site sl e d (k : World T * bool * list (Event T) → option (World T * Next T * list (Event T))),
    is_Some (slot_load sl w) → (∀ r, is_Some (k r)) →
    is_Some (cas t site sl e d w ≫= k)) as Hcas.
  { intros site sl e d k [p Hp] Hk. unfold cas. rewrite Hp. simpl.
    destruct (CompareExchange p e d). simpl. apply Hk. }
  destruct op, f; try done; simpl in *; unpack; try by eauto.
  - by destruct (Pointer_neqb _ _).
  - destruct (At_heap _ _ _ _ _ _ Sh (proj1 HF)) as (l & vl & nxl & Hl & _ & Hh & _).
    rewrite Hl. simpl. rewrite Hh. by eauto.
  - destruct (At_heap _ _ _ _ _ _ Sh (proj1 H0)) as (l & vl & nxl & Hl & _ & Hh & _).
    destruct (m_ptr next); simpl.
    + apply Hcas; [by eauto|]. intros [[??]?]. by eauto.
    + rewrite Hl. simpl. apply Hcas; [simpl; rewrite Hh; by eauto|].
      intros [[??]?]. by eauto.
  - apply Hcas; [by eauto|]. intros [[??]?]. by eauto.
  - by destruct (Pointer_neqb _ _).
  - destruct (At_heap _ _ _ _ _ _ Sh (proj1 H)) as (l & vl & nxl & Hl & _ & Hh & _).
    rewrite Hl. simpl. rewrite Hh. by eauto.
  - by destruct (Pointer_neqb _ _).
  - destruct (m_ptr next) as [y|] eqn:Hy; [|by eauto].
    destruct (decide _).
    + apply Hcas; [by eauto|]. intros [[??]?]. by eauto.
    + destruct (Shape_lookup _ _ _ _ _ _ Sh (HF y Hy)) as (? & ? & _ & Hh & _).
      rewrite Hh. by eauto.
  - apply Hcas; [by eauto|]. intros [[??]?]. by eauto.
  - rewrite H. by eauto.
Qed.

Theorem step_safe s t :
  Inv s → t < length (pool s) → is_Some (step t s).
Proof.
  intros (chain & i & j & G) Hlt.
  destruct (lookup_lt_is_Some_2 _ _ Hlt) as [th Ht].
  unfold step. rewrite Ht. simpl. unfold step_thread.
  pose proof (g_local _ _ _ _ G _ _ Ht) as HL. unfold LInv in HL.
  destruct (todo th) as [|op rest]; [by eauto|].
  destruct (step_frame_safe _ _ _ _ _ _ _ _ (g_shape _ _ _ _ G) HL) as [[[w' nx] evs] ->].
  simpl. destruct nx; by eauto.
Qed.

End Reachability.

Section Sequential.
Context {T : Type}.
Implicit Types (w : World T) (f : Frame T) (chain : list (loc * T)).
Local Arguments cas : simpl never.

Lemma new_queue_Seq (d : T) :
  Seq [(fresh (dom (∅ : gmap loc (Node T))), d)] 0 (new_queue d).
Proof.
  split; simpl.
  - split; simpl; try done; try lia.
    + apply NoDup_singleton.
    + intros [|k] l v Hk; [|done]. simplify_eq/=.
      exists null_pointer. split; [|done]. apply lookup_singleton_eq.
  - done.
  - rewrite dom_singleton_L. set_solver.
Qed.

Lemma Seq_Enqueue t chain i w v :
  Seq chain i w →
  ∃ w' evs n, Exec 12 t (EnqNew v) w (w', RetVoid, evs)
    ∧ Seq (chain ++ [(n, v)]) i w'
    ∧ m_head w' = m_head w.
Proof.
  intros [Sh Hr Hd].
  destruct (Enqueue_solo t _ _ _ _ v Sh) as (w' & evs & HE & Sh' & Hh & Hr' & _ & Hd').
  exists w', evs, (fresh (dom (heap w))). split; [done|]. split; [|done].
  pose proof (sh_lt _ _ _ _ Sh). pose proof (sh_le _ _ _ _ Sh).
  split.
  - rewrite length_app. simpl. by replace (length chain + 1 - 1) with (length chain) by lia.
  - rewrite Hr', Hr. rewrite fmap_app, take_app_le; [done|]. rewrite length_fmap. lia.
  - rewrite Hd', Hd, fmap_app. simpl. set_solver.
Qed.

Lemma Seq_Dequeue_empty t chain i w :
  Seq chain i w → S i = length chain →
  Exec 8 t DeqLoadHead w
    (released t (AddHazard t 1 None (AddHazard t 0 (m_ptr (m_head w)) w)),
     RetOpt None, [])
  ∧ Seq chain i (released t (AddHazard t 1 None (AddHazard t 0 (m_ptr (m_head w)) w))).
Proof.
  intros [Sh Hr Hd] Hlast. split; [by eapply Dequeue_solo_empty|].
  split; [|done..].
  by apply Shape_ReleaseHazard, Shape_ReleaseHazard, Shape_AddHazard, Shape_AddHazard.
Qed.

Lemma Seq_Dequeue_nonempty t chain i w h vh x v :
  Seq chain i w → chain !! i = Some (h, vh) → chain !! S i = Some (x, v) →
  ∃ w' pre, Exec 18 t DeqLoadHead w
      (w', RetOpt (Some v),
       pre ++ [EvCas t AdvanceHead SHead (m_head w) (bump (Some x) (m_head w)) true;
               EvRetire t h])
    ∧ Seq chain (S i) w'
    ∧ m_head w' = bump (Some x) (m_head w).
Proof.
  intros [Sh Hr Hd] Hi Hsi.
  destruct (Dequeue_solo_nonempty t _ _ _ _ _ _ _ _ Sh Hi Hsi)
    as (w' & pre & HE & Sh' & Hh & Hhd & Hr' & _).
  exists w', pre. split; [done|]. split; [|done].
  pose proof (lookup_lt_Some _ _ _ Hsi).
  split.
  - by replace (length chain - 1) with (max (length chain - 1) (S i)) by lia.
  - rewrite Hr', Hr. symmetry. apply take_S_r. by rewrite list_lookup_fmap, Hi.
  - by rewrite Hh.
Qed.

Lemma run_ops_step n t op ops w w1 r evs :
  Exec n t (entry op) w (w1, r, evs) →
  ∀ fuel, n ≤ fuel →
  run_ops fuel t (op :: ops) w
  = match run_ops fuel t ops w1 with
    | Finished (w2, rs) => Finished (w2, r :: rs)
    | Fault => Fault
    | OutOfFuel => OutOfFuel
    end.
Proof. intros HE fuel Hle. simpl. by rewrite (HE fuel Hle). Qed.

(** Sequential refinement: a thread running alone sees a FIFO queue. *)
Lemma run_ops_fifo t ops chain i w :
  Seq chain i w →
  ∃ chain' i' w',
    (∀ fuel, 18 ≤ fuel →
       run_ops fuel t ops w = Finished (w', (fifo_model ops (queued chain i)).2))
    ∧ Seq chain' i' w'
    ∧ queued chain' i' = (fifo_model ops (queued chain i)).1.
Proof.
  revert chain i w. induction ops as [|[v|] ops IH]; intros chain i w HS.
  - exists chain, i, w. by split.
  - destruct (Seq_Enqueue t _ _ _ v HS) as (w1 & evs & n & HE & HS1 & _).
    destruct (IH _ _ _ HS1) as (chain' & i' & w' & Hrun & HS' & Hq).
    assert (queued (chain ++ [(n, v)]) i = queued chain i ++ [v]) as Hqq.
    { unfold queued. pose proof (sh_le _ _ _ _ (seq_shape _ _ _ HS)).
      pose proof (sh_lt _ _ _ _ (seq_shape _ _ _ HS)).
      rewrite drop_app_le by lia. by rewrite fmap_app. }
    rewrite Hqq in Hrun, Hq.
    exists chain', i', w'. cbn [fifo_model].
    destruct (fifo_model ops (queued chain i ++ [v])) as [q' rs]. cbn [fst snd] in *.
    split; [|done]. intros fuel Hf.
    rewrite (run_ops_step 12 t (OpEnqueue v) ops _ _ _ _ HE) by lia.
    by rewrite Hrun.
  - pose proof (sh_le _ _ _ _ (seq_shape _ _ _ HS)).
    pose proof (sh_lt _ _ _ _ (seq_shape _ _ _ HS)).
    destruct (chain !! i) as [[h vh]|] eqn:Hi; [|apply lookup_ge_None in Hi; lia].
    destruct (chain !! S i) as [[x v]|] eqn:Hsi.
    + destruct (Seq_Dequeue_nonempty t _ _ _ _ _ _ _ HS Hi Hsi)
        as (w1 & pre & HE & HS1 & _).
      destruct (IH _ _ _ HS1) as (chain' & i' & w' & Hrun & HS' & Hq).
      assert (queued chain i = v :: queued chain (S i)) as Hqq.
      { unfold queued. by rewrite (drop_S _ _ _ Hsi). }
      exists chain', i', w'. cbn [fifo_model]. rewrite Hqq.
      destruct (fifo_model ops (queued chain (S i))) as [q' rs]. cbn [fst snd] in *.
      split; [|done]. intros fuel Hf.
      rewrite (run_ops_step 18 t OpDequeue ops _ _ _ _ HE) by lia.
      by rewrite Hrun.
    + apply lookup_ge_None in Hsi.
      destruct (Seq_Dequeue_empty t _ _ _ HS ltac:(lia)) as (HE & HS1).
      destruct (IH _ _ _ HS1) as (chain' & i' & w' & Hrun & HS' & Hq).
      assert (queued chain i = []) as Hqq.
      { unfold queued. by rewrite drop_ge by lia. }
      exists chain', i', w'. cbn [fifo_model]. rewrite Hqq in *.
      destruct (fifo_model ops []) as [q' rs]. cbn [fst snd] in *.
      split; [|done]. intros fuel Hf.
      rewrite (run_ops_step 8 t OpDequeue ops _ _ _ _ HE) by lia.
      by rewrite Hrun.
Qed.

Lemma Destroy_Seq t chain w rounds fuel :
  18 ≤ fuel →
  ∀ i, Seq chain i w → length chain - i ≤ rounds →
  ∃ w' evs, Destroy rounds fuel t w = Finished (w', evs)
    ∧ Seq chain (length chain - 1) w'.
Proof.
  intros Hfuel. revert w. induction rounds as [|rounds IH]; intros w i HS Hr.
  { pose proof (sh_le _ _ _ _ (seq_shape _ _ _ HS)).
    pose proof (sh_lt _ _ _ _ (seq_shape _ _ _ HS)). lia. }
  pose proof (sh_le _ _ _ _ (seq_shape _ _ _ HS)).
  pose proof (sh_lt _ _ _ _ (seq_shape _ _ _ HS)).
  destruct (chain !! i) as [[h vh]|] eqn:Hi; [|apply lookup_ge_None in Hi; lia].
  destruct (chain !! S i) as [[x v]|] eqn:Hsi.
  - destruct (Seq_Dequeue_nonempty t _ _ _ _ _ _ _ HS Hi Hsi)
      as (w1 & pre & HE & HS1 & _).
    destruct (IH w1 (S i) HS1 ltac:(lia)) as (w' & evs & HD & HS').
    eexists w', _. split; [|done]. simpl. unfold Dequeue.
    rewrite (HE fuel) by lia. by rewrite HD.
  - apply lookup_ge_None in Hsi.
    destruct (Seq_Dequeue_empty t _ _ _ HS ltac:(lia)) as (HE & HS1).
    eexists _, _. split.
    + simpl. unfold Dequeue. rewrite (HE fuel) by lia. reflexivity.
    + by replace (length chain - 1) with i by lia.
Qed.

Lemma run_ops_enqueues t (vs : list T) chain i w :
  Seq chain i w →
  ∃ chain' w',
    (∀ fuel, 18 ≤ fuel →
       run_ops fuel t (OpEnqueue <$> vs) w = Finished (w', (λ _, RetVoid) <$> vs))
    ∧ Seq chain' i w'
    ∧ length chain' = length chain + length vs.
Proof.
  revert chain w. induction vs as [|v vs IH]; intros chain w HS.
  - exists chain, w. split; [done|]. split; [done|]. simpl. lia.
  - destruct (Seq_Enqueue t _ _ _ v HS) as (w1 & evs & n & HE & HS1 & _).
    destruct (IH _ _ HS1) as (chain' & w' & Hrun & HS' & Hlen).
    exists chain', w'. split; [|split; [done|]].
    + intros fuel Hf. rewrite fmap_cons.
      rewrite (run_ops_step 12 t (OpEnqueue v) _ _ _ _ _ HE) by lia.
      by rewrite Hrun.
    + rewrite Hlen, length_app. simpl. lia.
Qed.

Lemma Seq_size chain i w : Seq chain i w → size (heap w) = length chain.
Proof.
  intros HS. rewrite <- size_dom, (seq_dom _ _ _ HS).
  rewrite size_list_to_set by apply (sh_nodup _ _ _ _ (seq_shape _ _ _ HS)).
  by rewrite length_fmap.
Qed.

End Sequential.

Section Multisets.
Context {T : Type}.
Implicit Types (w : World T) (f : Frame T) (chain : list (loc * T)).
Implicit Types (th : Thread T) (s : State T) (lg evs : list (Event T)).
Local Arguments cas : simpl never.

Lemma init_Hist (d : T) progs : Hist progs (init d progs).
Proof.
  unfold Hist, init. simpl. induction progs as [|p progs IH]; simpl; [constructor|].
  constructor; [done|apply IH].
Qed.

Lemma step_Hist progs t s s' : Hist progs s → step t s = Some s' → Hist progs s'.
Proof.
  intros H (th & w' & th' & evs & Ht & Hst & ->)%step_inv_shape.
  unfold Hist in *. simpl.
  assert ((results th').*1 ++ todo th' = (results th).*1 ++ todo th) as Heq.
  { apply step_thread_inv in Hst
      as [(Htodo & -> & -> & ->)|(op & rest & nx & evs0 & Htodo & Hsf & Hnx)]; [done|].
    destruct nx; destruct Hnx as [-> ->]; simpl; [done|].
    rewrite Htodo, fmap_app, <- app_assoc. done. }
  apply Forall2_lookup. intros k.
  destruct (decide (k = t)) as [->|Hne].
  - rewrite list_lookup_insert_eq by (by eapply lookup_lt_Some).
    destruct (Forall2_lookup_l _ _ _ _ _ H Ht) as (p & -> & Hp).
    constructor. by rewrite Heq.
  - rewrite list_lookup_insert_ne by done.
    by apply Forall2_lookup.
Qed.

Lemma run_Hist progs sched s s' : Hist progs s → run sched s = Some s' → Hist progs s'.
Proof.
  revert s. induction sched as [|t sched IH]; intros s HI; simpl.
  - by intros [= <-].
  - destruct (step t s) as [s1|] eqn:E; [|done]. simpl.
    apply IH. by eapply step_Hist.
Qed.

Lemma gather_submseteq {A B} (g : Thread T → list A) (h : B → list A) pl (ps : list B) :
  Forall2 (λ th p, g th ⊆+ h p) pl ps → gather g pl ⊆+ ps ≫= h.
Proof.
  unfold gather. induction 1; [done|].
  rewrite !bind_cons. by apply submseteq_app.
Qed.

Lemma gather_ext {A} (g h : Thread T → list A) pl :
  Forall (λ th, g th = h th) pl → gather g pl = gather h pl.
Proof.
  unfold gather. induction 1; [done|]. rewrite !bind_cons. congruence.
Qed.

Lemma gather_eq_bind {A B} (g : Thread T → list A) (h : B → list A) pl (ps : list B) :
  Forall2 (λ th p, g th = h p) pl ps → gather g pl = ps ≫= h.
Proof.
  unfold gather. induction 1; [done|]. rewrite !bind_cons. congruence.
Qed.

Lemma flat_map_enq_val (rs : list (Op T * Ret T)) :
  flat_map enq_val rs = flat_map op_values rs.*1.
Proof. induction rs as [|[op r] rs IH]; [done|]. simpl. by rewrite IH. Qed.

Lemma linked_vals_prog th p chain i j w lg t :
  LInv chain i j w lg t th →
  (results th).*1 ++ todo th = p → linked_vals th ⊆+ flat_map op_values p.
Proof.
  intros HL <-. unfold linked_vals. rewrite flat_map_app, flat_map_enq_val.
  apply submseteq_skips_l.
  destruct (frame th) as [[]|]; try apply submseteq_nil_l.
  destruct (todo th) as [|[v|] rest]; try apply submseteq_nil_l.
  simpl. apply submseteq_skip, submseteq_nil_l.
Qed.

Lemma linked_vals_finished th p chain i j w lg t :
  LInv chain i j w lg t th → todo th = [] →
  (results th).*1 ++ todo th = p → linked_vals th = flat_map op_values p.
Proof.
  intros HL Htodo <-. unfold LInv in HL. rewrite Htodo in *.
  unfold linked_vals. rewrite HL, !app_nil_r. apply flat_map_enq_val.
Qed.

Lemma deq_vals_finished th chain i j w lg t :
  LInv chain i j w lg t th → todo th = [] →
  deq_vals th = flat_map deq_val (results th).
Proof.
  intros HL Htodo. unfold LInv in HL. rewrite Htodo in *.
  unfold deq_vals. by rewrite HL, app_nil_r.
Qed.

Lemma returned_deq_vals s : returned s ⊆+ gather deq_vals (pool s).
Proof.
  unfold returned, gather. induction (pool s) as [|th pl IH]; [done|].
  rewrite !bind_cons. apply submseteq_app; [|done].
  unfold deq_vals. by apply submseteq_inserts_r.
Qed.

Lemma queued_split chain (i : nat) :
  (drop 1 chain).*2 = (take i (drop 1 chain)).*2 ++ queued chain i.
Proof.
  unfold queued. rewrite <- fmap_app. f_equal.
  rewrite <- (take_drop i (drop 1 chain)) at 1. f_equal.
  by rewrite drop_drop.
Qed.

(** Values are neither lost nor duplicated. *)
Lemma GInv_sub chain i j s progs :
  GInv chain i j s → Hist progs s →
  returned s ⊆+ enqueued progs.
Proof.
  intros G H.
  rewrite returned_deq_vals, (g_deq _ _ _ _ G).
  transitivity ((drop 1 chain).*2).
  { rewrite (queued_split chain i). by apply submseteq_inserts_r. }
  rewrite <- (g_linked _ _ _ _ G). unfold enqueued.
  apply gather_submseteq. apply Forall2_lookup. intros k.
  pose proof (proj1 (Forall2_lookup _ _ _) H k) as Hk.
  inversion Hk as [th p Hp Hth Hpk|]; constructor.
  eapply linked_vals_prog; [|done].
  by eapply (g_local _ _ _ _ G k).
Qed.

Lemma GInv_finished chain i j s progs :
  GInv chain i j s → Hist progs s → finished s →
  returned s ++ queued chain i ≡ₚ enqueued progs.
Proof.
  intros G H Hfin.
  assert (returned s = gather deq_vals (pool s)) as ->.
  { unfold returned. apply gather_ext. apply Forall_lookup. intros k th Hk.
    symmetry. eapply deq_vals_finished; [by eapply (g_local _ _ _ _ G k)|].
    by eapply (Forall_lookup_1 _ _ _ _ Hfin). }
  assert (enqueued progs = gather linked_vals (pool s)) as ->.
  { unfold enqueued. symmetry. apply gather_eq_bind. apply Forall2_lookup. intros k.
    pose proof (proj1 (Forall2_lookup _ _ _) H k) as Hk.
    inversion Hk as [th p Hp Hth Hpk|]; constructor.
    eapply linked_vals_finished; [by eapply (g_local _ _ _ _ G k)| |done].
    by eapply (Forall_lookup_1 _ _ _ _ Hfin). }
  by rewrite (g_deq _ _ _ _ G), (g_linked _ _ _ _ G), <- queued_split.
Qed.

End Multisets.

Section Tags.
Context {T : Type}.
Implicit Types (w : World T) (f : Frame T) (chain : list (loc * T)).
Implicit Types (th : Thread T) (s : State T) (lg evs : list (Event T)).
Local Arguments cas : simpl never.

Lemma drain_Shape t chain w (q : list T) :
  ∀ i j, Shape chain i j w → queued chain i = q →
  ∃ w', ∀ fuel, 18 ≤ fuel →
    run_ops fuel t (replicate (S (length q)) OpDequeue) w
    = Finished (w', (RetOpt ∘ Some <$> q) ++ [RetOpt None]).
Proof.
  revert w. induction q as [|v q IH]; intros w i j Sh Hq.
  - assert (S i = length chain) as Hlast.
    { unfold queued in Hq. apply fmap_nil_inv in Hq.
      pose proof (sh_le _ _ _ _ Sh). pose proof (sh_lt _ _ _ _ Sh).
      apply (f_equal length) in Hq. rewrite length_drop in Hq. simpl in Hq. lia. }
    eexists. intros fuel Hf. simpl.
    rewrite (Dequeue_solo_empty t _ _ _ _ Sh Hlast fuel) by lia. reflexivity.
  - pose proof (sh_le _ _ _ _ Sh). pose proof (sh_lt _ _ _ _ Sh).
    destruct (chain !! i) as [[h vh]|] eqn:Hi; [|apply lookup_ge_None in Hi; lia].
    unfold queued in Hq.
    destruct (chain !! S i) as [[x v']|] eqn:Hsi;
      [|apply lookup_ge_None in Hsi; rewrite drop_ge in Hq by lia; done].
    rewrite (drop_S _ _ _ Hsi) in Hq. simpl in Hq. simplify_eq.
    destruct (Dequeue_solo_nonempty t _ _ _ _ _ _ _ _ Sh Hi Hsi)
      as (w1 & pre & HE & Sh1 & _).
    destruct (IH w1 (S i) _ Sh1 eq_refl) as (w' & Hrun).
    exists w'. intros fuel Hf.
    cbn [replicate length].
    rewrite (run_ops_step 18 t OpDequeue _ _ _ _ _ HE) by lia.
    rewrite Hrun by done. reflexivity.
Qed.

(** The values that the [Dequeue] calls have returned are among the
    enqueued ones; once every call has returned, they and the values still
    in the queue are the enqueued ones. *)
Lemma returned_are_enqueued (d : T) progs sched s :
  run sched (init d progs) = Some s →
  returned s ⊆+ enqueued progs
  ∧ (finished s →
     ∃ rest, returned s ++ rest ≡ₚ enqueued progs
       ∧ ∀ t, ∃ w', ∀ fuel, 18 ≤ fuel →
           run_ops fuel t (replicate (S (length rest)) OpDequeue) (world s)
           = Finished (w', (RetOpt ∘ Some <$> rest) ++ [RetOpt None])).
Proof.
  intros Hrun.
  destruct (run_Inv _ _ _ (init_Inv d progs) Hrun) as (chain & i & j & G).
  pose proof (run_Hist _ _ _ _ (init_Hist d progs) Hrun) as H.
  split; [by eapply GInv_sub|].
  intros Hfin. exists (queued chain i). split; [by eapply GInv_finished|].
  intros t. by eapply drain_Shape; [apply G|].
Qed.

Lemma wrap_succ_neq (c : Z) : wrap (c + 1) ≠ c.
Proof.
  unfold wrap, word_modulus. intros H.
  pose proof (Z.mod_pos_bound (c + 1) (2 ^ 64) ltac:(lia)) as Hb.
  destruct (decide (c + 1 < 2 ^ 64)%Z).
  - rewrite Z.mod_small in H by lia. lia.
  - assert (c + 1 = 2 ^ 64)%Z as Heq by lia.
    rewrite Heq, Z.mod_same in H by lia. lia.
Qed.

Lemma wrap_succ_lt (c : Z) : (c < word_modulus - 1 → c < wrap (c + 1))%Z.
Proof.
  unfold wrap, word_modulus. intros H.
  pose proof (Z.mod_pos_bound (c + 1) (2 ^ 64) ltac:(lia)) as Hb.
  destruct (decide (0 ≤ c + 1)%Z).
  - rewrite Z.mod_small by lia. lia.
  - lia.
Qed.

Lemma slot_load_store sl (p : Pointer) w :
  is_Some (slot_load sl w) → slot_load sl (slot_store sl p w) = Some p.
Proof.
  destruct sl as [| |l]; simpl; try done.
  intros [q Hq]. destruct (heap w !! l) as [nd|] eqn:E; [|done]. simpl.
  by rewrite lookup_insert_eq.
Qed.

Lemma slot_load_hp sl c w : slot_load sl (set_hp c w) = slot_load sl w.
Proof. by destruct sl. Qed.

Lemma cas_event t site sl e d w w1 ok evs t' site' sl' old des :
  cas t site sl e d w = Some (w1, ok, evs) →
  EvCas t' site' sl' old des true ∈ evs →
  t' = t ∧ site' = site ∧ sl' = sl ∧ old = e ∧ des = d
  ∧ slot_load sl w = Some old ∧ slot_load sl w1 = Some des.
Proof.
  intros (stored & Hld & -> & Hcase)%cas_inv Hin.
  apply list_elem_of_singleton in Hin. simplify_eq.
  destruct Hcase as [(_ & -> & ->)|(? & _)]; [|done].
  repeat (split; [done|]). apply slot_load_store. eauto.
Qed.

(** Every successful exchange of a step: what it replaces, what it
    installs, and where. *)
Lemma step_frame_cas t f w w' nx evs t' site sl old des :
  step_frame t f w = Some (w', nx, evs) →
  EvCas t' site sl old des true ∈ evs →
  t' = t ∧ site_slot site sl
  ∧ slot_load sl w = Some old ∧ slot_load sl w' = Some des
  ∧ m_count des = wrap (m_count old + 1).
Proof.
  intros Hstep Hin.
  destruct f;
    repeat (simpl in Hstep; match type of Hstep with
    | (if ?c then _ else _) = _ => destruct c
    | (match m_ptr ?p with _ => _ end) = _ => destruct (m_ptr p) eqn:?
    | (cas ?a ?b ?c ?d ?e ?g ≫= _) = _ =>
        destruct (cas a b c d e g) as [[[??]?]|] eqn:?
    | (m_ptr ?p ≫= _) = _ => destruct (m_ptr p) eqn:?
    | ((?h !! ?k) ≫= _) = _ => destruct (h !! k) eqn:?
    end); simplify_eq/=;
    try (by apply not_elem_of_nil in Hin);
    try (match goal with H : cas _ _ _ _ _ _ = Some _ |- _ =>
           destruct (cas_event _ _ _ _ _ _ _ _ _ _ _ _ _ _ H Hin)
             as (-> & -> & -> & -> & -> & Hold & Hnew) end;
         rewrite ?slot_load_hp; unfold ReleaseHazard; rewrite ?slot_load_hp;
         by repeat split).
  apply list_elem_of_singleton in Hin. done.
Qed.

(** C3, as amended. Every successful compare-exchange of a step replaces
    the value [old] stored in its slot by [des], whose tag is the tag of
    [old] plus one modulo [2^64]: it differs from the tag of [old], and it
    is strictly greater unless the tag of [old] is [2^64 - 1]. *)
Theorem cas_bumps_tag t f w w' nx evs t' site sl old des :
  step_frame t f w = Some (w', nx, evs) →
  EvCas t' site sl old des true ∈ evs →
  slot_load sl w = Some old ∧ slot_load sl w' = Some des
  ∧ m_count des = wrap (m_count old + 1)
  ∧ m_count des ≠ m_count old
  ∧ (m_count old < word_modulus - 1 → m_count old < m_count des)%Z.
Proof.
  intros Hstep Hin.
  destruct (step_frame_cas _ _ _ _ _ _ _ _ _ _ _ Hstep Hin) as (_ & _ & ? & ? & Hc).
  repeat (split; [done|]). rewrite Hc. split.
  - apply wrap_succ_neq.
  - apply wrap_succ_lt.
Qed.

End Tags.

Section SoloClaims.
Context {T : Type}.
Implicit Types (w : World T) (f : Frame T) (chain : list (loc * T)).
Implicit Types (th : Thread T) (s : State T) (lg evs : list (Event T)).
Local Arguments cas : simpl never.

Lemma Reachable_Shape (d : T) s :
  Reachable d s → ∃ chain i j, Shape chain i j (world s).
Proof. intros (chain & i & j & G)%Reachable_Inv. exists chain, i, j. apply G. Qed.

Lemma Shape_head_node chain i j w :
  Shape chain i j w →
  ∃ h vh nd, chain !! i = Some (h, vh) ∧ m_ptr (m_head w) = Some h
    ∧ heap w !! h = Some nd ∧ m_value nd = vh
    ∧ m_ptr (m_next nd) = chain.*1 !! S i.
Proof.
  intros Sh. destruct (HeadSnap_now _ _ _ _ Sh) as (HA & _).
  destruct (At_heap _ _ _ _ _ _ Sh HA) as (h & vh & nx & ? & ? & ? & ?).
  by exists h, vh, {| m_value := vh; m_next := nx |}.
Qed.

(** C5. In every reachable state a [Dequeue] that runs without
    interference returns the empty optional when the [next] of the node at
    [head] is null, and a present optional, which holds the value of the
    node that this [next] denotes, when it is not.  The queue is not empty
    after an [Enqueue]: a [Dequeue] that follows one returns a present
    optional.  The call returns normally in every case, and no step of any
    thread is undefined. *)
Theorem dequeue_empty_or_present (d : T) s t :
  Reachable d s →
  (∃ h nd, m_ptr (m_head (world s)) = Some h ∧ heap (world s) !! h = Some nd
    ∧ match m_ptr (m_next nd) with
      | None =>
          ∃ w', ∀ fuel, 8 ≤ fuel →
            Dequeue fuel t (world s) = Finished (w', RetOpt None, [])
      | Some x =>
          ∃ ndx w' evs, heap (world s) !! x = Some ndx ∧ ∀ fuel, 18 ≤ fuel →
            Dequeue fuel t (world s) = Finished (w', RetOpt (Some (m_value ndx)), evs)
      end)
  ∧ (∀ v, ∃ w1 evs1 w2 v' evs2,
       (∀ fuel, 12 ≤ fuel → Enqueue fuel t v (world s) = Finished (w1, RetVoid, evs1))
       ∧ (∀ fuel, 18 ≤ fuel → Dequeue fuel t w1 = Finished (w2, RetOpt (Some v'), evs2)))
  ∧ (∀ t', t' < length (pool s) → is_Some (step t' s)).
Proof.
  intros HR.
  split; [|split; [|intros t' Ht'; apply step_safe; [by eapply Reachable_Inv|done]]].
  - destruct (Reachable_Shape _ _ HR) as (chain & i & j & Sh).
    destruct (Shape_head_node _ _ _ _ Sh) as (h & vh & nd & Hi & Hh & Hnd & _ & Hnx).
    exists h, nd. split; [done|]. split; [done|]. rewrite Hnx.
    destruct (chain.*1 !! S i) as [x|] eqn:Hsi.
    + rewrite list_lookup_fmap in Hsi.
      destruct (chain !! S i) as [[x' v]|] eqn:Hsi'; simplify_eq/=.
      destruct (sh_links _ _ _ _ Sh _ _ _ Hsi') as (nx & Hx & _).
      destruct (Dequeue_solo_nonempty t _ _ _ _ _ _ _ _ Sh Hi Hsi')
        as (w' & pre & HE & _).
      eexists _, w', _. split; [exact Hx|]. exact HE.
    + apply lookup_ge_None in Hsi. rewrite length_fmap in Hsi.
      pose proof (lookup_lt_Some _ _ _ Hi).
      eexists. apply (Dequeue_solo_empty t _ _ _ _ Sh). lia.
  - intros v.
    destruct (Reachable_Shape _ _ HR) as (chain & i & j & Sh).
    pose proof (sh_le _ _ _ _ Sh). pose proof (sh_lt _ _ _ _ Sh).
    destruct (Enqueue_solo t _ _ _ _ v Sh) as (w1 & evs1 & HE & Sh1 & _).
    set (chain1 := chain ++ [(fresh (dom (heap (world s))), v)]) in *.
    assert (length chain1 = S (length chain)) as Hlen
      by (subst chain1; rewrite length_app; simpl; lia).
    destruct (chain1 !! i) as [[h vh]|] eqn:Hi; [|apply lookup_ge_None in Hi; lia].
    destruct (chain1 !! S i) as [[x v']|] eqn:Hsi; [|apply lookup_ge_None in Hsi; lia].
    destruct (Dequeue_solo_nonempty t _ _ _ _ _ _ _ _ Sh1 Hi Hsi)
      as (w2 & pre & HD & _).
    eexists w1, evs1, w2, v', _. split; [exact HE|exact HD].
Qed.

Lemma replicate_dequeue_empty t chain i j w n :
  Shape chain i j w → S i = length chain →
  ∃ w', (∀ fuel, 8 ≤ fuel →
           run_ops fuel t (replicate n OpDequeue) w
           = Finished (w', replicate n (RetOpt None)))
    ∧ heap w' = heap w ∧ m_head w' = m_head w ∧ m_tail w' = m_tail w
    ∧ retired (m_hp w') = retired (m_hp w).
Proof.
  intros Sh Hlast. revert w Sh. induction n as [|n IH]; intros w Sh.
  { exists w. by split. }
  pose proof (Dequeue_solo_empty t _ _ _ _ Sh Hlast) as HE.
  set (w1 := released t (AddHazard t 1 None (AddHazard t 0 (m_ptr (m_head w)) w))) in *.
  destruct (IH w1) as (w' & Hrun & Hh & Hhd & Htl & Hr).
  { subst w1.
    by apply Shape_ReleaseHazard, Shape_ReleaseHazard, Shape_AddHazard, Shape_AddHazard. }
  exists w'. split; [|by rewrite Hh, Hhd, Htl, Hr].
  intros fuel Hf. cbn [replicate].
  rewrite (run_ops_step 8 t OpDequeue _ _ _ _ _ HE) by lia.
  by rewrite Hrun.
Qed.

(** C4. In every reachable state [head] denotes a node [h] whose value is
    not what [Dequeue] returns: when [h] has a successor [x], a [Dequeue]
    that runs without interference returns the value stored in [x], which
    is not [h], and makes [x] the new [head]; when it has none, any number
    of [Dequeue] calls return the empty optional and leave [head] in
    place. *)
Theorem head_is_sentinel (d : T) s t :
  Reachable d s →
  ∃ h nd, m_ptr (m_head (world s)) = Some h ∧ heap (world s) !! h = Some nd
    ∧ match m_ptr (m_next nd) with
      | Some x =>
          ∃ ndx w' evs,
            x ≠ h ∧ heap (world s) !! x = Some ndx
            ∧ (∀ fuel, 18 ≤ fuel →
                 Dequeue fuel t (world s)
                 = Finished (w', RetOpt (Some (m_value ndx)), evs))
            ∧ m_ptr (m_head w') = Some x
      | None =>
          ∀ n, ∃ w',
            (∀ fuel, 8 ≤ fuel →
               run_ops fuel t (replicate n OpDequeue) (world s)
               = Finished (w', replicate n (RetOpt None)))
            ∧ m_head w' = m_head (world s)
      end.
Proof.
  intros (chain & i & j & Sh)%Reachable_Shape.
  destruct (Shape_head_node _ _ _ _ Sh) as (h & vh & nd & Hi & Hh & Hnd & _ & Hnx).
  exists h, nd. split; [done|]. split; [done|]. rewrite Hnx.
  destruct (chain.*1 !! S i) as [x|] eqn:Hsi.
  - destruct (Shape_lookup _ _ _ _ _ _ Sh Hsi) as (v & nxx & Hsi' & Hhx & _).
    destruct (Dequeue_solo_nonempty t _ _ _ _ _ _ _ _ Sh Hi Hsi')
      as (w' & pre & HE & _ & _ & Hhd & _).
    eexists _, w', _. split; [|split; [exact Hhx|split; [exact HE|by rewrite Hhd]]].
    intros ->. assert (S i = i); [|lia].
    eapply NoDup_lookup; [apply (sh_nodup _ _ _ _ Sh)|done|].
    by rewrite list_lookup_fmap, Hi.
  - apply lookup_ge_None in Hsi. rewrite length_fmap in Hsi.
    pose proof (lookup_lt_Some _ _ _ Hi). intros n.
    destruct (replicate_dequeue_empty t _ _ _ _ n Sh ltac:(lia))
      as (w' & Hrun & _ & Hhd & _).
    by exists w'.
Qed.

End SoloClaims.

Section Retirement.
Context {T : Type}.
Implicit Types (w : World T) (f : Frame T) (chain : list (loc * T)).
Implicit Types (th : Thread T) (s : State T) (lg evs : list (Event T)).
Local Arguments cas : simpl never.

Lemma slot_store_hp sl (p : Pointer) w : m_hp (slot_store sl p w) = m_hp w.
Proof. destruct sl as [| |l]; simpl; try done. by destruct (heap w !! l). Qed.

Lemma cas_hp t site sl e d w w1 ok evs :
  cas t site sl e d w = Some (w1, ok, evs) → m_hp w1 = m_hp w.
Proof.
  intros (stored & _ & _ & [(_ & _ & ->)|(_ & _ & ->)])%cas_inv; [|done].
  apply slot_store_hp.
Qed.

(** Only the last step of a successful [Dequeue] retires a node or returns
    a value. *)
Lemma step_frame_quiet t f w w' nx evs :
  step_frame t f w = Some (w', nx, evs) →
  (∀ hd ret, f ≠ DeqRetire hd ret) →
  retired (m_hp w') = retired (m_hp w)
  ∧ (∀ v, nx ≠ Return (RetOpt (Some v)))
  ∧ (∀ t' h, EvRetire t' h ∉ evs).
Proof.
  intros Hstep Hf.
  destruct f; try (by edestruct Hf);
    repeat (simpl in Hstep; match type of Hstep with
    | (if ?c then _ else _) = _ => destruct c
    | (match m_ptr ?p with _ => _ end) = _ => destruct (m_ptr p) eqn:?
    | (cas ?a ?b ?c ?d ?e ?g ≫= _) = _ =>
        destruct (cas a b c d e g) as [[[??]?]|] eqn:?
    | (m_ptr ?p ≫= _) = _ => destruct (m_ptr p) eqn:?
    | ((?h !! ?k) ≫= _) = _ => destruct (h !! k) eqn:?
    end); simplify_eq/=;
    try match goal with H : cas _ _ _ _ _ _ = Some _ |- _ =>
      pose proof (cas_hp _ _ _ _ _ _ _ _ _ H) as ->;
      apply cas_inv in H as (? & _ & -> & _) end;
    (split; [done|]); (split; [by destruct b || done|]);
    intros t' h Hin;
    repeat (apply elem_of_cons in Hin as [Hin|Hin]; [done|]);
    by apply not_elem_of_nil in Hin.
Qed.

Lemma step_frame_no_return t f w w' nx evs :
  step_frame t f w = Some (w', nx, evs) → ∀ t' op r, EvReturn t' op r ∉ evs.
Proof.
  intros Hstep.
  destruct f;
    repeat (simpl in Hstep; match type of Hstep with
    | (if ?c then _ else _) = _ => destruct c
    | (match m_ptr ?p with _ => _ end) = _ => destruct (m_ptr p) eqn:?
    | (cas ?a ?b ?c ?d ?e ?g ≫= _) = _ =>
        destruct (cas a b c d e g) as [[[??]?]|] eqn:?
    | (m_ptr ?p ≫= _) = _ => destruct (m_ptr p) eqn:?
    | ((?h !! ?k) ≫= _) = _ => destruct (h !! k) eqn:?
    end); simplify_eq/=;
    try match goal with H : cas _ _ _ _ _ _ = Some _ |- _ =>
      apply cas_inv in H as (? & _ & -> & _) end;
    intros t' op r Hin;
    repeat (apply elem_of_cons in Hin as [Hin|Hin]; [done|]);
    by apply not_elem_of_nil in Hin.
Qed.

Lemma step_unfold t s th op rest :
  pool s !! t = Some th → todo th = op :: rest →
  step t s =
  '(w', nx, evs) ← step_frame t (default (entry op) (frame th)) (world s);
  Some {| world := w';
          pool := <[t := next_thread th op rest nx]> (pool s);
          log := log s ++ next_events t op nx evs |}.
Proof.
  intros Ht Htodo. unfold step, step_thread. rewrite Ht. simpl. rewrite Htodo.
  destruct (step_frame _ _ _) as [[[w' nx] evs]|]; [|done]. simpl.
  destruct nx; simpl; unfold continue_thread, return_thread; by rewrite ?Htodo.
Qed.

Lemma frame_dequeue chain i j w lg t th f :
  LInv chain i j w lg t th → frame th = Some f →
  match f with
  | DeqLoadHead | DeqHazard _ | DeqCheck _ | DeqLoadTail _ | DeqLoadNext _ _
  | DeqHazardNext _ _ _ | DeqRecheck _ _ _ | DeqBranch _ _ _ | DeqCas _ _ _
  | DeqRetire _ _ =>
      ∃ rest, todo th = OpDequeue :: rest ∧ FInv chain i j w lg t OpDequeue f
  | _ => ∃ v rest, todo th = OpEnqueue v :: rest ∧ FInv chain i j w lg t (OpEnqueue v) f
  end.
Proof.
  unfold LInv. intros HL Hf. rewrite Hf in HL.
  destruct (todo th) as [|[v|] rest]; [done|..]; simpl in HL;
    destruct f; try done; eauto.
Qed.

(** C6. For any step of a thread in a reachable state: (1) when the
    exchange of line 136 succeeds, the node [x] whose value the call is
    going to return becomes [head], nothing is retired yet, and the thread
    moves on to line 140 with the old head; (2) the step of line 140 retires
    exactly that old head [h], which was not retired before and is no longer
    [head], and returns the value; (3) no other step retires a node or
    returns a value from [Dequeue]. *)
Theorem dequeue_retires_old_head (d : T) s t th s' :
  Reachable d s → pool s !! t = Some th → step t s = Some s' →
  (∀ hd nx ret,
     frame th = Some (DeqCas hd nx ret) → m_head (world s) = hd →
     ∃ h x ndx,
       m_ptr hd = Some h ∧ m_ptr nx = Some x ∧ h ≠ x
       ∧ heap (world s) !! x = Some ndx ∧ m_value ndx = ret
       ∧ m_ptr (m_head (world s')) = Some x
       ∧ retired (m_hp (world s')) = retired (m_hp (world s))
       ∧ (frame <$> pool s' !! t) = Some (Some (DeqRetire hd ret)))
  ∧ (∀ hd ret,
     frame th = Some (DeqRetire hd ret) →
     ∃ h, m_ptr hd = Some h
       ∧ (h ∉ retired (m_hp (world s)))
       ∧ m_ptr (m_head (world s)) ≠ Some h
       ∧ retired (m_hp (world s')) = retired (m_hp (world s)) ++ [h]
       ∧ log s' = log s ++ [EvRetire t h; EvReturn t OpDequeue (RetOpt (Some ret))])
  ∧ ((∀ hd ret, frame th ≠ Some (DeqRetire hd ret)) →
     retired (m_hp (world s')) = retired (m_hp (world s))
     ∧ ∀ v, EvReturn t OpDequeue (RetOpt (Some v)) ∉ drop (length (log s)) (log s')).
Proof.
  intros (chain & i & j & G)%Reachable_Inv Ht Hstep.
  pose proof (g_shape _ _ _ _ G) as Sh.
  pose proof (g_local _ _ _ _ G _ _ Ht) as HL.
  split; [|split].
  - intros hd nx ret Hf Hhd.
    destruct (frame_dequeue _ _ _ _ _ _ _ _ HL Hf) as (rest & Htodo & HF).
    destruct HF as (k & x & HS & Hx & Hk & Hkj).
    assert (k = i) as ->.
    { eapply At_inj; [done|apply HS|by eapply HeadSnap_now|by rewrite Hhd]. }
    destruct (At_heap _ _ _ _ _ _ Sh (proj1 HS)) as (h & vh & nxh & Hh & Hi & _).
    assert (chain.*1 !! S i = Some x) as Hsi by (by rewrite list_lookup_fmap, Hk).
    destruct (Shape_lookup _ _ _ _ _ _ Sh Hsi) as (v & nxx & Hk' & Hhx & _).
    rewrite Hk in Hk'. simplify_eq.
    rewrite (step_unfold _ _ _ _ _ Ht Htodo), Hf in Hstep. simpl in Hstep.
    rewrite cas_success in Hstep by done. simpl in Hstep. simplify_eq/=.
    exists h, x, {| m_value := v; m_next := nxx |}.
    repeat (split; [done|]). split.
    { intros ->. assert (i = S i); [|lia].
      eapply NoDup_lookup; [apply (sh_nodup _ _ _ _ Sh)| |done].
      by rewrite list_lookup_fmap, Hi. }
    repeat (split; [done|]).
    by rewrite list_lookup_insert_eq by (by eapply lookup_lt_Some).
  - intros hd ret Hf.
    destruct (frame_dequeue _ _ _ _ _ _ _ _ HL Hf) as (rest & Htodo & HF).
    destruct HF as (k & h & x & Hh & Hk & Hki & Hsk).
    rewrite (step_unfold _ _ _ _ _ Ht Htodo), Hf in Hstep. simpl in Hstep.
    rewrite Hh in Hstep. simpl in Hstep. simplify_eq/=.
    exists h. split; [done|]. split; [|split; [|done]].
    + pose proof (g_retired _ _ _ _ G) as Hr.
      assert (NoDup (take i chain.*1)) as ND.
      { eapply sublist_NoDup; [apply (sh_nodup _ _ _ _ Sh)|apply sublist_take]. }
      rewrite <- Hr in ND. apply NoDup_app in ND as (_ & Hdisj & _).
      intros Hin. apply (Hdisj _ Hin). unfold gather. apply list_elem_of_bind.
      exists th. split; [|by eapply list_elem_of_lookup_2].
      unfold pend_retire. rewrite Hf, Hh. simpl. by apply list_elem_of_singleton.
    + destruct (Shape_head_node _ _ _ _ Sh) as (h' & vh & nd & Hi & Hhd & _).
      rewrite Hhd. intros [= ->]. assert (i = k); [|lia].
      eapply NoDup_lookup; [apply (sh_nodup _ _ _ _ Sh)| |done].
      by rewrite list_lookup_fmap, Hi.
  - intros Hf.
    unfold LInv in HL. unfold step, step_thread in Hstep. rewrite Ht in Hstep.
    simpl in Hstep.
    destruct (todo th) as [|op rest] eqn:Htodo.
    { simplify_eq/=. split; [done|]. intros v.
      rewrite app_nil_r, drop_all. apply not_elem_of_nil. }
    destruct (step_frame _ _ _) as [[[w' nx] evs]|] eqn:Hsf; [|done].
    pose proof (step_frame_no_return _ _ _ _ _ _ Hsf) as Hno.
    apply step_frame_quiet in Hsf as (Hr & Hnx & Hev).
    2:{ intros hd ret Heq. destruct (frame th) as [f|] eqn:Hfr; simpl in Heq.
        - subst f. by eapply Hf.
        - by destruct op. }
    simpl in Hstep.
    destruct nx as [f'|r]; simplify_eq/=; (split; [done|]); intros v;
      rewrite drop_app_length.
    + by eapply Hno.
    + intros [Hin|Hin]%elem_of_app; [by eapply Hno|].
      apply list_elem_of_singleton in Hin. simplify_eq. by eapply Hnx.
Qed.

(** The step that returns the empty optional. *)
Lemma step_frame_return_none t f w w' evs :
  step_frame t f w = Some (w', Return (RetOpt None), evs) →
  evs = []
  ∧ heap w' = heap w ∧ m_head w' = m_head w ∧ m_tail w' = m_tail w
  ∧ retired (m_hp w') = retired (m_hp w).
Proof.
  intros Hstep.
  destruct f;
    repeat (simpl in Hstep; match type of Hstep with
    | (if ?c then _ else _) = _ => destruct c
    | (match m_ptr ?p with _ => _ end) = _ => destruct (m_ptr p) eqn:?
    | (cas ?a ?b ?c ?d ?e ?g ≫= _) = _ =>
        destruct (cas a b c d e g) as [[[??]?]|] eqn:?
    | (m_ptr ?p ≫= _) = _ => destruct (m_ptr p) eqn:?
    | ((?h !! ?k) ≫= _) = _ => destruct (h !! k) eqn:?
    end); by simplify_eq/=.
Qed.

End Retirement.

Section TailClaims.
Context {T : Type}.
Implicit Types (w : World T) (f : Frame T) (chain : list (loc * T)).
Implicit Types (th : Thread T) (s : State T) (lg evs : list (Event T)).
Local Arguments cas : simpl never.

Lemma step_LogSites t s s' : LogSites s → step t s = Some s' → LogSites s'.
Proof.
  intros HL (th & w' & th' & evs & Ht & Hst & ->)%step_inv_shape.
  intros t' site sl old des [Hin|Hin]%elem_of_app; [by eapply HL|].
  apply step_thread_inv in Hst
    as [(Htodo & -> & -> & ->)|(op & rest & nx & evs0 & Htodo & Hsf & Hnx)].
  { by apply not_elem_of_nil in Hin. }
  assert (EvCas t' site sl old des true ∈ evs0) as Hin0.
  { destruct nx; destruct Hnx as [_ ->]; [done|].
    apply elem_of_app in Hin as [?|Hin]; [done|].
    by apply list_elem_of_singleton in Hin. }
  by destruct (step_frame_cas _ _ _ _ _ _ _ _ _ _ _ Hsf Hin0) as (_ & ? & _).
Qed.

Lemma Reachable_LogSites (d : T) s : Reachable d s → LogSites s.
Proof.
  intros (progs & sched & Hrun).
  assert (LogSites (init d progs)) as H0.
  { intros ????? Hin. by apply not_elem_of_nil in Hin. }
  revert Hrun H0. generalize (init d progs). induction sched as [|t sched IH];
    intros s0; simpl.
  - by intros [= <-].
  - destruct (step t s0) as [s1|] eqn:E; [|done]. simpl.
    intros Hrun H0. eapply IH; [done|]. by eapply step_LogSites.
Qed.

(** C7, as amended. (1) Line 100 is one compare-exchange on [tail] towards
    the new node followed by the return, whether the exchange succeeds or
    not. (2) In every reachable state the node at [tail] is the last node of
    the list or the one before it. (3) While a thread is at line 100, its
    node is linked behind its snapshot of [tail]; and if [tail] is not that
    snapshot any more, so that the exchange is going to fail, then another
    thread has already advanced [tail] to the new node from a helping site
    (line 96 or line 127). *)
Theorem tail_lags_at_most_one (d : T) s :
  Reachable d s →
  (∀ t node tail w,
     step_frame t (EnqSwing node tail) w
     = Some (if Pointer_eqb (m_tail w) tail
             then set_tail (bump (Some node) tail) w else w,
             Return RetVoid,
             [EvCas t SwingTail STail (m_tail w) (bump (Some node) tail)
                (Pointer_eqb (m_tail w) tail)]))
  ∧ (∃ tl nd,
       m_ptr (m_tail (world s)) = Some tl ∧ heap (world s) !! tl = Some nd
       ∧ (m_ptr (m_next nd) = None
          ∨ ∃ x ndx, m_ptr (m_next nd) = Some x ∧ heap (world s) !! x = Some ndx
                     ∧ m_ptr (m_next ndx) = None))
  ∧ (∀ t th node tail,
       pool s !! t = Some th → frame th = Some (EnqSwing node tail) →
       (∃ l nd, m_ptr tail = Some l ∧ heap (world s) !! l = Some nd
                ∧ m_ptr (m_next nd) = Some node)
       ∧ (m_tail (world s) ≠ tail →
          ∃ t' site old des,
            EvCas t' site STail old des true ∈ log s ∧ m_ptr des = Some node
            ∧ t' ≠ t ∧ (site = HelpTailEnq ∨ site = HelpTailDeq))).
Proof.
  intros HR. pose proof (Reachable_LogSites _ _ HR) as HLS.
  destruct (Reachable_Inv _ _ HR) as (chain & i & j & G).
  pose proof (g_shape _ _ _ _ G) as Sh.
  split; [|split].
  - intros t node tail w. simpl. unfold cas, CompareExchange. simpl.
    by destruct (Pointer_eqb (m_tail w) tail).
  - destruct (TailSnap_now _ _ _ _ Sh) as (HA & _).
    destruct (At_heap _ _ _ _ _ _ Sh HA) as (tl & vt & nxt & Htl & Hj & Hh & Hnx).
    exists tl, {| m_value := vt; m_next := nxt |}. split; [done|]. split; [done|].
    simpl. destruct (chain.*1 !! S j) as [x|] eqn:Hsj; [|by left]. right.
    destruct (Shape_lookup _ _ _ _ _ _ Sh Hsj) as (vx & nxx & _ & Hhx & Hnxx).
    exists x, {| m_value := vx; m_next := nxx |}. split; [done|]. split; [done|].
    simpl. rewrite Hnxx. apply lookup_ge_None. rewrite length_fmap.
    pose proof (sh_lag _ _ _ _ Sh). lia.
  - intros t th node tail Ht Hf.
    destruct (frame_dequeue _ _ _ _ _ _ _ _ (g_local _ _ _ _ G _ _ Ht) Hf)
      as (v & rest & Htodo & (k & HS & Hk & HU)).
    destruct (At_heap _ _ _ _ _ _ Sh (proj1 HS)) as (l & vl & nxl & Hl & _ & Hh & Hnx).
    split.
    { exists l, {| m_value := vl; m_next := nxl |}. split; [done|]. split; [done|].
      simpl. by rewrite Hnx, list_lookup_fmap, Hk. }
    intros Hne. destruct HS as (_ & Hkj & Hcur).
    assert (k < j) as Hlt.
    { destruct (decide (k = j)) as [->|]; [|lia]. by destruct Hne; rewrite Hcur. }
    destruct (g_log_ex _ _ _ _ G (S k) node ltac:(lia))
      as (t' & site & old & des & Hin & Hdes).
    { by rewrite list_lookup_fmap, Hk. }
    destruct (HU _ _ _ _ Hin Hdes) as (Ht' & Hsite).
    exists t', site, old, des. repeat (split; [done|]).
    pose proof (HLS _ _ _ _ _ Hin) as Hss. by destruct site; auto.
Qed.

(** A [Dequeue] that runs without interference from a reachable state and
    returns the empty optional logs no compare-exchange, leaves the nodes,
    [head], [tail] and the retired list as they were, and releases its two
    hazard slots. *)
Lemma solo_empty_dequeue (d : T) s t :
  Reachable d s →
  ∀ fuel w' evs,
    Dequeue fuel t (world s) = Finished (w', RetOpt None, evs) →
    evs = []
    ∧ heap w' = heap (world s) ∧ m_head w' = m_head (world s)
    ∧ m_tail w' = m_tail (world s)
    ∧ retired (m_hp w') = retired (m_hp (world s))
    ∧ hazards (m_hp w') = delete (t, 0) (delete (t, 1) (hazards (m_hp (world s)))).
Proof.
  intros (chain & i & j & Sh)%Reachable_Shape.
  intros fuel w' evs Hrun.
  destruct (Shape_head_node _ _ _ _ Sh) as (h & vh & nd & Hi & Hh & Hnd & _ & Hnx).
  destruct (chain !! S i) as [[x v]|] eqn:Hsi.
  - destruct (Dequeue_solo_nonempty t _ _ _ _ _ _ _ _ Sh Hi Hsi)
      as (w1 & pre & HE & _).
    pose proof (Exec_unique _ _ _ _ _ _ _ HE Hrun). done.
  - apply lookup_ge_None in Hsi. pose proof (lookup_lt_Some _ _ _ Hi).
    pose proof (Dequeue_solo_empty t _ _ _ _ Sh ltac:(lia)) as HE.
    pose proof (Exec_unique _ _ _ _ _ _ _ HE Hrun) as Heq. simplify_eq.
    repeat (split; [done|]). simpl. hz_solve.
Qed.

End TailClaims.

(** C9. [p == q] holds iff the node references and the tags are equal,
    that is iff [p = q]; [p != q] holds iff [p == q] does not. *)
Theorem Pointer_equality_structural (p q : Pointer) :
  (Pointer_eqb p q = true ↔ m_ptr p = m_ptr q ∧ m_count p = m_count q)
  ∧ (Pointer_eqb p q = true ↔ p = q)
  ∧ (Pointer_neqb p q = true ↔ Pointer_eqb p q ≠ true)
  ∧ Pointer_neqb p q = negb (Pointer_eqb p q).
Proof.
  split; [|split; [apply Pointer_eqb_eq|split; [|done]]].
  - unfold Pointer_eqb. by rewrite andb_true_iff, !bool_decide_eq_true.
  - rewrite Pointer_neqb_true, Pointer_eqb_eq. done.
Qed.

(** C1. Sequential check: on a fresh queue of [int], the calls [Enqueue(1)],
    [Enqueue(2)], [Enqueue(3)] followed by four [Dequeue] calls, made by one
    thread, return [1], [2], [3] and then the empty optional, for every
    thread and every fuel of at least 18 steps per call. *)
Theorem sequential_enqueue_dequeue_1_2_3 (t : tid) (fuel : nat) :
  18 ≤ fuel →
  ∃ w',
    run_ops fuel t
      [OpEnqueue 1%Z; OpEnqueue 2%Z; OpEnqueue 3%Z;
       OpDequeue; OpDequeue; OpDequeue; OpDequeue]
      (new_queue 0%Z)
    = Finished (w', [RetVoid; RetVoid; RetVoid;
                     RetOpt (Some 1%Z); RetOpt (Some 2%Z); RetOpt (Some 3%Z);
                     RetOpt None]).
Proof.
  intros Hfuel.
  destruct (run_ops_fifo t
              [OpEnqueue 1%Z; OpEnqueue 2%Z; OpEnqueue 3%Z;
               OpDequeue; OpDequeue; OpDequeue; OpDequeue]
              _ _ _ (new_queue_Seq 0%Z)) as (chain' & i' & w' & Hrun & _).
  exists w'. by rewrite Hrun.
Qed.

Lemma sequential_enqueue_dequeue_1_2_3_witness :
  18 ≤ 18 ∧
  ∃ w',
    run_ops 18 0
      [OpEnqueue 1%Z; OpEnqueue 2%Z; OpEnqueue 3%Z;
       OpDequeue; OpDequeue; OpDequeue; OpDequeue]
      (new_queue 0%Z)
    = Finished (w', [RetVoid; RetVoid; RetVoid;
                     RetOpt (Some 1%Z); RetOpt (Some 2%Z); RetOpt (Some 3%Z);
                     RetOpt None]).
Proof. split; [lia|]. apply (sequential_enqueue_dequeue_1_2_3 0 18). lia. Defined.

(** C2. What drain-on-destruction does: after [K] values were enqueued
    into a fresh queue the destructor returns; [K + 1] nodes were allocated,
    exactly [K] of them were retired, each of them once, and the node that
    [head] denotes at the end is allocated and was not retired.  The specification
    asks for [K + 1] retired nodes. *)
Theorem destructor_retires_all_but_last {T : Type} (d : T) (vs : list T)
    (t : tid) (fuel rounds : nat) :
  18 ≤ fuel → length vs < rounds →
  ∃ w1 w2 evs,
    run_ops fuel t (OpEnqueue <$> vs) (new_queue d)
    = Finished (w1, (λ _, RetVoid) <$> vs)
    ∧ Destroy rounds fuel t w1 = Finished (w2, evs)
    ∧ size (heap w2) = S (length vs)
    ∧ length (retired (m_hp w2)) = length vs
    ∧ NoDup (retired (m_hp w2))
    ∧ ∃ h, m_ptr (m_head w2) = Some h ∧ is_Some (heap w2 !! h)
           ∧ h ∉ retired (m_hp w2).
Proof.
  intros Hfuel Hrounds.
  destruct (run_ops_enqueues t vs _ _ _ (new_queue_Seq d))
    as (chain & w1 & Hrun & HS1 & Hlen).
  simpl in Hlen.
  destruct (Destroy_Seq t chain w1 rounds fuel Hfuel 0 HS1 ltac:(lia))
    as (w2 & evs & HD & HS2).
  exists w1, w2, evs. split; [by apply Hrun|]. split; [done|].
  pose proof (seq_shape _ _ _ HS2) as Sh.
  split; [by rewrite (Seq_size _ _ _ HS2), Hlen|].
  rewrite (seq_retired _ _ _ HS2).
  split; [rewrite length_take, length_fmap; lia|].
  split.
  { eapply sublist_NoDup; [apply (sh_nodup _ _ _ _ Sh)|apply sublist_take]. }
  destruct (Shape_head_node _ _ _ _ Sh) as (h & vh & nd & Hi & Hh & Hnd & _).
  exists h. split; [done|]. split; [by eauto|].
  intros [k Hk]%list_elem_of_lookup.
  pose proof (lookup_lt_Some _ _ _ Hk) as Hlt.
  rewrite length_take, length_fmap in Hlt.
  rewrite lookup_take_lt in Hk by lia.
  assert (k = length chain - 1); [|lia].
  eapply NoDup_lookup; [apply (sh_nodup _ _ _ _ Sh)|done|].
  by rewrite list_lookup_fmap, Hi.
Qed.

Lemma destructor_retires_all_but_last_witness :
  18 ≤ 18 ∧ length ([] : list Z) < 1 ∧
  ∃ w1 w2 evs,
    run_ops 18 0 (OpEnqueue <$> []) (new_queue 0%Z)
    = Finished (w1, (λ _, RetVoid) <$> ([] : list Z))
    ∧ Destroy 1 18 0 w1 = Finished (w2, evs)
    ∧ size (heap w2) = S (length ([] : list Z))
    ∧ length (retired (m_hp w2)) = length ([] : list Z)
    ∧ NoDup (retired (m_hp w2))
    ∧ ∃ h, m_ptr (m_head w2) = Some h ∧ is_Some (heap w2 !! h)
           ∧ h ∉ retired (m_hp w2).
Proof.
  split; [lia|]. split; [simpl; lia|].
  apply (destructor_retires_all_but_last 0%Z [] 0 18 1); simpl; lia.
Defined.

(** The destructor of a queue that was never used retires nothing. *)
Example destroy_fresh_queue :
  ∃ w evs, Destroy 1 18 0 (new_queue 0%Z) = Finished (w, evs)
    ∧ retired (m_hp w) = [] ∧ size (heap w) = 1.
Proof. eexists _, _. split; [vm_compute; reflexivity|]. split; reflexivity. Qed.

Lemma run_from_Reachable progs sched :
  is_Some (run sched (init 0%Z progs)) → Reachable 0%Z (run_from progs sched).
Proof.
  intros [s Hs]. exists progs, sched. unfold run_from. by rewrite Hs.
Qed.

(** C10 does not hold as stated.  In the first run the only call of
    thread 1 is a [Dequeue] that returns the empty optional, after its own
    successful compare-exchange on [tail] (line 127).  In the second run
    the only call of thread 1 is a [Dequeue] that returns the empty
    optional, after its own compare-exchange on [head] (line 136), which
    failed. *)
Lemma empty_dequeue_after_helping :
  (∃ s,
    run raced_sched (init 0%Z raced_progs) = Some s
    ∧ raced_progs !! 1 = Some [OpDequeue]
    ∧ (results <$> pool s !! 1) = Some [(OpDequeue, RetOpt None)]
    ∧ EvCas 1 HelpTailDeq STail
        {| m_ptr := Some 1%positive; m_count := 0 |}
        {| m_ptr := Some 2%positive; m_count := 1 |} true ∈ log s)
  ∧ (∃ s,
    run lost_sched (init 0%Z lost_progs) = Some s
    ∧ lost_progs !! 1 = Some [OpDequeue]
    ∧ (results <$> pool s !! 1) = Some [(OpDequeue, RetOpt None)]
    ∧ EvCas 1 AdvanceHead SHead
        {| m_ptr := Some 2%positive; m_count := 1 |}
        {| m_ptr := Some 2%positive; m_count := 1 |} false ∈ log s).
Proof.
  split.
  - exists raced_run. split; [vm_compute; reflexivity|]. split; [reflexivity|].
    split; [vm_compute; reflexivity|].
    vm_compute. do 2 constructor.
  - exists lost_run. split; [vm_compute; reflexivity|]. split; [reflexivity|].
    split; [vm_compute; reflexivity|].
    vm_compute. do 7 constructor.
Qed.

(** C7 does not hold as stated: in this complete run the exchange of line
    100 fails, and no exchange on [tail], helping or not, follows it. *)
Lemma failed_swing_is_not_followed_by_help :
  ∃ s pre post,
    Reachable 0%Z s ∧ finished s
    ∧ log s = pre
              ++ EvCas 0 SwingTail STail
                   {| m_ptr := Some 2%positive; m_count := 1 |}
                   {| m_ptr := Some 2%positive; m_count := 1 |} false
              :: post
    ∧ ∀ t site old des ok, EvCas t site STail old des ok ∉ post.
Proof.
  exists helped_run,
    [EvCas 0 LinkNext (SNext 1) null_pointer
       {| m_ptr := Some 2%positive; m_count := 1 |} true;
     EvCas 1 HelpTailDeq STail
       {| m_ptr := Some 1%positive; m_count := 0 |}
       {| m_ptr := Some 2%positive; m_count := 1 |} true],
    [EvReturn 0 (OpEnqueue 1%Z) RetVoid;
     EvCas 1 AdvanceHead SHead
       {| m_ptr := Some 1%positive; m_count := 0 |}
       {| m_ptr := Some 2%positive; m_count := 1 |} true;
     EvRetire 1 1; EvReturn 1 OpDequeue (RetOpt (Some 1%Z))].
  split; [apply run_from_Reachable; vm_compute; eauto|].
  split; [vm_compute; repeat constructor|].
  split; [vm_compute; reflexivity|].
  intros t site old des ok Hin.
  repeat (apply elem_of_cons in Hin as [Hin|Hin]; [done|]).
  by apply not_elem_of_nil in Hin.
Qed.

Section WrapAround.
Context {T : Type}.
Implicit Types (w : World T) (f : Frame T) (chain : list (loc * T)).
Local Arguments cas : simpl never.

Lemma run_ops_app fuel t (ops1 ops2 : list (Op T)) w w1 rs1 :
  run_ops fuel t ops1 w = Finished (w1, rs1) →
  run_ops fuel t (ops1 ++ ops2) w
  = match run_ops fuel t ops2 w1 with
    | Finished (w2, rs2) => Finished (w2, rs1 ++ rs2)
    | Fault => Fault
    | OutOfFuel => OutOfFuel
    end.
Proof.
  revert w rs1. induction ops1 as [|op ops1 IH]; intros w rs1; simpl.
  - intros [= <- <-]. by destruct (run_ops fuel t ops2 w) as [[]| |].
  - destruct (run_frame fuel t (entry op) w) as [[[w0 r] evs]| |]; try done.
    destruct (run_ops fuel t ops1 w0) as [[w0' rs0]| |] eqn:E; try done.
    intros [= <- <-]. rewrite (IH _ _ E).
    by destruct (run_ops fuel t ops2 w0') as [[]| |].
Qed.

Lemma wrap_range (z : Z) : (0 ≤ wrap z < word_modulus)%Z.
Proof. unfold wrap, word_modulus. apply Z.mod_pos_bound. lia. Qed.

Lemma wrap_wrap_add (a b : Z) : wrap (wrap a + b) = wrap (a + b).
Proof. unfold wrap. apply Zplus_mod_idemp_l. Qed.

(** [n] times [Enqueue(v); Dequeue()] on an empty queue advance the tag of
    [head] by [n], modulo [2^64]. *)
Lemma enqueue_dequeue_pairs t (v : T) n :
  ∀ chain i w,
    Seq chain i w → S i = length chain →
    (0 ≤ m_count (m_head w) < word_modulus)%Z →
    ∃ chain' i' w' rs,
      (∀ fuel, 18 ≤ fuel →
         run_ops fuel t (concat (replicate n [OpEnqueue v; OpDequeue])) w
         = Finished (w', rs))
      ∧ Seq chain' i' w' ∧ S i' = length chain'
      ∧ m_count (m_head w') = wrap (m_count (m_head w) + Z.of_nat n).
Proof.
  induction n as [|n IH]; intros chain i w HS Hlast Hc.
  { exists chain, i, w, []. split; [done|]. split; [done|]. split; [done|].
    unfold wrap. rewrite Z.add_0_r, Z.mod_small; [done|]. exact Hc. }
  destruct (Seq_Enqueue t _ _ _ v HS) as (w1 & evs1 & x & HE1 & HS1 & Hhd1).
  destruct (chain !! i) as [[h vh]|] eqn:Hi; [|apply lookup_ge_None in Hi; lia].
  assert ((chain ++ [(x, v)]) !! i = Some (h, vh)) as Hi1
    by (by apply lookup_app_l_Some).
  assert ((chain ++ [(x, v)]) !! S i = Some (x, v)) as Hsi1.
  { rewrite Hlast, lookup_app_r, Nat.sub_diag by lia. done. }
  destruct (Seq_Dequeue_nonempty t _ _ _ _ _ _ _ HS1 Hi1 Hsi1)
    as (w2 & pre & HE2 & HS2 & Hhd2).
  destruct (IH _ _ _ HS2) as (chain' & i' & w' & rs & Hrun & HS' & Hlast' & Hc').
  { rewrite length_app. simpl. lia. }
  { rewrite Hhd2. apply wrap_range. }
  exists chain', i', w', (RetVoid :: RetOpt (Some v) :: rs).
  split; [|split; [done|split; [done|]]].
  - intros fuel Hf. cbn [replicate concat app].
    rewrite (run_ops_step 12 t (OpEnqueue v) _ _ _ _ _ HE1) by lia.
    rewrite (run_ops_step 18 t OpDequeue _ _ _ _ _ HE2) by lia.
    by rewrite Hrun.
  - rewrite Hc', Hhd2, Hhd1. cbn [bump m_count].
    rewrite wrap_wrap_add. f_equal. lia.
Qed.

End WrapAround.

(** The scenario of the wrap-around, for any number of rounds that brings
    the tag of [head] to [2^64 - 1]. *)
Lemma tag_wraps_after (n : nat) :
  Z.of_nat n = (2 ^ 64 - 1)%Z →
  ∃ w rs w' evs old des,
    run_ops 18 0 (concat (replicate n [OpEnqueue 0%Z; OpDequeue]) ++ [OpEnqueue 0%Z])
      (new_queue 0%Z) = Finished (w, rs)
    ∧ Dequeue 18 0 w = Finished (w', RetOpt (Some 0%Z), evs)
    ∧ EvCas 0 AdvanceHead SHead old des true ∈ evs
    ∧ slot_load SHead w = Some old ∧ slot_load SHead w' = Some des
    ∧ m_count old = (2 ^ 64 - 1)%Z ∧ m_count des = 0%Z.
Proof.
  intros Hn.
  destruct (enqueue_dequeue_pairs 0 0%Z n _ 0 _ (new_queue_Seq 0%Z) eq_refl)
    as (chain & i & w0 & rs0 & Hrun0 & HS0 & Hlast0 & Hc0).
  { simpl. unfold word_modulus. lia. }
  assert (m_count (m_head w0) = 2 ^ 64 - 1)%Z as Hc.
  { rewrite Hc0, Hn. unfold wrap, word_modulus. simpl m_count.
    rewrite Z.mod_small; lia. }
  destruct (Seq_Enqueue 0 _ _ _ 0%Z HS0) as (w1 & evs1 & x & HE1 & HS1 & Hhd1).
  destruct (chain !! i) as [[h vh]|] eqn:Hi; [|apply lookup_ge_None in Hi; lia].
  assert ((chain ++ [(x, 0%Z)]) !! i = Some (h, vh)) as Hi1
    by (by apply lookup_app_l_Some).
  assert ((chain ++ [(x, 0%Z)]) !! S i = Some (x, 0%Z)) as Hsi1.
  { rewrite Hlast0, lookup_app_r, Nat.sub_diag by lia. done. }
  destruct (Seq_Dequeue_nonempty 0 _ _ _ _ _ _ _ HS1 Hi1 Hsi1)
    as (w2 & pre & HE2 & HS2 & Hhd2).
  exists w1, (rs0 ++ [RetVoid]), w2. eexists _, (m_head w1), (m_head w2).
  split; [|split; [|split; [|split; [|split; [|split]]]]].
  - rewrite (run_ops_app _ _ _ _ _ _ _ (Hrun0 18 ltac:(lia))).
    rewrite (run_ops_step 12 0 (OpEnqueue 0%Z) [] _ _ _ _ HE1) by lia. done.
  - apply HE2. lia.
  - rewrite Hhd2. apply elem_of_app. right. constructor.
  - done.
  - done.
  - by rewrite Hhd1.
  - rewrite Hhd2, Hhd1. cbn [bump m_count]. rewrite Hc.
    unfold wrap, word_modulus. replace (2 ^ 64 - 1 + 1)%Z with (2 ^ 64)%Z by lia.
    apply Z.mod_same. lia.
Qed.

Lemma many_spec : Z.of_nat many = (2 ^ 64 - 1)%Z.
Proof. unfold many. apply Z2Nat.id. lia. Qed.

(** C3 does not hold as stated: after [2^64 - 1] rounds of
    [Enqueue(0); Dequeue()] on a fresh queue and one more [Enqueue(0)], the
    successful exchange of [head] by the next [Dequeue] replaces the tag
    [2^64 - 1] by the tag [0]. *)
Lemma tag_wraps_to_zero :
  ∃ w rs w' evs old des,
    run_ops 18 0 wrap_ops (new_queue 0%Z) = Finished (w, rs)
    ∧ Dequeue 18 0 w = Finished (w', RetOpt (Some 0%Z), evs)
    ∧ EvCas 0 AdvanceHead SHead old des true ∈ evs
    ∧ slot_load SHead w = Some old ∧ slot_load SHead w' = Some des
    ∧ m_count old = (2 ^ 64 - 1)%Z ∧ m_count des = 0%Z.
Proof. exact (tag_wraps_after many many_spec). Qed.

Lemma cas_bumps_tag_witness :
  ∃ w' nx evs,
    step_frame 0
      (DeqCas {| m_ptr := Some 1%positive; m_count := 0 |}
              {| m_ptr := Some 2%positive; m_count := 1 |} 1%Z) before_cas
    = Some (w', nx, evs)
    ∧ EvCas 0 AdvanceHead SHead
        {| m_ptr := Some 1%positive; m_count := 0 |}
        {| m_ptr := Some 2%positive; m_count := 1 |} true ∈ evs
    ∧ slot_load SHead w' = Some {| m_ptr := Some 2%positive; m_count := 1 |}.
Proof.
  assert (∃ w' nx evs,
    step_frame 0
      (DeqCas {| m_ptr := Some 1%positive; m_count := 0 |}
              {| m_ptr := Some 2%positive; m_count := 1 |} 1%Z) before_cas
    = Some (w', nx, evs)
    ∧ EvCas 0 AdvanceHead SHead
        {| m_ptr := Some 1%positive; m_count := 0 |}
        {| m_ptr := Some 2%positive; m_count := 1 |} true ∈ evs)
    as (w' & nx & evs & H1 & H2).
  { eexists _, _, _. split; [vm_compute; reflexivity|constructor]. }
  exists w', nx, evs. split; [exact H1|]. split; [exact H2|].
  destruct (cas_bumps_tag _ _ _ _ _ _ _ _ _ _ _ H1 H2) as (_ & H & _). exact H.
Defined.

Lemma head_is_sentinel_witness :
  Reachable 0%Z enqueued_one
  ∧ ∃ w' evs, Dequeue 18 0 (world enqueued_one) = Finished (w', RetOpt (Some 1%Z), evs).
Proof.
  assert (Reachable 0%Z enqueued_one) as HR
    by (apply run_from_Reachable; vm_compute; eauto).
  split; [exact HR|].
  destruct (head_is_sentinel 0%Z enqueued_one 0 HR) as (h & nd & Hh & Hnd & H).
  assert (m_ptr (m_next nd) = Some 2%positive) as Hnx.
  { vm_compute in Hh. injection Hh as <-. vm_compute in Hnd. by injection Hnd as <-. }
  rewrite Hnx in H. destruct H as (ndx & w' & evs & _ & Hx & Hrun & _).
  vm_compute in Hx. injection Hx as <-.
  exists w', evs. apply Hrun. lia.
Defined.

Lemma dequeue_empty_or_present_witness :
  (Reachable 0%Z (init 0%Z [])
   ∧ ∃ w', Dequeue 8 0 (world (init 0%Z [])) = Finished (w', RetOpt None, []))
  ∧ (Reachable 0%Z helped_mid
     ∧ ∃ w' evs, Dequeue 18 1 (world helped_mid) = Finished (w', RetOpt (Some 1%Z), evs))
  ∧ (∃ w1 evs1 w2 evs2,
       Enqueue 12 0 5%Z (world (init 0%Z [])) = Finished (w1, RetVoid, evs1)
       ∧ Dequeue 18 0 w1 = Finished (w2, RetOpt (Some 5%Z), evs2)).
Proof.
  assert (Reachable 0%Z (init 0%Z [])) as HR0 by (by exists [], []).
  assert (Reachable 0%Z helped_mid) as HR1
    by (apply run_from_Reachable; vm_compute; eauto).
  split; [|split].
  - split; [exact HR0|].
    destruct (proj1 (dequeue_empty_or_present 0%Z (init 0%Z []) 0 HR0))
      as (h & nd & Hh & Hnd & H).
    assert (m_ptr (m_next nd) = None) as Hnx.
    { vm_compute in Hh. injection Hh as <-. vm_compute in Hnd. by injection Hnd as <-. }
    rewrite Hnx in H. destruct H as (w' & Hrun). exists w'. apply Hrun. lia.
  - split; [exact HR1|].
    destruct (proj1 (dequeue_empty_or_present 0%Z helped_mid 1 HR1))
      as (h & nd & Hh & Hnd & H).
    assert (m_ptr (m_next nd) = Some 2%positive) as Hnx.
    { vm_compute in Hh. injection Hh as <-. vm_compute in Hnd. by injection Hnd as <-. }
    rewrite Hnx in H. destruct H as (ndx & w' & evs & Hx & Hrun).
    vm_compute in Hx. injection Hx as <-.
    exists w', evs. apply Hrun. lia.
  - destruct (proj1 (proj2 (dequeue_empty_or_present 0%Z (init 0%Z []) 0 HR0)) 5%Z)
      as (w1 & evs1 & w2 & v' & evs2 & H1 & H2).
    specialize (H1 12 (le_n _)). specialize (H2 18 (le_n _)).
    assert (∃ w e, Enqueue 12 0 5%Z (world (init 0%Z [])) = Finished (w, RetVoid, e)
                   ∧ ∃ w' e', Dequeue 18 0 w = Finished (w', RetOpt (Some 5%Z), e'))
      as (wa & ea & Ha & wb & eb & Hb).
    { eexists _, _. split; [vm_compute; reflexivity|]. eexists _, _. vm_compute. reflexivity. }
    exists w1, evs1, w2, evs2. split; [exact H1|].
    rewrite H1 in Ha. injection Ha as <- <-. rewrite H2 in Hb. by injection Hb as <- <- <-.
Defined.

Lemma dequeue_retires_old_head_witness :
  ∃ th s',
    Reachable 0%Z retiring_run
    ∧ pool retiring_run !! 0 = Some th
    ∧ step 0 retiring_run = Some s'
    ∧ retired (m_hp (world s')) = retired (m_hp (world retiring_run)) ++ [1%positive].
Proof.
  assert (Reachable 0%Z retiring_run) as HR
    by (apply run_from_Reachable; vm_compute; eauto).
  assert (∃ rs, pool retiring_run !! 0
    = Some {| todo := [OpDequeue];
              frame := Some (DeqRetire {| m_ptr := Some 1%positive; m_count := 0 |} 1%Z);
              results := rs |}) as (rs & Hth).
  { eexists. vm_compute. reflexivity. }
  assert (∃ s', step 0 retiring_run = Some s') as (s' & Hstep).
  { eexists. vm_compute. reflexivity. }
  eexists _, s'. split; [exact HR|]. split; [exact Hth|]. split; [exact Hstep|].
  destruct (dequeue_retires_old_head 0%Z retiring_run 0 _ _ HR Hth Hstep) as (_ & H & _).
  destruct (H {| m_ptr := Some 1%positive; m_count := 0 |} 1%Z eq_refl)
    as (h & Hh & _ & _ & Hr & _).
  simpl in Hh. injection Hh as <-. exact Hr.
Defined.

Lemma tail_lags_at_most_one_witness :
  Reachable 0%Z helped_mid
  ∧ ∃ t' site old des,
      EvCas t' site STail old des true ∈ log helped_mid
      ∧ m_ptr des = Some 2%positive ∧ t' ≠ 0
      ∧ (site = HelpTailEnq ∨ site = HelpTailDeq).
Proof.
  assert (Reachable 0%Z helped_mid) as HR
    by (apply run_from_Reachable; vm_compute; eauto).
  split; [exact HR|].
  destruct (tail_lags_at_most_one 0%Z helped_mid HR) as (_ & _ & H).
  assert (∃ rs, pool helped_mid !! 0
    = Some {| todo := [OpEnqueue 1%Z];
              frame := Some (EnqSwing 2%positive {| m_ptr := Some 1%positive; m_count := 0 |});
              results := rs |}) as (rs & Hth).
  { eexists. vm_compute. reflexivity. }
  destruct (H 0 _ 2%positive {| m_ptr := Some 1%positive; m_count := 0 |} Hth eq_refl)
    as (_ & H2).
  apply H2. vm_compute. discriminate.
Defined.

(** * Further properties *)

Section SoloRuns.
Context {T : Type}.
Implicit Types (w : World T) (f : Frame T) (chain : list (loc * T)).
Implicit Types (th : Thread T) (s : State T) (lg evs : list (Event T)).
Local Arguments cas : simpl never.

(** X1. Sequential refinement: whatever calls one thread makes on a fresh
    queue, the results are those of a first-in first-out list, and what the
    list still holds at the end is what further [Dequeue] calls return, in
    order, before the first empty optional. *)
Theorem sequential_fifo_refinement (d : T) (t : tid) (ops : list (Op T)) (fuel : nat) :
  18 ≤ fuel →
  ∃ w' w'',
    run_ops fuel t ops (new_queue d) = Finished (w', (fifo_model ops []).2)
    ∧ run_ops fuel t (replicate (S (length (fifo_model ops []).1)) OpDequeue) w'
      = Finished (w'', (RetOpt ∘ Some <$> (fifo_model ops []).1) ++ [RetOpt None]).
Proof.
  intros Hfuel.
  destruct (run_ops_fifo t ops _ _ _ (new_queue_Seq d)) as (chain & i & w' & Hrun & HS & Hq).
  change (queued _ 0) with (@nil T) in Hrun, Hq.
  destruct (drain_Shape t chain w' _ i _ (seq_shape _ _ _ HS) Hq) as (w'' & Hdrain).
  exists w', w''. split; [by apply Hrun|by apply Hdrain].
Qed.

End SoloRuns.

Section WriteOnce.
Context {T : Type}.
Implicit Types (w : World T) (f : Frame T) (chain : list (loc * T)).
Implicit Types (th : Thread T) (s : State T) (lg evs : list (Event T)).
Local Arguments cas : simpl never.

(** A step of the pool is a step of a frame, or nothing at all when the
    thread has run out of calls. *)
Lemma step_inv t s s' :
  step t s = Some s' →
  s' = {| world := world s; pool := pool s; log := log s |}
  ∨ ∃ th op rest w' nx evs,
      pool s !! t = Some th ∧ todo th = op :: rest
      ∧ step_frame t (default (entry op) (frame th)) (world s) = Some (w', nx, evs)
      ∧ s' = {| world := w';
                pool := <[t := next_thread th op rest nx]> (pool s);
                log := log s ++ next_events t op nx evs |}.
Proof.
  intros Hstep. destruct (pool s !! t) as [th|] eqn:Ht;
    [|by unfold step in Hstep; rewrite Ht in Hstep].
  destruct (todo th) as [|op rest] eqn:Htodo.
  - left. unfold step, step_thread in Hstep. rewrite Ht in Hstep. simpl in Hstep.
    rewrite Htodo in Hstep. simpl in Hstep. simplify_eq.
    rewrite list_insert_id by done. by rewrite app_nil_r.
  - right. rewrite (step_unfold _ _ _ _ _ Ht Htodo) in Hstep.
    destruct (step_frame _ _ _) as [[[w' nx] evs]|] eqn:Hf; [|done].
    simpl in Hstep. simplify_eq. by exists th, op, rest, w', nx, evs.
Qed.

(** A relation between worlds that every step of a frame establishes, and
    that is reflexive and transitive, holds along every run. *)
Lemma run_world (R : World T → World T → Prop) :
  (∀ w, R w w) → (∀ w1 w2 w3, R w1 w2 → R w2 w3 → R w1 w3) →
  (∀ t f w w' nx evs, step_frame t f w = Some (w', nx, evs) → R w w') →
  ∀ sched s s', run sched s = Some s' → R (world s) (world s').
Proof.
  intros Hrefl Htrans Hstep sched.
  induction sched as [|t sched IH]; intros s s' Hrun; simpl in Hrun.
  { by simplify_eq. }
  destruct (step t s) as [s1|] eqn:Hs; [|done]. simpl in Hrun.
  apply (Htrans _ (world s1)); [|by apply IH].
  destruct (step_inv _ _ _ Hs) as [->|(th & op & rest & w' & nx & evs & _ & _ & Hf & ->)];
    [apply Hrefl|]. simpl. by eapply Hstep.
Qed.

Lemma node_kept_refl (nd : Node T) : node_kept nd nd.
Proof. by split. Qed.

Lemma nodes_kept_refl w : nodes_kept w w.
Proof. intros l nd H. exists nd. split; [done|apply node_kept_refl]. Qed.

Lemma nodes_kept_trans w1 w2 w3 :
  nodes_kept w1 w2 → nodes_kept w2 w3 → nodes_kept w1 w3.
Proof.
  intros H12 H23 l nd H.
  destruct (H12 _ _ H) as (nd2 & H2 & Hv2 & Hn2).
  destruct (H23 _ _ H2) as (nd3 & H3 & Hv3 & Hn3).
  exists nd3. split; [done|]. split; [congruence|].
  intros Hs. rewrite <- (Hn2 Hs). apply Hn3. by rewrite (Hn2 Hs).
Qed.

Lemma nodes_kept_heap w w' : heap w' = heap w → nodes_kept w w'.
Proof. intros E l nd H. exists nd. rewrite E. split; [done|apply node_kept_refl]. Qed.

Lemma cas_nodes_kept t site sl e d w w1 ok evs :
  cas t site sl e d w = Some (w1, ok, evs) →
  (∀ l, sl = SNext l → m_ptr e = None) →
  nodes_kept w w1.
Proof.
  intros (stored & Hld & _ & [(_ & -> & ->)|(_ & _ & ->)])%cas_inv Hsl;
    [|apply nodes_kept_refl].
  destruct sl as [| |l]; simpl; try (by apply nodes_kept_heap).
  simpl in Hld. destruct (heap w !! l) as [ndl|] eqn:Hl; [|apply nodes_kept_refl].
  simpl in Hld. simplify_eq.
  intros l' nd H. simpl. destruct (decide (l' = l)) as [->|Hne].
  - rewrite lookup_insert_eq. eexists. split; [done|]. simplify_eq.
    split; [done|]. rewrite (Hsl l eq_refl). by intros [? ?].
  - rewrite lookup_insert_ne by done. exists nd. split; [done|apply node_kept_refl].
Qed.

Lemma step_frame_nodes_kept t f w w' nx evs :
  step_frame t f w = Some (w', nx, evs) → nodes_kept w w'.
Proof.
  intros Hstep.
  destruct f; step_cases Hstep;
    try (by apply nodes_kept_heap);
    try match goal with H : cas _ _ _ _ _ _ = Some _ |- _ =>
      apply cas_nodes_kept in H; [|by (intros; simplify_eq)] end;
    try (eapply nodes_kept_trans; [eassumption|by apply nodes_kept_heap]).
  intros l nd H. simpl.
  rewrite lookup_insert_ne by (intros <-; by apply (is_fresh (dom (heap w))), elem_of_dom).
  exists nd. split; [done|apply node_kept_refl].
Qed.

(** X3. Along every run, from any state: a node that is allocated stays
    allocated, its value never changes, and once its [m_next] is not null
    it never changes again. *)
Theorem links_are_write_once sched s s' l nd :
  run sched s = Some s' →
  heap (world s) !! l = Some nd →
  ∃ nd', heap (world s') !! l = Some nd'
    ∧ m_value nd' = m_value nd
    ∧ (is_Some (m_ptr (m_next nd)) → m_next nd' = m_next nd).
Proof.
  intros Hrun.
  apply (run_world nodes_kept nodes_kept_refl nodes_kept_trans
           step_frame_nodes_kept _ _ _ Hrun).
Qed.

End WriteOnce.

Section Hazards.
Context {T : Type}.
Implicit Types (w : World T) (f : Frame T) (chain : list (loc * T)).
Implicit Types (th : Thread T) (s : State T) (lg evs : list (Event T)).
Local Arguments cas : simpl never.

Lemma run_snoc sched t s :
  run (sched ++ [t]) s = run sched s ≫= step t.
Proof.
  revert s. induction sched as [|t' sched IH]; intros s; simpl.
  - by destruct (step t s).
  - destruct (step t' s) as [s1|]; simpl; [apply IH|done].
Qed.

Lemma Reachable_init (d : T) progs : Reachable d (init d progs).
Proof. by exists progs, []. Qed.

Lemma Reachable_step (d : T) t s s' :
  Reachable d s → step t s = Some s' → Reachable d s'.
Proof.
  intros (progs & sched & Hrun) Hstep. exists progs, (sched ++ [t]).
  by rewrite run_snoc, Hrun.
Qed.

(** Induction on the reachable states. *)
Lemma Reachable_invariant (d : T) (P : State T → Prop) :
  (∀ progs, P (init d progs)) →
  (∀ t s s', Reachable d s → P s → step t s = Some s' → P s') →
  ∀ s, Reachable d s → P s.
Proof.
  intros Hinit Hstep s (progs & sched & Hrun). revert s Hrun.
  induction sched as [|t sched IH] using rev_ind; intros s Hrun.
  - simpl in Hrun. simplify_eq. apply Hinit.
  - rewrite run_snoc in Hrun. destruct (run sched (init d progs)) as [s1|] eqn:H1; [|done].
    simpl in Hrun. eapply Hstep; [|by apply IH|done]. by exists progs, sched.
Qed.

Lemma guard_entry (op : Op T) slot : guard (entry op) slot = None.
Proof. by destruct op, slot. Qed.

(** A step of thread [t] leaves the slots of the other threads alone and
    sets its own to the guards of the program point it moves to. *)
Lemma step_frame_hazards t f w w' nx evs :
  step_frame t f w = Some (w', nx, evs) →
  (∀ t' slot, t' ≠ t → hazards (m_hp w') !! (t', slot) = hazards (m_hp w) !! (t', slot))
  ∧ ((∀ slot, hazards (m_hp w) !! (t, slot) = guard f slot) →
     ∀ slot, hazards (m_hp w') !! (t, slot)
             = match nx with Continue f' => guard f' slot | Return _ => None end).
Proof.
  intros Hstep.
  destruct f; step_cases Hstep;
    try match goal with H : cas _ _ _ _ _ _ = Some _ |- _ =>
      apply cas_hp in H as -> end;
    (split; [intros t' slot Hne; by hz_lookup|]);
    intros Hg slot; specialize (Hg slot);
    try match goal with b : bool |- _ => destruct b end;
    destruct slot as [|[|slot]]; simpl in *; hz_lookup; done.
Qed.

Lemma init_HzInv (d : T) progs : HzInv (init d progs).
Proof.
  intros t slot. unfold guards. simpl. rewrite lookup_empty, list_lookup_fmap.
  by destruct (progs !! t).
Qed.

Lemma step_HzInv t s s' : HzInv s → step t s = Some s' → HzInv s'.
Proof.
  intros HI Hstep.
  destruct (step_inv _ _ _ Hstep)
    as [->|(th & op & rest & w' & nx & evs & Ht & Htodo & Hf & ->)]; [done|].
  destruct (step_frame_hazards _ _ _ _ _ _ Hf) as [Hother Hown].
  intros t' slot. unfold guards. simpl.
  destruct (decide (t' = t)) as [->|Hne].
  - rewrite list_lookup_insert_eq by (by eapply lookup_lt_Some). simpl.
    rewrite Hown.
    + by destruct nx.
    + intros slot'. rewrite HI. unfold guards. rewrite Ht. simpl.
      destruct (frame th); simpl; [done|by rewrite guard_entry].
  - rewrite list_lookup_insert_ne by done. rewrite Hother by done. apply HI.
Qed.

Lemma Reachable_HzInv (d : T) s : Reachable d s → HzInv s.
Proof.
  apply Reachable_invariant; [apply init_HzInv|].
  intros t s0 s' _. apply step_HzInv.
Qed.

(** X4. In every reachable state the hazard table holds exactly the guards
    in scope: slot [(t, k)] is set if and only if thread [t] is inside a
    call, at a program point where the guard of slot [k] is alive, and it
    then holds the snapshot that was published.  Hence only the slots 0 and
    1 of a thread are ever used, and a thread that is between two calls has
    nothing published. *)
Theorem hazard_slots_follow_guards (d : T) s :
  Reachable d s →
  (∀ t slot, hazards (m_hp (world s)) !! (t, slot) = guards s t slot)
  ∧ (∀ t slot, 2 ≤ slot → hazards (m_hp (world s)) !! (t, slot) = None)
  ∧ (∀ t th slot, pool s !! t = Some th → frame th = None →
       hazards (m_hp (world s)) !! (t, slot) = None).
Proof.
  intros HI%Reachable_HzInv. split; [exact HI|]. split.
  - intros t [|[|slot]] Hs; try lia. rewrite HI. unfold guards.
    destruct (pool s !! t) as [th|]; [|done]. simpl.
    destruct (frame th) as [f|]; [|done]. by destruct f.
  - intros t th slot Ht Hf. rewrite HI. unfold guards. rewrite Ht. simpl. by rewrite Hf.
Qed.

End Hazards.

Section Reclamation.
Context {T : Type}.
Implicit Types (w : World T) (f : Frame T) (chain : list (loc * T)).
Implicit Types (th : Thread T) (s : State T) (lg evs : list (Event T)).
Local Arguments cas : simpl never.

Lemma elem_of_option_list {A} (o : option A) (x : A) : x ∈ option_list o ↔ o = Some x.
Proof.
  destruct o as [y|]; simpl.
  - rewrite list_elem_of_singleton. split; congruence.
  - split; [by intros ?%elem_of_nil|done].
Qed.

Lemma derefs_validated f l : l ∈ derefs f → l ∈ validated f.
Proof.
  destruct f; simpl; repeat case_match; set_solver.
Qed.

Lemma validated_guard f l : l ∈ validated f → ∃ slot, guard f slot = Some (Some l).
Proof.
  destruct f; simpl; try (by intros ?%elem_of_nil);
    rewrite ?elem_of_app, !elem_of_option_list;
    try (intros [->| ->]; [by exists 0|by exists 1]);
    intros ->; by exists 0.
Qed.

Lemma live_lookup (fr : gset loc) w l nd :
  heap w !! l = Some nd → l ∉ fr → heap (live fr w) !! l = Some nd.
Proof. intros H Hl. simpl. by apply map_lookup_filter_Some. Qed.

Lemma live_load sl (fr : gset loc) w p :
  slot_load sl w = Some p → (∀ l, sl = SNext l → l ∉ fr) →
  slot_load sl (live fr w) = Some p.
Proof.
  destruct sl as [| |l]; simpl; try done. intros H Hl.
  destruct (heap w !! l) as [nd|] eqn:E; [|done].
  by rewrite (map_lookup_filter_Some_2 _ _ _ _ E (Hl l eq_refl)).
Qed.

Lemma live_cas t site sl e d (fr : gset loc) w r :
  cas t site sl e d w = Some r → (∀ l, sl = SNext l → l ∉ fr) →
  is_Some (cas t site sl e d (live fr w)).
Proof.
  unfold cas. destruct (slot_load sl w) as [stored|] eqn:E; [|done]. intros _ Hl.
  rewrite (live_load _ _ _ _ E Hl). simpl. by destruct (CompareExchange _ _ _).
Qed.

(** A step that is defined, and dereferences no freed node, is defined in
    the memory without the freed nodes. *)
Lemma live_step t f (fr : gset loc) w r :
  step_frame t f w = Some r → (∀ l, l ∈ derefs f → l ∉ fr) →
  is_Some (step_frame t f (live fr w)).
Proof.
  intros Hstep Hd. destruct r as [[w' nx] evs].
  destruct f; simpl in Hd |- *; step_cases Hstep; try done;
    try match goal with H : heap _ !! ?l = Some _ |- _ =>
      erewrite (map_lookup_filter_Some_2 _ _ _ _ H) by (apply Hd; set_solver) end;
    try match goal with H : cas _ _ ?sl _ _ _ = Some _ |- _ =>
      let H' := fresh in
      eapply live_cas in H as [[[??]?] H'];
        [rewrite H'|intros; simplify_eq; apply Hd; set_solver] end;
    try done.
Qed.

Lemma Pointer_neqb_false p q : Pointer_neqb p q = false → p = q.
Proof.
  unfold Pointer_neqb. rewrite negb_false_iff. apply Pointer_eqb_eq.
Qed.

Lemma step_frame_retired t f w w' nx evs l :
  step_frame t f w = Some (w', nx, evs) →
  l ∈ retired (m_hp w) → l ∈ retired (m_hp w').
Proof.
  intros Hstep Hl.
  destruct f; step_cases Hstep;
    try match goal with H : cas _ _ _ _ _ _ = Some _ |- _ =>
      apply cas_hp in H as -> end; try done.
  set_solver.
Qed.

(** What a step adds to the validated snapshots is a node that is not
    before [head] in the chain. *)
Lemma step_frame_validated chain i j w lg t op f w' f' evs l :
  Shape chain i j w → FInv chain i j w lg t op f →
  step_frame t f w = Some (w', Continue f', evs) →
  l ∈ validated f' →
  l ∈ validated f ∨ ∃ k, i ≤ k ∧ chain.*1 !! k = Some l.
Proof.
  intros Sh HF Hstep.
  destruct f; step_cases Hstep;
    try match goal with b : bool |- _ => destruct b end;
    simpl; intros Hl; try (by left); try (by apply elem_of_nil in Hl).
  - destruct op as [v|]; [|done]. destruct HF as (_ & k & HA & _ & _).
    match goal with H : Pointer_neqb _ _ = false |- _ =>
      apply Pointer_neqb_false in H; subst end.
    assert (k = j) as -> by (eapply At_inj; [done|apply HA|by eapply TailSnap_now|done]).
    destruct HA as (l' & Hp & Hk). rewrite Hp in Hl. apply list_elem_of_singleton in Hl as ->.
    right. exists j. split; [apply (sh_le _ _ _ _ Sh)|done].
  - destruct op as [v|]; [done|]. destruct HF as (k & HA & _ & _).
    match goal with H : Pointer_neqb _ _ = false |- _ =>
      apply Pointer_neqb_false in H; subst end.
    assert (k = i) as -> by (eapply At_inj; [done|apply HA|by eapply HeadSnap_now|done]).
    destruct HA as (l' & Hp & Hk). rewrite Hp in Hl. apply list_elem_of_singleton in Hl as ->.
    right. by exists i.
  - destruct op as [v|]; [done|]. destruct HF as (k & k' & (HA & _ & _) & _ & _ & HN).
    match goal with H : Pointer_neqb _ _ = false |- _ =>
      apply Pointer_neqb_false in H; subst end.
    assert (k = i) as -> by (eapply At_inj; [done|apply HA|by eapply HeadSnap_now|done]).
    apply elem_of_app in Hl as [Hl|Hl]; [by left|].
    apply elem_of_option_list in Hl. right. exists (S i). split; [lia|by apply HN].
Qed.

Lemma GInv_not_retired chain i j s k l :
  GInv chain i j s → i ≤ k → chain.*1 !! k = Some l →
  l ∉ retired (m_hp (world s)).
Proof.
  intros G Hik Hk Hin.
  assert (l ∈ take i chain.*1) as Ht.
  { rewrite <- (g_retired _ _ _ _ G). set_solver. }
  apply list_elem_of_lookup in Ht as [k' Hk'].
  pose proof (lookup_lt_Some _ _ _ Hk') as Hlt. rewrite length_take in Hlt.
  rewrite lookup_take_lt in Hk' by lia.
  pose proof (NoDup_lookup _ _ _ _ (sh_nodup _ _ _ _ (g_shape _ _ _ _ G)) Hk Hk'). lia.
Qed.

Lemma start_MInv (d : T) progs : MInv d (start d progs).
Proof.
  split; [apply Reachable_init|]. split; [set_solver|].
  intros t th f Ht Hf l _. set_solver.
Qed.

Lemma act_MInv (d : T) a h :
  MInv d h →
  match a with Run t => t < length (pool (state h)) | Free _ => True end →
  ∃ h', act a h = Some h' ∧ MInv d h' ∧ length (pool (state h')) = length (pool (state h)).
Proof.
  intros (HR & Hfr & Hval) Ha.
  destruct a as [t|l]; simpl.
  - destruct (lookup_lt_is_Some_2 _ _ Ha) as [th Ht]. rewrite Ht. simpl.
    destruct (todo th) as [|op rest] eqn:Htodo.
    { by exists h. }
    destruct (Reachable_Inv _ _ HR) as (chain & i & j & G).
    pose proof (g_shape _ _ _ _ G) as Sh.
    pose proof (g_local _ _ _ _ G _ _ Ht) as HL.
    unfold LInv in HL. rewrite Htodo in HL.
    destruct (step_frame_safe _ _ _ _ _ _ _ _ Sh HL) as [[[w' nx] evs] Hf].
    assert (∀ l, l ∈ validated (default (entry op) (frame th)) → l ∉ freed h) as Hv.
    { destruct (frame th) as [f|] eqn:Hfm; simpl; [by eapply Hval|].
      intros l. destruct op; simpl; set_solver. }
    destruct (live_step t _ (freed h) _ _ Hf) as [r Hlive].
    { intros l Hl. by apply Hv, derefs_validated. }
    rewrite Hlive. simpl.
    rewrite (step_unfold _ _ _ _ _ Ht Htodo), Hf. simpl.
    eexists. split; [done|]. simpl. split; [|by rewrite length_insert].
    split; [|split]; simpl.
    + eapply Reachable_step; [done|]. by rewrite (step_unfold _ _ _ _ _ Ht Htodo), Hf.
    + intros l Hl. eapply step_frame_retired; [done|]. by apply Hfr.
    + intros t' th' f' Ht' Hf' l Hl.
      destruct (decide (t' = t)) as [->|Hne].
      * rewrite list_lookup_insert_eq in Ht' by done. simplify_eq.
        destruct nx as [f''|r']; simpl in Hf'; [|done]. simplify_eq.
        destruct (step_frame_validated _ _ _ _ _ _ _ _ _ _ _ _ Sh HL Hf Hl)
          as [Hold|(k & Hik & Hk)]; [by apply Hv|].
        intros Hin. by eapply GInv_not_retired, Hfr.
      * rewrite list_lookup_insert_ne in Ht' by done. by eapply Hval.
  - destruct (reclaimable l h) eqn:Hrec; [|by exists h].
    eexists. split; [done|]. split; [|done].
    unfold reclaimable in Hrec.
    apply andb_true_iff in Hrec as [[Hret Hnew]%andb_true_iff Hhz].
    apply bool_decide_eq_true in Hret, Hnew, Hhz.
    split; [done|]. split; simpl.
    + intros l' [->%elem_of_singleton|Hl']%elem_of_union; [done|by apply Hfr].
    + intros t th f Ht Hf l' Hl'.
      intros [->%elem_of_singleton|Hin]%elem_of_union; [|by eapply Hval].
      destruct (validated_guard _ _ Hl') as [slot Hg].
      pose proof (Reachable_HzInv _ _ HR t slot) as Hhp.
      unfold guards in Hhp. rewrite Ht in Hhp. simpl in Hhp. rewrite Hf in Hhp.
      simpl in Hhp. rewrite Hg in Hhp.
      by apply (Hhz _ _ Hhp).
Qed.

(** X5. Hazard pointers prevent use after free.  Run the threads under any
    schedule and let the context free, at any time, any retired node that
    no hazard slot holds: no step of a thread ever dereferences a freed
    node.  Every freed node was retired, and no thread holds a freed node
    among the nodes its next step dereferences. *)
Theorem hazards_prevent_use_after_free (d : T) progs (acts : list Action) :
  Forall (λ a, match a with Run t => t < length progs | Free _ => True end) acts →
  ∃ h, perform acts (start d progs) = Some h
    ∧ (∀ l, l ∈ freed h → l ∈ retired (m_hp (world (state h))))
    ∧ ∀ t th f, pool (state h) !! t = Some th → frame th = Some f →
        ∀ l, l ∈ derefs f → l ∉ freed h.
Proof.
  intros Hacts.
  assert (∀ h, MInv d h → length (pool (state h)) = length progs →
            ∃ h', perform acts h = Some h' ∧ MInv d h') as Hgen.
  { induction Hacts as [|a acts Ha _ IH]; intros h HM Hlen; simpl.
    { by exists h. }
    destruct (act_MInv d a h HM) as (h1 & Hact & HM1 & Hlen1).
    { destruct a; [by rewrite Hlen|done]. }
    rewrite Hact. simpl. apply IH; [done|congruence]. }
  destruct (Hgen (start d progs) (start_MInv d progs)) as (h & Hrun & _ & Hfr & Hval).
  { simpl. by rewrite length_fmap. }
  exists h. split; [done|]. split; [done|].
  intros t th f Ht Hf l Hl. by eapply Hval, derefs_validated.
Qed.

End Reclamation.

Section Order.
Context {T : Type}.
Implicit Types (w : World T) (f : Frame T) (chain : list (loc * T)).
Implicit Types (th : Thread T) (s : State T) (lg evs : list (Event T)).
Local Arguments cas : simpl never.

Lemma links_app lg1 lg2 : links (lg1 ++ lg2) = links lg1 ++ links lg2.
Proof. apply omap_app. Qed.

Lemma heads_app lg1 lg2 : heads (lg1 ++ lg2) = heads lg1 ++ heads lg2.
Proof. apply omap_app. Qed.

Lemma links_next t (op : Op T) nx evs : links (next_events t op nx evs) = links evs.
Proof. destruct nx; simpl; [done|]. rewrite links_app. simpl. by rewrite app_nil_r. Qed.

Lemma heads_next t (op : Op T) nx evs : heads (next_events t op nx evs) = heads evs.
Proof. destruct nx; simpl; [done|]. rewrite heads_app. simpl. by rewrite app_nil_r. Qed.

Lemma by_thread_app {A} t (l1 l2 : list (tid * A)) :
  by_thread t (l1 ++ l2) = by_thread t l1 ++ by_thread t l2.
Proof. unfold by_thread. by rewrite filter_app, fmap_app. Qed.

Lemma by_thread_own {A} t (l : list A) : by_thread t (pair t <$> l) = l.
Proof.
  unfold by_thread. induction l as [|x l IH]; [done|].
  rewrite fmap_cons, filter_cons_True by done. rewrite fmap_cons. simpl. by rewrite IH.
Qed.

Lemma by_thread_other {A} t t' (l : list A) : t' ≠ t → by_thread t' (pair t <$> l) = [].
Proof.
  intros Hne. unfold by_thread. induction l as [|x l IH]; [done|].
  by rewrite fmap_cons, filter_cons_False by (simpl; congruence).
Qed.

Lemma init_Ordered (d : T) progs : Ordered (init d progs).
Proof.
  destruct (init_Inv d progs) as (chain & i & j & G).
  exists chain, i, j, [], [].
  pose proof (g_linked _ _ _ _ G) as Hl. simpl in Hl.
  rewrite gather_spawn in Hl by done.
  apply Permutation_nil_l in Hl. symmetry in Hl. apply fmap_nil_inv in Hl.
  split; [done|]. rewrite Hl, take_nil. repeat (split; [done|]).
  intros t th (p & -> & _)%list_lookup_fmap_Some. done.
Qed.

Lemma pair_snd {A} (t : tid) (l : list A) : (pair t <$> l).*2 = l.
Proof. induction l as [|x l IH]; [done|]. rewrite !fmap_cons. simpl. by rewrite IH. Qed.

Lemma node_of_pair (t : tid) (l : list (loc * T)) :
  node_of <$> (pair t <$> l) = pair t <$> l.*1.
Proof. induction l as [|x l IH]; [done|]. rewrite !fmap_cons. by rewrite IH. Qed.

Lemma value_of_pair (t : tid) (l : list (loc * T)) :
  value_of <$> (pair t <$> l) = pair t <$> l.*2.
Proof. induction l as [|x l IH]; [done|]. rewrite !fmap_cons. by rewrite IH. Qed.

Lemma step_Ordered t s s' : Ordered s → step t s = Some s' → Ordered s'.
Proof.
  intros (chain & i & j & enqs & deqs & G & He & Hel & Hd & Hdl & Hth) Hstep.
  destruct (step_inv _ _ _ Hstep)
    as [->|(th & op & rest & w' & nx & evs & Ht & Htodo & Hf & ->)].
  { exists chain, i, j, enqs, deqs. by destruct s. }
  destruct (step_frame_trace _ _ _ _ _ _ _ _ _ _ _ G Ht Htodo Hf)
    as (chain' & i' & j' & G' & new & adv & -> & Hnew & Hlnk & Hadv & Hhd & Hdq).
  pose proof (sh_lt _ _ _ _ (g_shape _ _ _ _ G)) as Hlt.
  exists (chain ++ new), i', j', (enqs ++ (pair t <$> new)), (deqs ++ (pair t <$> adv)).
  split; [done|]. simpl.
  split; [by rewrite fmap_app, He, pair_snd, drop_app_le by lia|].
  split; [by rewrite links_app, links_next, Hnew, fmap_app, Hel, node_of_pair|].
  split; [by rewrite fmap_app, Hd, pair_snd, Hadv|].
  split; [by rewrite heads_app, heads_next, Hhd, fmap_app, Hdl, node_of_pair|].
  intros t' th' Ht'. rewrite !fmap_app, !by_thread_app, !value_of_pair.
  destruct (decide (t' = t)) as [->|Hne].
  - rewrite list_lookup_insert_eq in Ht' by (by eapply lookup_lt_Some). simplify_eq.
    destruct (Hth _ _ Ht) as [H1 H2].
    rewrite !by_thread_own, H1, H2.
    rewrite (linked_vals_next _ _ _ _ Htodo), deq_vals_next, Hlnk, Hdq.
    rewrite (linked_vals_default _ _ _ Htodo), (deq_vals_default th op).
    by rewrite !app_assoc.
  - rewrite list_lookup_insert_ne in Ht' by done.
    destruct (Hth _ _ Ht') as [H1 H2].
    rewrite !by_thread_other by done. by rewrite !app_nil_r.
Qed.

Lemma Reachable_Ordered (d : T) s : Reachable d s → Ordered s.
Proof.
  apply Reachable_invariant; [apply init_Ordered|].
  intros t s0 s' _. apply step_Ordered.
Qed.

Lemma omap_installed w (g : Event T → option (tid * loc)) lg :
  omap (λ e, installed w (g e)) lg = omap (λ p, installed w (Some p)) (omap g lg).
Proof.
  induction lg as [|e lg IH]; [done|].
  change (e :: lg) with ([e] ++ lg). rewrite !omap_app, IH. f_equal.
  simpl. by destruct (g e).
Qed.

Lemma installed_chain chain i j w (l : list (tid * (loc * T))) :
  Shape chain i j w → l.*2 ⊆ chain →
  omap (λ p, installed w (Some p)) (node_of <$> l) = value_of <$> l.
Proof.
  intros Sh. induction l as [|[t [n v]] l IH]; [done|]. intros Hsub.
  assert ((n, v) ∈ chain) as [k Hk]%list_elem_of_lookup by set_solver.
  destruct (sh_links _ _ _ _ Sh _ _ _ Hk) as (nx & Hnd & _).
  change ((t, (n, v)) :: l) with ([(t, (n, v))] ++ l).
  rewrite !fmap_app, omap_app, IH by set_solver. f_equal.
  simpl. unfold installed. simpl. by rewrite Hnd.
Qed.

(** X6. First in, first out, under any interleaving.  Take the values in
    the order in which their nodes were linked (line 92) and in the order in
    which their nodes became [head] (line 136): the second sequence is a
    prefix of the first, and so is the sequence of the nodes.  For every
    thread, the values it linked are, in order, those of its completed
    [Enqueue] calls, followed by that of its current call once its node is
    linked; the values it took are, in order, those that its [Dequeue] calls
    returned, followed by the one its current call is about to return once
    it has advanced [head]. *)
Theorem dequeue_order_is_enqueue_order (d : T) s :
  Reachable d s →
  (deq_order s).*2 `prefix_of` (enq_order s).*2
  ∧ (heads (log s)).*2 `prefix_of` (links (log s)).*2
  ∧ ∀ t th, pool s !! t = Some th →
      by_thread t (enq_order s) = linked_vals th
      ∧ by_thread t (deq_order s) = deq_vals th.
Proof.
  intros (chain & i & j & enqs & deqs & G & He & Hel & Hd & Hdl & Hth)%Reachable_Ordered.
  pose proof (g_shape _ _ _ _ G) as Sh.
  assert (enq_order s = value_of <$> enqs) as ->.
  { unfold enq_order. rewrite omap_installed. fold (links (log s)). rewrite <- Hel.
    eapply installed_chain; [done|]. rewrite He. apply subseteq_drop. }
  assert (deq_order s = value_of <$> deqs) as ->.
  { unfold deq_order. rewrite omap_installed. fold (heads (log s)). rewrite <- Hdl.
    eapply installed_chain; [done|]. rewrite Hd.
    etrans; [apply subseteq_take|apply subseteq_drop]. }
  assert (∀ l : list (tid * (loc * T)), (value_of <$> l).*2 = l.*2.*2) as Hv.
  { intros l. by rewrite <- !list_fmap_compose. }
  assert (∀ l : list (tid * (loc * T)), (node_of <$> l).*2 = l.*2.*1) as Hn.
  { intros l. by rewrite <- !list_fmap_compose. }
  split; [|split; [|done]].
  - rewrite !Hv, He, Hd, fmap_take. apply prefix_take.
  - rewrite <- Hel, <- Hdl, !Hn, He, Hd, fmap_take. apply prefix_take.
Qed.

End Order.

Section Lists.
Context {T : Type}.
Implicit Types (w : World T) (f : Frame T) (chain : list (loc * T)).
Implicit Types (th : Thread T) (s : State T) (lg evs : list (Event T)).
Local Arguments cas : simpl never.

Lemma walk_None n w : walk n w None = [].
Proof. by destruct n. Qed.

Lemma walk_chain chain i j w n :
  Shape chain i j w → ∀ k, walk n w (chain.*1 !! k) = take n (drop k chain.*1).
Proof.
  intros Sh. induction n as [|n IH]; intros k; [by rewrite walk_None || done|].
  destruct (chain.*1 !! k) as [l|] eqn:Hk.
  - destruct (Shape_lookup _ _ _ _ _ _ Sh Hk) as (v & nx & _ & Hnd & Hnx).
    simpl. rewrite Hnd. simpl. rewrite Hnx, IH.
    by rewrite (drop_S _ _ _ Hk).
  - simpl. apply lookup_ge_None in Hk. by rewrite drop_ge.
Qed.

(** X7. In every reachable state the nodes from [head] on form a list: by
    following [m_next] from [head] one meets, after finitely many nodes, a
    node whose [m_next] is null; these nodes are allocated and distinct,
    the node that [tail] denotes is one of them, and none of them was
    retired.  No node was retired twice. *)
Theorem queue_is_a_list (d : T) s :
  Reachable d s →
  ∃ n h, m_ptr (m_head (world s)) = Some h
    ∧ (∀ m, n ≤ m →
         walk m (world s) (Some h) = walk n (world s) (Some h))
    ∧ NoDup (walk n (world s) (Some h))
    ∧ (∀ l, l ∈ walk n (world s) (Some h) →
         is_Some (heap (world s) !! l) ∧ l ∉ retired (m_hp (world s)))
    ∧ (∃ tl, m_ptr (m_tail (world s)) = Some tl ∧ tl ∈ walk n (world s) (Some h))
    ∧ (∃ l nd, last (walk n (world s) (Some h)) = Some l
         ∧ heap (world s) !! l = Some nd ∧ m_ptr (m_next nd) = None)
    ∧ NoDup (retired (m_hp (world s))).
Proof.
  intros (chain & i & j & G)%Reachable_Inv.
  pose proof (g_shape _ _ _ _ G) as Sh.
  pose proof (sh_le _ _ _ _ Sh) as Hij. pose proof (sh_lt _ _ _ _ Sh) as Hjl.
  destruct (Shape_head_node _ _ _ _ Sh) as (h & vh & nd & Hi & Hh & Hnd & _ & Hnx).
  assert (chain.*1 !! i = Some h) as Hih by (by rewrite list_lookup_fmap, Hi).
  assert (∀ m, length chain ≤ m →
            walk m (world s) (Some h) = drop i chain.*1) as Hwalk.
  { intros m Hm. rewrite <- Hih, (walk_chain _ _ _ _ _ Sh).
    apply take_ge. rewrite length_drop, length_fmap. lia. }
  exists (length chain), h. split; [done|].
  split; [intros m Hm; by rewrite !Hwalk by lia|].
  rewrite Hwalk by lia.
  split; [|split; [|split; [|split]]].
  - eapply sublist_NoDup; [apply (sh_nodup _ _ _ _ Sh)|apply sublist_drop].
  - intros l [k Hk]%list_elem_of_lookup. rewrite lookup_drop in Hk.
    split; [|by eapply GInv_not_retired; [done| |done]; lia].
    destruct (Shape_lookup _ _ _ _ _ _ Sh Hk) as (v & nx & _ & Hl & _). by eexists.
  - destruct (chain.*1 !! j) as [tl|] eqn:Hj;
      [|apply lookup_ge_None in Hj; rewrite length_fmap in Hj; lia].
    exists tl. split; [by rewrite (sh_tail _ _ _ _ Sh), <- list_lookup_fmap|].
    apply list_elem_of_lookup. exists (j - i). rewrite lookup_drop.
    by replace (i + (j - i)) with j by lia.
  - destruct (chain.*1 !! (length chain - 1)) as [l|] eqn:Hl;
      [|apply lookup_ge_None in Hl; rewrite length_fmap in Hl; lia].
    destruct (Shape_lookup _ _ _ _ _ _ Sh Hl) as (v & nx & _ & Hhl & Hnl).
    exists l, {| m_value := v; m_next := nx |}. split; [|split; [done|]].
    + rewrite last_lookup, length_drop, length_fmap, lookup_drop. rewrite <- Hl.
      f_equal. lia.
    + simpl. rewrite Hnl. apply lookup_ge_None. rewrite length_fmap. lia.
  - eapply (NoDup_app (retired _) (gather pend_retire (pool s))).
    rewrite (g_retired _ _ _ _ G).
    eapply sublist_NoDup; [apply (sh_nodup _ _ _ _ Sh)|apply sublist_take].
Qed.

Lemma count_swaps_app sl lg1 lg2 :
  count_swaps sl (lg1 ++ lg2) = count_swaps sl lg1 + count_swaps sl lg2.
Proof. unfold count_swaps. by rewrite filter_app, length_app. Qed.

Lemma count_swaps_next sl t (op : Op T) nx evs :
  count_swaps sl (next_events t op nx evs) = count_swaps sl evs.
Proof.
  destruct nx; simpl; [done|]. rewrite count_swaps_app.
  unfold count_swaps at 2. destruct sl; simpl; lia.
Qed.

Lemma cas_tags t site sl e d w w1 ok evs :
  cas t site sl e d w = Some (w1, ok, evs) →
  m_count d = wrap (m_count e + 1) →
  Bumped (m_count (m_head w)) (m_count (m_head w1)) (count_swaps SHead evs)
  ∧ Bumped (m_count (m_tail w)) (m_count (m_tail w1)) (count_swaps STail evs).
Proof.
  intros (stored & Hld & -> & [(-> & -> & ->)|(-> & Hne & ->)])%cas_inv Hd.
  - destruct sl as [| |l]; simpl in *; simplify_eq.
    + split; [by right|by left].
    + split; [by left|by right].
    + destruct (heap w !! l); split; by left.
  - destruct sl; split; by left.
Qed.

Lemma step_frame_tags t f w w' nx evs :
  step_frame t f w = Some (w', nx, evs) →
  Bumped (m_count (m_head w)) (m_count (m_head w')) (count_swaps SHead evs)
  ∧ Bumped (m_count (m_tail w)) (m_count (m_tail w')) (count_swaps STail evs).
Proof.
  intros Hstep.
  destruct f; step_cases Hstep;
    try match goal with H : cas _ _ ?sl _ _ _ = Some _ |- _ =>
      by apply cas_tags in H end;
    split; by left.
Qed.

Lemma cas_nodes_tagged t site sl e d w w1 ok evs :
  cas t site sl e d w = Some (w1, ok, evs) →
  (∀ l, sl = SNext l → m_ptr e = None ∧ d = bump (m_ptr d) e ∧ is_Some (m_ptr d)) →
  nodes_tagged w → nodes_tagged w1.
Proof.
  intros (stored & Hld & -> & [(-> & -> & ->)|(-> & Hne & ->)])%cas_inv Hsl HN; [|done].
  destruct sl as [| |l]; simpl; try done.
  simpl in Hld. destruct (heap w !! l) as [ndl|] eqn:Hl; [|done].
  simpl in Hld. simplify_eq.
  destruct (Hsl l eq_refl) as (He & Hd & [x Hx]).
  intros l' nd. simpl. destruct (decide (l' = l)) as [->|Hne].
  - rewrite lookup_insert_eq. intros [= <-]. simpl. rewrite Hx, Hd. simpl.
    rewrite (HN _ _ Hl), He. done.
  - rewrite lookup_insert_ne by done. apply HN.
Qed.

Lemma step_frame_nodes_tagged t f w w' nx evs :
  step_frame t f w = Some (w', nx, evs) → nodes_tagged w → nodes_tagged w'.
Proof.
  intros Hstep HN.
  destruct f; step_cases Hstep; try done;
    try match goal with H : cas _ _ _ _ _ _ = Some _ |- _ =>
      eapply cas_nodes_tagged in H; [exact H| |done];
      intros; simplify_eq; by eauto end.
  intros l nd. simpl. destruct (decide (l = fresh (dom (heap w)))) as [->|Hne].
  - rewrite lookup_insert_eq. by intros [= <-].
  - rewrite lookup_insert_ne by done. apply HN.
Qed.

Lemma Bumped_wrap (c c' : Z) (n m : nat) :
  c = wrap (Z.of_nat m) → Bumped c c' n → c' = wrap (Z.of_nat (m + n)).
Proof.
  intros -> [[-> ->]|[-> ->]].
  - by rewrite Nat.add_0_r.
  - rewrite wrap_wrap_add. f_equal. lia.
Qed.

Lemma init_Tagged (d : T) progs : Tagged (init d progs).
Proof.
  split; [done|]. split; [done|]. simpl.
  intros l nd [<- <-]%lookup_singleton_Some. done.
Qed.

Lemma step_Tagged t s s' : Tagged s → step t s = Some s' → Tagged s'.
Proof.
  intros (Hh & Ht & HN) Hstep.
  destruct (step_inv _ _ _ Hstep)
    as [->|(th & op & rest & w' & nx & evs & _ & _ & Hf & ->)]; [done|].
  destruct (step_frame_tags _ _ _ _ _ _ Hf) as [Bh Bt].
  split; [|split]; simpl.
  - rewrite count_swaps_app, count_swaps_next. by eapply Bumped_wrap.
  - rewrite count_swaps_app, count_swaps_next. by eapply Bumped_wrap.
  - by eapply step_frame_nodes_tagged.
Qed.

(** X8. In every reachable state the tag of [head] is the number of
    successful exchanges of [head] so far, modulo [2^64], and the tag of
    [tail] is the number of successful exchanges of [tail]; the [m_next] of
    a node has the tag 0 while it is null and the tag 1 once it is set. *)
Theorem tags_count_exchanges (d : T) s :
  Reachable d s →
  m_count (m_head (world s)) = wrap (Z.of_nat (count_swaps SHead (log s)))
  ∧ m_count (m_tail (world s)) = wrap (Z.of_nat (count_swaps STail (log s)))
  ∧ ∀ l nd, heap (world s) !! l = Some nd →
      m_count (m_next nd) = match m_ptr (m_next nd) with Some _ => 1%Z | None => 0%Z end.
Proof.
  revert s. apply (Reachable_invariant d Tagged); [apply init_Tagged|].
  intros t s s' _. apply step_Tagged.
Qed.

End Lists.

Section Progress.
Context {T : Type}.
Implicit Types (w : World T) (f : Frame T) (chain : list (loc * T)).
Implicit Types (th : Thread T) (s : State T) (lg evs : list (Event T)).
Local Arguments cas : simpl never.

Lemma step_frame_rank t f w w' f' evs :
  step_frame t f w = Some (w', Continue f', evs) → 0 < rank f → rank f' < rank f.
Proof.
  intros Hstep.
  destruct f; step_cases Hstep;
    try match goal with b : bool |- _ => destruct b end; simpl; lia.
Qed.

(** A call that runs alone from the top of its loop returns. *)
Lemma solo_loop chain i j w lg t op f :
  Shape chain i j w → FInv chain i j w lg t op f → rank f = 0 →
  ∃ res, Exec 18 t f w res.
Proof.
  intros Sh HF Hr. destruct op as [v|], f; try done.
  - destruct HF as [Hn Hh].
    destruct (enq_loop t _ _ _ _ _ _ Sh Hn Hh) as (w' & evs & HE & _).
    eexists. eapply Exec_mono; [exact HE|lia].
  - pose proof (sh_le _ _ _ _ Sh). pose proof (sh_lt _ _ _ _ Sh).
    destruct (chain !! i) as [[h vh]|] eqn:Hi; [|apply lookup_ge_None in Hi; lia].
    destruct (chain !! S i) as [[x v]|] eqn:Hsi.
    + destruct (Dequeue_solo_nonempty t _ _ _ _ _ _ _ _ Sh Hi Hsi) as (w' & pre & HE & _).
      by eexists.
    + apply lookup_ge_None in Hsi. eexists.
      eapply Exec_mono; [eapply Dequeue_solo_empty; [done|lia]|lia].
Qed.

(** A call that runs alone from any of its program points returns. *)
Lemma solo_frame t op rest k :
  ∀ s th, Inv s → pool s !! t = Some th → todo th = op :: rest →
    rank (default (entry op) (frame th)) ≤ k →
    ∃ res, Exec (k + 19) t (default (entry op) (frame th)) (world s) res.
Proof.
  induction k as [|k IH]; intros s th (chain & i & j & G) Ht Htodo Hk.
  - pose proof (LInv_frame _ _ _ _ _ _ _ _ _ Htodo (g_local _ _ _ _ G _ _ Ht)) as HF.
    destruct (solo_loop _ _ _ _ _ _ _ _ (g_shape _ _ _ _ G) HF ltac:(lia)) as [res HE].
    exists res. eapply Exec_mono; [exact HE|lia].
  - pose proof (LInv_frame _ _ _ _ _ _ _ _ _ Htodo (g_local _ _ _ _ G _ _ Ht)) as HF.
    pose proof (g_shape _ _ _ _ G) as Sh.
    destruct (decide (rank (default (entry op) (frame th)) = 0)) as [H0|H0].
    { destruct (solo_loop _ _ _ _ _ _ _ _ Sh HF H0) as [res HE].
      exists res. eapply Exec_mono; [exact HE|lia]. }
    destruct (step_frame_safe _ _ _ _ _ _ _ _ Sh HF) as [[[w1 [f1|r]] evs1] Hf].
    + pose proof (step_frame_rank _ _ _ _ _ _ Hf ltac:(lia)) as Hlt.
      destruct (step_frame_GInv _ _ _ _ _ _ _ _ _ _ _ G Ht Htodo Hf)
        as (chain' & i' & j' & G').
      set (s1 := {| world := w1; pool := <[t := next_thread th op rest (Continue f1)]> (pool s);
                    log := log s ++ next_events t op (Continue f1) evs1 |}) in *.
      destruct (IH s1 (continue_thread th f1)) as [[[w' r] evs] HE].
      * by exists chain', i', j'.
      * simpl. apply list_lookup_insert_eq. by eapply lookup_lt_Some.
      * done.
      * simpl. lia.
      * eexists. eapply (Exec_continue _ _ _ _ _ _ _ _ _ _ Hf). exact HE.
    + eexists. eapply Exec_mono; [by apply Exec_return|lia].
Qed.

(** A call that returns when it runs alone from a program point is as
    many steps of its thread in the pool. *)
Lemma run_frame_pool t op rest fuel :
  ∀ s th w' r evs,
    pool s !! t = Some th → todo th = op :: rest →
    run_frame fuel t (default (entry op) (frame th)) (world s) = Finished (w', r, evs) →
    ∃ n, n ≤ fuel
      ∧ run (replicate n t) s
        = Some {| world := w'; pool := <[t := return_thread th op rest r]> (pool s);
                  log := log s ++ evs ++ [EvReturn t op r] |}.
Proof.
  induction fuel as [|fuel IH]; intros s th w' r evs Ht Htodo Hrun; [done|].
  simpl in Hrun.
  destruct (step_frame _ _ _) as [[[w1 [f1|r1]] evs1]|] eqn:Hf; [| |done].
  - destruct (run_frame fuel t f1 w1) as [[[w2 r2] evs2]| |] eqn:Hrest; try done.
    simplify_eq.
    set (s1 := {| world := w1; pool := <[t := continue_thread th f1]> (pool s);
                  log := log s ++ evs1 |}).
    destruct (IH s1 (continue_thread th f1) w' r evs2) as (n & Hn & Hrun1).
    + simpl. apply list_lookup_insert_eq. by eapply lookup_lt_Some.
    + done.
    + done.
    + exists (S n). split; [lia|]. simpl.
      rewrite (step_unfold _ _ _ _ _ Ht Htodo), Hf. simpl. fold s1.
      rewrite Hrun1. simpl. rewrite list_insert_insert_eq, <- !app_assoc. done.
  - simplify_eq. exists 1. split; [lia|]. simpl.
    rewrite (step_unfold _ _ _ _ _ Ht Htodo), Hf. done.
Qed.

(** X9. Obstruction freedom.  In every reachable state, whatever the
    other threads are in the middle of, a thread that has a call to make or
    to finish completes it in at most 28 steps of its own when it runs
    alone. *)
Theorem solo_call_completes (d : T) s t th op rest :
  Reachable d s → pool s !! t = Some th → todo th = op :: rest →
  ∃ n s' r,
    n ≤ 28
    ∧ run (replicate n t) s = Some s'
    ∧ (todo <$> pool s' !! t) = Some rest
    ∧ (results <$> pool s' !! t) = Some (results th ++ [(op, r)])
    ∧ (∀ t', t' ≠ t → pool s' !! t' = pool s !! t').
Proof.
  intros HI%Reachable_Inv Ht Htodo.
  destruct (solo_frame t op rest 9 s th HI Ht Htodo) as [[[w' r] evs] HE].
  { destruct (frame th) as [f|]; simpl; [destruct f|destruct op]; simpl; lia. }
  destruct (run_frame_pool t op rest 28 s th w' r evs Ht Htodo (HE 28 ltac:(lia)))
    as (n & Hn & Hrun).
  eexists n, _, r. split; [done|]. split; [exact Hrun|]. simpl.
  rewrite list_lookup_insert_eq by (by eapply lookup_lt_Some). simpl.
  split; [done|]. split; [done|].
  intros t' Hne. by rewrite list_lookup_insert_ne.
Qed.

End Progress.

Section Accounting.
Context {T : Type}.
Implicit Types (w : World T) (f : Frame T) (chain : list (loc * T)).
Implicit Types (th : Thread T) (s : State T) (lg evs : list (Event T)).
Local Arguments cas : simpl never.

Lemma slot_store_dom sl (p : Pointer) w : dom (heap (slot_store sl p w)) = dom (heap w).
Proof.
  destruct sl as [| |l]; simpl; try done.
  destruct (heap w !! l) eqn:E; [|done]. simpl.
  rewrite dom_insert_L. apply elem_of_dom_2 in E. set_solver.
Qed.

Lemma cas_dom t site sl e d w w1 ok evs :
  cas t site sl e d w = Some (w1, ok, evs) → dom (heap w1) = dom (heap w).
Proof.
  intros (stored & _ & _ & [(_ & _ & ->)|(_ & _ & ->)])%cas_inv; [|done].
  apply slot_store_dom.
Qed.

(** Only line 80 allocates. *)
Lemma step_frame_dom t f w w' nx evs l :
  step_frame t f w = Some (w', nx, evs) →
  l ∈ dom (heap w') ↔ l ∈ dom (heap w) ∨ (l ∈ next_nodes nx ∧ l ∉ frame_nodes f).
Proof.
  intros Hstep.
  destruct f; step_cases Hstep;
    try match goal with H : cas _ _ _ _ _ _ = Some _ |- _ =>
      apply cas_dom in H; rewrite H end;
    try match goal with b : bool |- _ => destruct b end;
    simpl; rewrite ?dom_insert; set_solver.
Qed.

(** A call keeps its node until it returns. *)
Lemma step_frame_keeps t f w w' nx evs l :
  step_frame t f w = Some (w', nx, evs) →
  l ∈ frame_nodes f → l ∈ next_nodes nx ∨ ∃ n tl, f = EnqSwing n tl.
Proof.
  intros Hstep.
  destruct f; step_cases Hstep;
    try match goal with b : bool |- _ => destruct b end;
    simpl; intros Hl;
    first [by left | by (right; eauto) | by apply elem_of_nil in Hl].
Qed.

(** The node that a step links is the node of the call. *)
Lemma step_frame_links t f w w' nx evs p :
  step_frame t f w = Some (w', nx, evs) → p ∈ links evs → p.2 ∈ frame_nodes f.
Proof.
  intros Hstep.
  destruct f; step_cases Hstep;
    try match goal with H : cas _ _ _ _ _ _ = Some _ |- _ =>
      apply cas_inv in H as (? & _ & -> & [(-> & _ & _)|(-> & _ & _)]) end;
    simpl; set_solver.
Qed.

Lemma init_Accounted (d : T) progs : Accounted (init d progs).
Proof.
  set (h := fresh (dom (∅ : gmap loc (Node T)))).
  destruct (init_Inv d progs) as (chain & i & j & G).
  exists chain, i, j. split; [done|].
  pose proof (g_shape _ _ _ _ G) as Sh.
  pose proof (g_linked _ _ _ _ G) as Hl. simpl in Hl.
  rewrite gather_spawn in Hl by done.
  apply Permutation_nil_l in Hl. symmetry in Hl. apply fmap_nil_inv in Hl.
  destruct (Shape_head_node _ _ _ _ Sh) as (h' & vh & nd & Hi & Hh & Hnd & _).
  simpl in Hh. simplify_eq.
  pose proof (sh_le _ _ _ _ Sh). pose proof (sh_lt _ _ _ _ Sh).
  assert (length chain = 1) as Hlen.
  { apply (f_equal length) in Hl. rewrite length_drop in Hl. simpl in Hl. lia. }
  assert (i = 0) as -> by lia.
  destruct chain as [|c [|??]]; try done. simpl in Hi. simplify_eq.
  intros l. simpl. rewrite dom_singleton. split.
  - intros ->%elem_of_singleton. left. set_solver.
  - intros [Hc|(t & th & (p & -> & _)%list_lookup_fmap_Some & Hin)]; set_solver.
Qed.

Lemma step_Accounted t s s' : Accounted s → step t s = Some s' → Accounted s'.
Proof.
  intros (chain & i & j & G & Hacc) Hstep.
  destruct (step_inv _ _ _ Hstep)
    as [->|(th & op & rest & w' & nx & evs & Ht & Htodo & Hf & ->)].
  { exists chain, i, j. by destruct s. }
  destruct (step_frame_trace _ _ _ _ _ _ _ _ _ _ _ G Ht Htodo Hf)
    as (chain' & i' & j' & G' & new & adv & -> & Hnew & _).
  pose proof (LInv_frame _ _ _ _ _ _ _ _ _ Htodo (g_local _ _ _ _ G _ _ Ht)) as HF.
  pose proof (g_shape _ _ _ _ G) as Sh.
  exists (chain ++ new), i', j'. split; [done|]. intros l. simpl.
  rewrite (step_frame_dom _ _ _ _ _ _ l Hf), Hacc, fmap_app, elem_of_app.
  assert (∀ n, n ∈ new.*1 → n ∈ frame_nodes (default (entry op) (frame th))) as Hn.
  { intros n Hin. apply (step_frame_links _ _ _ _ _ _ (t, n) Hf).
    rewrite Hnew. by apply list_elem_of_fmap_2. }
  assert (∀ n, n ∈ frame_nodes (default (entry op) (frame th)) →
            n ∈ next_nodes nx ∨ n ∈ chain.*1) as Hk.
  { intros n Hin.
    destruct (step_frame_keeps _ _ _ _ _ _ _ Hf Hin) as [?|(n' & tl & Heq)]; [by left|].
    right. rewrite Heq in HF, Hin. apply list_elem_of_singleton in Hin as ->.
    destruct op as [v|]; [|done]. destruct HF as (k & _ & Hc & _).
    apply list_elem_of_lookup. exists (S k). by rewrite list_lookup_fmap, Hc. }
  split.
  - intros [[Hc|(t' & th' & Ht' & Hin)]|[Hin _]].
    + by left; left.
    + destruct (decide (t' = t)) as [->|Hne].
      * assert (th' = th) as -> by congruence.
        rewrite (enq_nodes_default th op) in Hin.
        destruct (Hk _ Hin) as [?|?]; [|by left; left].
        right. exists t, (next_thread th op rest nx).
        split; [apply list_lookup_insert_eq; by eapply lookup_lt_Some|].
        by rewrite enq_nodes_next.
      * right. exists t', th'. by rewrite list_lookup_insert_ne.
    + right. exists t, (next_thread th op rest nx).
      split; [apply list_lookup_insert_eq; by eapply lookup_lt_Some|].
      by rewrite enq_nodes_next.
  - intros [[Hc|Hc]|(t' & th' & Ht' & Hin)].
    + by left; left.
    + left. right. exists t, th. split; [done|].
      rewrite (enq_nodes_default th op). by apply Hn.
    + destruct (decide (t' = t)) as [->|Hne].
      * rewrite list_lookup_insert_eq in Ht' by (by eapply lookup_lt_Some).
        simplify_eq. rewrite enq_nodes_next in Hin.
        destruct (decide (l ∈ frame_nodes (default (entry op) (frame th)))) as [Hin'|Hnin].
        -- left. right. exists t, th. split; [done|]. by rewrite (enq_nodes_default th op).
        -- by right.
      * rewrite list_lookup_insert_ne in Ht' by done. left. right. by exists t', th'.
Qed.

Lemma Reachable_Accounted (d : T) s : Reachable d s → Accounted s.
Proof.
  apply Reachable_invariant; [apply init_Accounted|].
  intros t s0 s' _. apply step_Accounted.
Qed.

(** X10. In every reachable state every allocated node is accounted for: it
    was retired, or it is the old [head] that a [Dequeue] call is about to
    retire (line 140), or it is on the list from [head], or it is the node
    of an [Enqueue] call in progress; and all these nodes are allocated. *)
Theorem every_node_is_accounted_for (d : T) s :
  Reachable d s →
  ∃ n, ∀ l,
    l ∈ dom (heap (world s))
    ↔ l ∈ retired (m_hp (world s))
      ∨ (∃ t th, pool s !! t = Some th ∧ l ∈ pend_retire th)
      ∨ l ∈ walk n (world s) (m_ptr (m_head (world s)))
      ∨ (∃ t th, pool s !! t = Some th ∧ l ∈ enq_nodes th).
Proof.
  intros (chain & i & j & G & Hacc)%Reachable_Accounted.
  pose proof (g_shape _ _ _ _ G) as Sh.
  exists (length chain). intros l.
  rewrite (sh_head _ _ _ _ Sh), <- list_lookup_fmap, (walk_chain _ _ _ _ _ Sh).
  rewrite take_ge by (rewrite length_drop, length_fmap; lia).
  rewrite Hacc. rewrite <- (take_drop i chain.*1) at 1.
  rewrite elem_of_app, <- (g_retired _ _ _ _ G), elem_of_app.
  unfold gather. rewrite list_elem_of_bind.
  split.
  - intros [[[?|(th & Hin & [t Ht]%list_elem_of_lookup)]|?]|?]; eauto 10.
  - intros [?|[(t & th & Ht & Hin)|[?|?]]]; eauto 10.
    left. left. right. exists th. split; [done|]. by eapply list_elem_of_lookup_2.
Qed.

End Accounting.

Section Destruction.
Context {T : Type}.
Implicit Types (w : World T) (f : Frame T) (chain : list (loc * T)).
Implicit Types (th : Thread T) (s : State T) (lg evs : list (Event T)).
Local Arguments cas : simpl never.

(** The destructor, run alone on a list in any shape: it retires the nodes
    from [head] to the last but one, in order, and leaves the last. *)
Lemma Destroy_Shape t chain w rounds fuel :
  18 ≤ fuel →
  ∀ i j, Shape chain i j w → length chain - i ≤ rounds →
  ∃ w' evs, Destroy rounds fuel t w = Finished (w', evs)
    ∧ Shape chain (length chain - 1) (length chain - 1) w'
    ∧ heap w' = heap w
    ∧ retired (m_hp w')
      = retired (m_hp w) ++ take (length chain - 1 - i) (drop i chain.*1).
Proof.
  intros Hfuel. revert w. induction rounds as [|rounds IH]; intros w i j Sh Hr.
  { pose proof (sh_le _ _ _ _ Sh). pose proof (sh_lt _ _ _ _ Sh). lia. }
  pose proof (sh_le _ _ _ _ Sh). pose proof (sh_lt _ _ _ _ Sh).
  destruct (chain !! i) as [[h vh]|] eqn:Hi; [|apply lookup_ge_None in Hi; lia].
  destruct (chain !! S i) as [[x v]|] eqn:Hsi.
  - pose proof (lookup_lt_Some _ _ _ Hsi).
    destruct (Dequeue_solo_nonempty t _ _ _ _ _ _ _ _ Sh Hi Hsi)
      as (w1 & pre & HE & Sh1 & Hh1 & _ & Hr1 & _).
    destruct (IH w1 (S i) _ Sh1 ltac:(lia)) as (w' & evs & HD & Sh' & Hh' & Hr').
    eexists w', _. split; [|split; [done|split; [congruence|]]].
    + simpl. unfold Dequeue. rewrite (HE fuel) by lia. by rewrite HD.
    + rewrite Hr', Hr1, <- app_assoc. f_equal.
      replace (length chain - 1 - i) with (S (length chain - 1 - S i)) by lia.
      assert (chain.*1 !! i = Some h) as Hih by (by rewrite list_lookup_fmap, Hi).
      by rewrite (drop_S _ _ _ Hih).
  - apply lookup_ge_None in Hsi.
    assert (i = length chain - 1) as Hlast by lia.
    assert (j = i) as -> by lia.
    exists (released t (AddHazard t 1 None (AddHazard t 0 (m_ptr (m_head w)) w))), [].
    split; [|split; [|split; [done|]]].
    + simpl. unfold Dequeue.
      rewrite (Dequeue_solo_empty t _ _ _ _ Sh ltac:(lia) fuel) by lia. reflexivity.
    + rewrite <- Hlast.
      by apply Shape_ReleaseHazard, Shape_ReleaseHazard, Shape_AddHazard, Shape_AddHazard.
    + simpl. rewrite Hlast, Nat.sub_diag. simpl. by rewrite app_nil_r.
Qed.

(** X11. Destruction after any run.  Once every call of every thread has
    returned, the destructor returns after at most one [Dequeue] per value
    ever enqueued plus one.  It leaves one node [h], which is both [head]
    and [tail], has no successor and was not retired; every other node ever
    allocated, one per [Enqueue] call of the run, is on the retired list,
    once. *)
Theorem destructor_after_any_run (d : T) progs sched s (t : tid) (fuel rounds : nat) :
  run sched (init d progs) = Some s → finished s →
  18 ≤ fuel → length (enqueued progs) < rounds →
  ∃ w2 evs h nd,
    Destroy rounds fuel t (world s) = Finished (w2, evs)
    ∧ m_ptr (m_head w2) = Some h ∧ m_ptr (m_tail w2) = Some h
    ∧ heap w2 !! h = Some nd ∧ m_ptr (m_next nd) = None
    ∧ (h ∉ retired (m_hp w2))
    ∧ NoDup (retired (m_hp w2))
    ∧ dom (heap w2) = {[h]} ∪ list_to_set (retired (m_hp w2))
    ∧ length (retired (m_hp w2)) = length (enqueued progs).
Proof.
  intros Hrun Hfin Hfuel Hrounds.
  assert (Reachable d s) as HR by (by exists progs, sched).
  pose proof (run_Hist _ _ _ _ (init_Hist d progs) Hrun) as HH.
  destruct (Reachable_Accounted _ _ HR) as (chain & i & j & G & Hacc).
  pose proof (g_shape _ _ _ _ G) as Sh.
  pose proof (sh_le _ _ _ _ Sh) as Hij. pose proof (sh_lt _ _ _ _ Sh) as Hjl.
  assert (∀ k th, pool s !! k = Some th → frame th = None) as Hidle.
  { intros k th Hk. pose proof (g_local _ _ _ _ G _ _ Hk) as HL.
    unfold LInv in HL. by rewrite (Forall_lookup_1 _ _ _ _ Hfin Hk) in HL. }
  assert (enqueued progs = gather linked_vals (pool s)) as Henq.
  { unfold enqueued. symmetry. apply gather_eq_bind. apply Forall2_lookup. intros k.
    pose proof (proj1 (Forall2_lookup _ _ _) HH k) as Hk.
    inversion Hk as [th p Hp Hth Hpk|]; constructor.
    eapply linked_vals_finished; [by eapply (g_local _ _ _ _ G k)| |done].
    by eapply (Forall_lookup_1 _ _ _ _ Hfin). }
  assert (length (enqueued progs) = length chain - 1) as Hlen.
  { rewrite Henq, (g_linked _ _ _ _ G), length_fmap, length_drop. done. }
  assert (gather pend_retire (pool s) = []) as Hpend.
  { unfold gather. induction (pool s) as [|th pl IH] in Hidle |- *; [done|].
    rewrite bind_cons, IH by (intros k th' Hk; apply (Hidle (S k) th' Hk)).
    unfold pend_retire. by rewrite (Hidle 0 th eq_refl). }
  pose proof (g_retired _ _ _ _ G) as Hret. rewrite Hpend, app_nil_r in Hret.
  destruct (Destroy_Shape t chain (world s) rounds fuel Hfuel i j Sh ltac:(lia))
    as (w2 & evs & HD & Sh2 & Hh2 & Hr2).
  destruct (Shape_head_node _ _ _ _ Sh2) as (h & vh & nd & Hi & Hh & Hnd & _ & Hnx).
  rewrite lookup_ge_None_2 in Hnx by (rewrite length_fmap; lia).
  assert (chain.*1 = take (length chain - 1) chain.*1 ++ [h]) as Hsplit.
  { rewrite <- (take_drop (length chain - 1) chain.*1) at 1. f_equal.
    assert (chain.*1 !! (length chain - 1) = Some h) as Hl
      by (by rewrite list_lookup_fmap, Hi).
    rewrite (drop_S _ _ _ Hl), drop_ge; [done|]. rewrite length_fmap. lia. }
  assert (retired (m_hp w2) ≡ₚ take (length chain - 1) chain.*1) as Hperm.
  { rewrite Hr2, Hret, take_drop_commute.
    replace (i + (length chain - 1 - i)) with (length chain - 1) by lia.
    rewrite <- (take_drop i (take (length chain - 1) chain.*1)) at 2.
    by rewrite take_take, Nat.min_l by lia. }
  pose proof (sh_nodup _ _ _ _ Sh) as Hnd'. rewrite Hsplit in Hnd'.
  apply NoDup_app in Hnd' as (Hnd1 & Hnd2 & _).
  exists w2, evs, h, nd.
  split; [done|]. split; [done|]. split; [by rewrite (sh_tail _ _ _ _ Sh2), Hi|].
  split; [done|]. split; [done|].
  split; [rewrite Hperm; intros Hin; apply (Hnd2 _ Hin); set_solver|].
  split; [by rewrite Hperm|]. split.
  - apply set_eq. intros l. rewrite Hh2, Hacc, elem_of_union, elem_of_singleton.
    rewrite elem_of_list_to_set, Hperm. rewrite Hsplit at 1.
    rewrite elem_of_app, list_elem_of_singleton. split.
    + intros [[?|?]|(k & th & Hk & Hin)]; [by right|by left|].
      unfold enq_nodes in Hin. rewrite (Hidle _ _ Hk) in Hin. by apply elem_of_nil in Hin.
    + intros [?|?]; left; [by right|by left].
  - rewrite Hperm, length_take, length_fmap. lia.
Qed.

End Destruction.

Section LockFree.
Context {T : Type}.
Implicit Types (w : World T) (f : Frame T) (chain : list (loc * T)).
Implicit Types (th : Thread T) (s : State T) (lg evs : list (Event T)).
Local Arguments cas : simpl never.

Lemma sum_split {A} (g : A → nat) (l : list A) t x :
  l !! t = Some x → sum_list_with g l = g x + sum_list_with g (delete t l).
Proof.
  intros H. rewrite <- (take_drop_middle l t x H) at 1.
  rewrite delete_take_drop, !sum_list_with_app. simpl. lia.
Qed.

Lemma sum_insert {A} (g : A → nat) (l : list A) t x :
  t < length l → sum_list_with g (<[t := x]> l) = g x + sum_list_with g (delete t l).
Proof.
  intros H. rewrite insert_take_drop by done.
  rewrite delete_take_drop, !sum_list_with_app. simpl. lia.
Qed.

Lemma sum_le {A} (g g' : A → nat) (c : nat) (l : list A) :
  (∀ x, g' x ≤ g x + c) → sum_list_with g' l ≤ sum_list_with g l + c * length l.
Proof.
  intros H. induction l as [|x l IH]; simpl; [lia|]. specialize (H x). lia.
Qed.

Lemma effort_bound w f : effort w f ≤ 19.
Proof. unfold effort. destruct f, (up_to_date w _); simpl; lia. Qed.

Lemma effort_any w w' f : effort w' f ≤ effort w f + 10.
Proof. unfold effort. destruct (up_to_date w' f), (up_to_date w f); lia. Qed.

Lemma owed_bound f : owed f ≤ 2.
Proof. destruct f; simpl; lia. Qed.

Lemma lag_bound w : lag w ≤ 1.
Proof. unfold lag. repeat case_match; lia. Qed.

Lemma same_view_refl w : same_view w w.
Proof. done. Qed.

Lemma same_view_hp w c : same_view w (set_hp c w).
Proof. done. Qed.

Lemma same_view_alloc w (nd : Node T) :
  same_view w (set_heap (<[fresh (dom (heap w)) := nd]> (heap w)) w).
Proof.
  split; [done|]. split; [done|]. intros l nd' H. simpl.
  rewrite lookup_insert_ne; [done|]. intros <-.
  by apply (is_fresh (dom (heap w))), elem_of_dom.
Qed.

Lemma up_to_date_view w w' f :
  same_view w w' → up_to_date w f = true → up_to_date w' f = true.
Proof.
  intros (Hh & Ht & Hheap). destruct f; simpl; rewrite ?Hh, ?Ht; try done.
  intros [H1 H2]%andb_true_iff. rewrite H1. simpl.
  destruct (m_ptr tail) as [l|]; [|done]. simpl in *.
  destruct (heap w !! l) as [nd|] eqn:E; [|done].
  by rewrite (Hheap _ _ E).
Qed.

Lemma lag_view chain i j w w' :
  Shape chain i j w → same_view w w' → lag w' = lag w.
Proof.
  intros Sh (Hh & Ht & Hheap). unfold lag. rewrite Ht.
  destruct (TailSnap_now _ _ _ _ Sh) as [HA _].
  destruct (At_heap _ _ _ _ _ _ Sh HA) as (l & v & nx & Hl & _ & Hnd & _).
  rewrite Hl. simpl. by rewrite Hnd, (Hheap _ _ Hnd).
Qed.

Lemma effort_restart w w' f f' :
  up_to_date w f = false → steps_left f' ≤ 9 → up_to_date w' f' = true →
  effort w' f' < effort w f.
Proof. unfold effort. intros -> ? ->. lia. Qed.

Lemma effort_next w w' f f' :
  steps_left f' < steps_left f →
  (up_to_date w f = true → up_to_date w' f' = true) →
  effort w' f' < effort w f.
Proof.
  unfold effort. intros ? H. destruct (up_to_date w f).
  - rewrite H by done. lia.
  - destruct (up_to_date w' f'); lia.
Qed.

Lemma Pointer_neqb_stale p q : Pointer_neqb p q = true → Pointer_eqb p q = false.
Proof. unfold Pointer_neqb. by intros ?%negb_true_iff. Qed.

Lemma Pointer_eqb_false p q : p ≠ q → Pointer_eqb p q = false.
Proof.
  intros Hne. destruct (Pointer_eqb p q) eqn:E; [|done]. by apply Pointer_eqb_eq in E.
Qed.

(** Where [tail] is behind, advancing it brings it to the last node. *)
Lemma lag_advance chain i j w w' x :
  Shape chain i j w → chain.*1 !! S j = Some x →
  heap w' = heap w → m_ptr (m_tail w') = Some x →
  lag w = 1 ∧ lag w' = 0.
Proof.
  intros Sh Hx Hheap Htl. unfold lag.
  destruct (TailSnap_now _ _ _ _ Sh) as [HA _].
  destruct (At_heap _ _ _ _ _ _ Sh HA) as (l & v & nx & Hl & _ & Hnd & Hnx).
  rewrite Hl. simpl. rewrite Hnd. simpl. rewrite Hnx, Hx. split; [done|].
  destruct (Shape_lookup _ _ _ _ _ _ Sh Hx) as (v' & nx' & _ & Hnd' & Hnx').
  rewrite Htl. simpl. rewrite Hheap, Hnd'. simpl. rewrite Hnx'.
  rewrite lookup_ge_None_2; [done|]. rewrite length_fmap. apply (sh_lag _ _ _ _ Sh).
Qed.

Ltac view := first [apply same_view_alloc | by repeat split].

Ltac quiet_step :=
  left; split; [intros ?; apply up_to_date_view; view|];
  split; [eapply lag_view; [eassumption|view]|];
  split; [done|].

Lemma step_frame_potential chain i j w lg t op f w' f' evs :
  Shape chain i j w → FInv chain i j w lg t op f →
  step_frame t f w = Some (w', Continue f', evs) →
  ((∀ f2, up_to_date w f2 = true → up_to_date w' f2 = true)
   ∧ lag w' = lag w ∧ owed f' = owed f ∧ effort w' f' < effort w f)
  ∨ (owed f' + lag w' < owed f + lag w ∧ effort w' f' ≤ 9).
Proof.
  intros Sh HF Hstep.
  destruct op as [v|], f; try done; simpl in HF, Hstep.
  - (* EnqNew *)
    simplify_eq. quiet_step. by apply effort_next; [simpl; lia|].
  - (* EnqLoadTail *)
    simplify_eq. quiet_step. apply effort_next; [simpl; lia|].
    intros _. apply Pointer_eqb_refl.
  - (* EnqHazard *)
    simplify_eq. quiet_step. by apply effort_next; [simpl; lia|].
  - (* EnqCheck *)
    destruct (Pointer_neqb tail (m_tail w)) eqn:E; simplify_eq; quiet_step.
    + apply effort_restart; [by apply Pointer_neqb_stale|simpl; lia|done].
    + by apply effort_next; [simpl; lia|].
  - (* EnqLoadNext *)
    destruct (m_ptr tail) as [tl|] eqn:Htl; [|done]. simpl in Hstep.
    destruct (heap w !! tl) as [nd|] eqn:Hnd; [|done]. simplify_eq/=.
    quiet_step. apply effort_next; [simpl; lia|]. simpl. intros ->.
    rewrite Htl. simpl. rewrite Hnd. simpl. apply Pointer_eqb_refl.
  - (* EnqCas *)
    destruct HF as (HU & k & HS & HN).
    destruct (m_ptr next) as [x|] eqn:Hx; simpl in Hstep.
    + destruct (cas _ _ _ _ _ _) as [[[w1 ok] evs1]|] eqn:Hcas; [|done].
      simplify_eq/=.
      apply cas_inv in Hcas as (stored & Hld & -> & [(-> & -> & ->)|(-> & Hne & ->)]);
        simplify_eq/=.
      * right. assert (k = j) as ->.
        { eapply At_inj; [done|apply HS|by eapply TailSnap_now|done]. }
        split; [|unfold effort; simpl; lia].
        match goal with |- context [lag ?w2] =>
          tryif constr_eq w2 w then fail else
          (destruct (lag_advance chain i j w w2 x Sh) as [H1 H2];
            [by apply HN|done|done|rewrite H1, H2; simpl; lia]) end.
      * quiet_step. apply effort_restart; [|simpl; lia|done].
        simpl. by rewrite Pointer_eqb_false.
    + destruct (m_ptr tail) as [tl|] eqn:Htl; [|done]. simpl in Hstep.
      destruct (cas _ _ _ _ _ _) as [[[w1 ok] evs1]|] eqn:Hcas; [|done].
      simplify_eq/=.
      apply cas_inv in Hcas as (stored & Hld & -> & [(-> & -> & ->)|(-> & Hne & ->)]);
        simplify_eq/=.
      * right. split; [|unfold effort; simpl; lia].
        match goal with |- context [lag ?w2] =>
          tryif constr_eq w2 w then fail else
          (pose proof (lag_bound w2); set (lag w2) in *; simpl; lia) end.
      * quiet_step. apply effort_restart; [|simpl; lia|done].
        simpl. rewrite Htl. simpl. simpl in Hld. rewrite Hld.
        rewrite (Pointer_eqb_false stored next) by done. apply andb_false_r.
  - (* EnqSwing *)
    destruct (cas _ _ _ _ _ _) as [[[w1 ok] evs1]|]; simplify_eq/=.
  - (* DeqLoadHead *)
    simplify_eq. quiet_step. apply effort_next; [simpl; lia|].
    intros _. apply Pointer_eqb_refl.
  - (* DeqHazard *)
    simplify_eq. quiet_step. by apply effort_next; [simpl; lia|].
  - (* DeqCheck *)
    destruct (Pointer_neqb head (m_head w)) eqn:E; simplify_eq; quiet_step.
    + apply effort_restart; [by apply Pointer_neqb_stale|simpl; lia|done].
    + by apply effort_next; [simpl; lia|].
  - (* DeqLoadTail *)
    simplify_eq. quiet_step. apply effort_next; [simpl; lia|].
    simpl. intros ->. apply Pointer_eqb_refl.
  - (* DeqLoadNext *)
    destruct (m_ptr head) as [hd|] eqn:Hhd; [|done]. simpl in Hstep.
    destruct (heap w !! hd) as [nd|] eqn:Hnd; [|done]. simplify_eq/=.
    quiet_step. by apply effort_next; [simpl; lia|].
  - (* DeqHazardNext *)
    simplify_eq. quiet_step. by apply effort_next; [simpl; lia|].
  - (* DeqRecheck *)
    destruct (Pointer_neqb head (m_head w)) eqn:E; simplify_eq; quiet_step.
    + apply effort_restart; [|simpl; lia|done].
      simpl. by rewrite (Pointer_neqb_stale _ _ E).
    + by apply effort_next; [simpl; lia|].
  - (* DeqBranch *)
    destruct HF as (k & l & HS & HTS & Hkl & HN).
    destruct (m_ptr next) as [x|] eqn:Hx; simpl in Hstep; [|done].
    destruct (decide (m_ptr head = m_ptr tail)) as [Heq|Hneq].
    + destruct (cas _ _ _ _ _ _) as [[[w1 ok] evs1]|] eqn:Hcas; [|done].
      simplify_eq/=.
      apply cas_inv in Hcas as (stored & Hld & -> & [(-> & -> & ->)|(-> & Hne & ->)]);
        simplify_eq/=.
      * right. assert (l = j) as ->.
        { eapply At_inj; [done|apply HTS|by eapply TailSnap_now|done]. }
        assert (k = j) as ->.
        { eapply At_inj; [done|apply HS|apply HTS|done]. }
        split; [|unfold effort; simpl; lia].
        match goal with |- context [lag ?w2] =>
          tryif constr_eq w2 w then fail else
          (destruct (lag_advance chain i j w w2 x Sh) as [H1 H2];
            [by apply HN|done|done|rewrite H1, H2; simpl; lia]) end.
      * quiet_step. apply effort_restart; [|simpl; lia|done].
        simpl. rewrite (Pointer_eqb_false tail (m_tail w)) by congruence.
        apply andb_false_r.
    + destruct (heap w !! x) as [nd|] eqn:Hnd; [|done]. simplify_eq/=.
      quiet_step. apply effort_next; [simpl; lia|].
      simpl. by intros [-> _]%andb_true_iff.
  - (* DeqCas *)
    destruct (cas _ _ _ _ _ _) as [[[w1 ok] evs1]|] eqn:Hcas; [|done].
    simplify_eq/=.
    apply cas_inv in Hcas as (stored & Hld & -> & [(-> & -> & ->)|(-> & Hne & ->)]);
      simplify_eq/=.
    + right. split; [|unfold effort; simpl; lia].
      match goal with |- context [lag ?w2] =>
        tryif constr_eq w2 w then fail else
        (change (lag w2) with (lag w); simpl; lia) end.
    + quiet_step. apply effort_restart; [|simpl; lia|done].
      simpl. by rewrite Pointer_eqb_false.
  - (* DeqRetire *)
    destruct (m_ptr head); simplify_eq/=.
Qed.

Lemma sum_bound {A} (g : A → nat) (c : nat) (l : list A) :
  (∀ x, g x ≤ c) → sum_list_with g l ≤ c * length l.
Proof.
  intros H. induction l as [|x l IH]; simpl; [lia|]. specialize (H x). lia.
Qed.

Lemma potential_bound s :
  potential s ≤ 20 * length (pool s) * length (pool s) + 29 * length (pool s).
Proof.
  unfold potential.
  pose proof (sum_bound owed_by 2 (pool s)) as H1.
  pose proof (sum_bound (effort_of (world s)) 19 (pool s)) as H2.
  pose proof (lag_bound (world s)) as H3.
  assert (sum_list_with owed_by (pool s) ≤ 2 * length (pool s)) as H1'.
  { apply H1. intros th. unfold owed_by. destruct (current th); simpl; [apply owed_bound|lia]. }
  assert (sum_list_with (effort_of (world s)) (pool s) ≤ 19 * length (pool s)) as H2'.
  { apply H2. intros th. unfold effort_of. destruct (current th); simpl; [apply effort_bound|lia]. }
  nia.
Qed.

Lemma current_continue th op rest f' :
  todo th = op :: rest → current (continue_thread th f') = Some f'.
Proof. intros H. unfold current. simpl. by rewrite H. Qed.

Lemma current_default th op rest :
  todo th = op :: rest → current th = Some (default (entry op) (frame th)).
Proof. intros H. unfold current. by rewrite H. Qed.

(** A step of a call that does not return uses up some of the potential. *)
Lemma step_potential s t th op rest s' :
  Inv s → pool s !! t = Some th → todo th = op :: rest →
  step t s = Some s' → calls_done s' = calls_done s →
  potential s' < potential s ∧ todo <$> pool s' = todo <$> pool s.
Proof.
  intros (chain & i & j & G) Ht Htodo Hstep Hdone.
  pose proof (g_shape _ _ _ _ G) as Sh.
  pose proof (LInv_frame _ _ _ _ _ _ _ _ _ Htodo (g_local _ _ _ _ G _ _ Ht)) as HF.
  pose proof (lookup_lt_Some _ _ _ Ht) as Hlt.
  rewrite (step_unfold _ _ _ _ _ Ht Htodo) in Hstep.
  destruct (step_frame _ _ _) as [[[w' [f'|r]] evs]|] eqn:Hf; [| |done];
    simpl in Hstep; simplify_eq.
  - split.
    2:{ simpl. rewrite list_fmap_insert. simpl. apply list_insert_id.
        by rewrite list_lookup_fmap, Ht; simpl; rewrite Htodo. }
    unfold potential. simpl. rewrite length_insert.
    rewrite !(sum_insert _ _ _ _ Hlt), !(sum_split _ _ _ _ Ht).
    unfold owed_by, effort_of.
    rewrite (current_continue _ _ _ _ Htodo), (current_default _ _ _ Htodo). simpl.
    fold (@owed_by T). fold (effort_of w'). fold (effort_of (world s)).
    pose proof (length_delete (pool s) t ltac:(eauto)) as Hlen.
    destruct (step_frame_potential _ _ _ _ _ _ _ _ _ _ _ Sh HF Hf)
      as [(Hup & Hlag & Howed & Heff)|(Hdebt & Heff)].
    + assert (sum_list_with (effort_of w') (delete t (pool s))
              ≤ sum_list_with (effort_of (world s)) (delete t (pool s))
                + 0 * length (delete t (pool s))) as HE.
      { apply sum_le. intros th2. unfold effort_of.
        destruct (current th2) as [f2|]; simpl; [|lia].
        unfold effort. specialize (Hup f2).
        destruct (up_to_date (world s) f2); [rewrite Hup by done; lia|].
        destruct (up_to_date w' f2); lia. }
      rewrite Hlag, Howed. lia.
    + assert (sum_list_with (effort_of w') (delete t (pool s))
              ≤ sum_list_with (effort_of (world s)) (delete t (pool s))
                + 10 * length (delete t (pool s))) as HE.
      { apply sum_le. intros th2. unfold effort_of.
        destruct (current th2) as [f2|]; simpl; [apply effort_any|lia]. }
      nia.
  - exfalso. unfold calls_done in Hdone. simpl in Hdone.
    rewrite (sum_insert _ _ _ _ Hlt), (sum_split _ _ _ _ Ht) in Hdone. simpl in Hdone.
    rewrite length_app in Hdone. simpl in Hdone. lia.
Qed.

Lemma step_calls_done t s s' : step t s = Some s' → calls_done s ≤ calls_done s'.
Proof.
  intros Hstep.
  destruct (step_inv _ _ _ Hstep)
    as [->|(th & op & rest & w' & nx & evs & Ht & Htodo & Hf & ->)]; [done|].
  pose proof (lookup_lt_Some _ _ _ Ht) as Hlt.
  unfold calls_done. simpl.
  rewrite (sum_insert _ _ _ _ Hlt), (sum_split _ _ _ _ Ht).
  destruct nx; simpl; [lia|]. rewrite length_app. lia.
Qed.

Lemma run_calls_done sched s s' : run sched s = Some s' → calls_done s ≤ calls_done s'.
Proof.
  revert s. induction sched as [|t sched IH]; intros s Hrun; simpl in Hrun.
  { by simplify_eq. }
  destruct (step t s) as [s1|] eqn:Hs; [|done]. simpl in Hrun.
  pose proof (step_calls_done _ _ _ Hs). pose proof (IH _ Hrun). lia.
Qed.

(** As long as no call returns, every step of a call in progress uses up
    some of the potential. *)
Lemma run_potential sched :
  ∀ s s', Inv s → run sched s = Some s' →
    Forall (λ t, ∃ op rest, (todo <$> pool s) !! t = Some (op :: rest)) sched →
    calls_done s' = calls_done s →
    length sched + potential s' ≤ potential s.
Proof.
  induction sched as [|t sched IH]; intros s s' HI Hrun Hact Hdone; simpl in Hrun.
  { simplify_eq. simpl. lia. }
  destruct (step t s) as [s1|] eqn:Hs; [|done]. simpl in Hrun.
  apply Forall_cons in Hact as [(op & rest & Ht) Hact].
  apply list_lookup_fmap_Some in Ht as (th & Htodo & Ht).
  pose proof (step_calls_done _ _ _ Hs) as H1.
  pose proof (run_calls_done _ _ _ Hrun) as H2.
  destruct (step_potential s t th op rest s1 HI Ht (eq_sym Htodo) Hs ltac:(lia))
    as [Hpot Hsame].
  pose proof (IH s1 s' (step_Inv _ _ _ HI Hs) Hrun) as IH'.
  rewrite Hsame in IH'. specialize (IH' Hact ltac:(lia)). simpl. lia.
Qed.

(** X12. Lock freedom.  Take any reachable state and any schedule of [n]
    threads in which only threads with a call to make or to finish are
    run: if the schedule is longer than [20 n^2 + 29 n] steps, at least one
    call has returned by the end of it, whatever the interleaving. *)
Theorem some_call_returns (d : T) s sched s' :
  Reachable d s → run sched s = Some s' →
  Forall (λ t, ∃ th op rest, pool s !! t = Some th ∧ todo th = op :: rest) sched →
  20 * length (pool s) * length (pool s) + 29 * length (pool s) < length sched →
  calls_done s < calls_done s'.
Proof.
  intros HI%Reachable_Inv Hrun Hact Hlen.
  pose proof (run_calls_done _ _ _ Hrun) as Hmono.
  destruct (decide (calls_done s' = calls_done s)) as [Heq|Hne]; [|lia].
  pose proof (run_potential sched s s' HI Hrun) as Hpot.
  pose proof (potential_bound s).
  assert (length sched + potential s' ≤ potential s); [|lia].
  apply Hpot; [|done].
  eapply Forall_impl; [exact Hact|]. intros t (th & op & rest & Ht & Htodo).
  exists op, rest. by rewrite list_lookup_fmap, Ht; simpl; rewrite Htodo.
Qed.

End LockFree.

Section EmptyResults.
Context {T : Type}.
Implicit Types (w : World T) (f : Frame T) (chain : list (loc * T)).
Implicit Types (th : Thread T) (s : State T) (lg evs : list (Event T)).
Local Arguments cas : simpl never.

(** Induction on a run, with the schedule so far. *)
Lemma run_invariant (d : T) progs (P : list tid → State T → Prop) :
  P [] (init d progs) →
  (∀ sched s t s',
     run sched (init d progs) = Some s → P sched s → step t s = Some s' →
     P (sched ++ [t]) s') →
  ∀ sched s, run sched (init d progs) = Some s → P sched s.
Proof.
  intros Hinit Hstep sched.
  induction sched as [|t sched IH] using rev_ind; intros s Hrun.
  - simpl in Hrun. by simplify_eq.
  - rewrite run_snoc in Hrun.
    destruct (run sched (init d progs)) as [s1|] eqn:H1; [|done].
    simpl in Hrun. eapply Hstep; [done|by apply IH|done].
Qed.

Lemma Earlier_later (d : T) progs sched t' t rs s0 :
  Earlier d progs sched t rs s0 → Earlier d progs (sched ++ [t']) t rs s0.
Proof.
  intros (sched1 & th0 & Hp & ?). exists sched1, th0.
  split; [by apply prefix_app_r|done].
Qed.

Lemma Seen_later chain i hd s0 (new : list (loc * T)) i' :
  i < length chain → i ≤ i' → Seen chain i hd s0 → Seen (chain ++ new) i' hd s0.
Proof.
  intros Hlt Hle (k & i0 & h & nd0 & Hk & Hh & Hki & Hi0 & Hhd & Hnd & Hnx).
  exists k, i0, h, nd0. rewrite fmap_app.
  split; [by apply lookup_app_l_Some|]. split; [done|]. split; [done|].
  split; [lia|]. split; [|done].
  rewrite lookup_app_l by (rewrite length_fmap; lia). done.
Qed.

Lemma Witness_later (d : T) progs sched chain i t rs f t' (new : list (loc * T)) i' :
  i < length chain → i ≤ i' →
  Witness d progs sched chain i t rs f →
  Witness d progs (sched ++ [t']) (chain ++ new) i' t rs f.
Proof.
  intros Hlt Hle. destruct f; try done; simpl; intros HW Hnx;
    destruct (HW Hnx) as (s0 & HE & HS); exists s0;
    (split; [by apply Earlier_later|]); try done; by eapply Seen_later.
Qed.

Lemma default_frame th (op : Op T) f :
  default (entry op) (frame th) = f → f ≠ entry op → frame th = Some f.
Proof. destruct (frame th); simpl; congruence. Qed.

(** What the call knows after a step of its own. *)
Lemma step_Witness (d : T) progs sched chain i j s t th op rest w' f' evs
    (new : list (loc * T)) i' :
  run sched (init d progs) = Some s →
  GInv chain i j s → pool s !! t = Some th → todo th = op :: rest →
  step_frame t (default (entry op) (frame th)) (world s) = Some (w', Continue f', evs) →
  (∀ f, frame th = Some f → Witness d progs sched chain i t (results th) f) →
  i ≤ i' →
  Witness d progs (sched ++ [t]) (chain ++ new) i' t (results th) f'.
Proof.
  intros Hrun G Ht Htodo Hf HW Hle.
  pose proof (g_shape _ _ _ _ G) as Sh.
  pose proof (sh_lt _ _ _ _ Sh) as Hjl. pose proof (sh_le _ _ _ _ Sh) as Hij.
  pose proof (LInv_frame _ _ _ _ _ _ _ _ _ Htodo (g_local _ _ _ _ G _ _ Ht)) as HF.
  remember (default (entry op) (frame th)) as f eqn:Hdef. symmetry in Hdef.
  destruct f; step_cases Hf;
    try match goal with b : bool |- _ => destruct b end; try done.
  - (* line 117 *)
    intros Hnx. exists s. split.
    + exists sched, th. split; [by apply prefix_app_r|]. repeat (split; [done|]).
      rewrite (default_frame _ _ _ Hdef); [by eexists|by destruct op].
    + destruct op as [v|]; [done|].
      destruct HF as (k & l & ((h & Hh & Hk) & Hki & _) & _).
      simplify_eq. eexists k, i, _, _. rewrite fmap_app.
      split; [by apply lookup_app_l_Some|]. split; [done|]. split; [done|].
      split; [done|]. split; [|done].
      rewrite (sh_head _ _ _ _ Sh), <- list_lookup_fmap.
      by rewrite lookup_app_l by (rewrite length_fmap; lia).
  - (* line 118 *)
    assert (frame th = Some (DeqHazardNext head tail next)) as Hfr
      by (apply (default_frame _ op); [done|by destruct op]).
    exact (Witness_later d progs sched chain i t _ (DeqHazardNext head tail next)
             t new i' ltac:(lia) Hle (HW _ Hfr)).
  - (* line 120 *)
    assert (frame th = Some (DeqRecheck head tail next)) as Hfr
      by (apply (default_frame _ op); [done|by destruct op]).
    intros Hnx.
    destruct (HW _ Hfr Hnx)
      as (s0 & HE & (k & i0 & h & nd0 & Hk & Hh & Hki & Hi0 & Hhd & Hnd & Hnull)).
    exists s0. split; [by apply Earlier_later|].
    match goal with H : Pointer_neqb _ _ = false |- _ =>
      apply Pointer_neqb_false in H; subst head end.
    assert (chain.*1 !! i = Some h) as Hi
      by (by rewrite list_lookup_fmap, <- (sh_head _ _ _ _ Sh)).
    assert (k = i) as -> by (eapply NoDup_lookup; [apply (sh_nodup _ _ _ _ Sh)|done..]).
    assert (i0 = i) as -> by lia.
    unfold empty. rewrite Hhd, Hi. simpl. by rewrite Hnd, Hnull.
Qed.

Lemma init_WInv (d : T) progs : WInv d progs [] (init d progs).
Proof.
  destruct (init_Inv d progs) as (chain & i & j & G).
  exists chain, i, j. split; [done|].
  intros t th f (p & -> & _)%list_lookup_fmap_Some Hf. done.
Qed.

Lemma step_WInv (d : T) progs sched s t s' :
  run sched (init d progs) = Some s → WInv d progs sched s → step t s = Some s' →
  WInv d progs (sched ++ [t]) s'.
Proof.
  intros Hrun (chain & i & j & G & HW) Hstep.
  pose proof (sh_lt _ _ _ _ (g_shape _ _ _ _ G)) as Hjl.
  pose proof (sh_le _ _ _ _ (g_shape _ _ _ _ G)) as Hij.
  destruct (step_inv _ _ _ Hstep)
    as [->|(th & op & rest & w' & nx & evs & Ht & Htodo & Hf & ->)].
  { exists chain, i, j. split; [by destruct s|]. simpl.
    intros t' th' f Ht' Hfr. rewrite <- (app_nil_r chain).
    eapply (Witness_later _ _ _ _ i); [lia|done|]. by eapply HW. }
  destruct (step_frame_trace _ _ _ _ _ _ _ _ _ _ _ G Ht Htodo Hf)
    as (chain' & i' & j' & G' & new & adv & -> & _ & _ & Hadv & _).
  assert (i ≤ i') as Hle.
  { apply (f_equal length) in Hadv.
    rewrite length_app, !length_take, !length_drop in Hadv. lia. }
  exists (chain ++ new), i', j'. split; [done|]. simpl.
  intros t' th' f Ht' Hfr.
  destruct (decide (t' = t)) as [->|Hne].
  - rewrite list_lookup_insert_eq in Ht' by (by eapply lookup_lt_Some). simplify_eq.
    destruct nx as [f'|r]; simpl in Hfr; [|done]. simplify_eq. simpl.
    eapply step_Witness; try done. intros f0 Hf0. by eapply HW.
  - rewrite list_lookup_insert_ne in Ht' by done.
    eapply (Witness_later _ _ _ _ i); [lia|done|]. by eapply HW.
Qed.

Lemma run_WInv (d : T) progs sched s :
  run sched (init d progs) = Some s → WInv d progs sched s.
Proof.
  revert sched s. apply (run_invariant d progs (WInv d progs)); [apply init_WInv|].
  intros sched s t s'. apply step_WInv.
Qed.

(** X13. An empty result is a true one.  When a [Dequeue] call returns the
    empty optional, the run went through a state in which the queue was
    empty (the [m_next] of the node at [head] was null), at a time when the
    call was already under way. *)
Theorem empty_result_was_true (d : T) progs sched s t th s' :
  run sched (init d progs) = Some s →
  pool s !! t = Some th → step t s = Some s' →
  (results <$> pool s' !! t) = Some (results th ++ [(OpDequeue, RetOpt None)]) →
  ∃ sched1 s0 th0,
    sched1 `prefix_of` sched ∧ run sched1 (init d progs) = Some s0
    ∧ empty (world s0) = true
    ∧ pool s0 !! t = Some th0 ∧ results th0 = results th ∧ is_Some (frame th0).
Proof.
  intros Hrun Ht Hstep Hres.
  destruct (run_WInv _ _ _ _ Hrun) as (chain & i & j & G & HW).
  destruct (step_inv _ _ _ Hstep)
    as [->|(th1 & op & rest & w' & nx & evs & Ht1 & Htodo & Hf & ->)].
  { simpl in Hres. rewrite Ht in Hres. simpl in Hres. injection Hres as Hres.
    apply (f_equal length) in Hres. rewrite length_app in Hres. simpl in Hres. lia. }
  assert (th1 = th) as -> by congruence.
  simpl in Hres. rewrite list_lookup_insert_eq in Hres by (by eapply lookup_lt_Some).
  destruct nx as [f'|r]; simpl in Hres; injection Hres as Hres.
  { apply (f_equal length) in Hres. rewrite length_app in Hres. simpl in Hres. lia. }
  apply app_inv_head in Hres. injection Hres as -> ->.
  remember (default (entry OpDequeue) (frame th)) as f eqn:Hdef. symmetry in Hdef.
  assert (∃ hd tl nxp, f = DeqBranch hd tl nxp ∧ m_ptr nxp = None) as (hd & tl & nxp & -> & Hnx).
  { destruct f; step_cases Hf; eauto. }
  assert (frame th = Some (DeqBranch hd tl nxp)) as Hfr
    by (by apply (default_frame _ OpDequeue)).
  destruct (HW _ _ _ Ht Hfr Hnx) as (s0 & (sched1 & th0 & Hp & Hr & Ht0 & Hrs & Hfr0) & He).
  by exists sched1, s0, th0.
Qed.

End EmptyResults.

(** ** Appended nodes, completed runs, empty calls *)

Section Appending.
Context {T : Type}.
Implicit Types (w : World T) (f : Frame T) (chain : list (loc * T)).
Implicit Types (th : Thread T) (s : State T) (lg evs : list (Event T)).
Local Arguments cas : simpl never.

Lemma untouched_heap w0 w w' : heap w' = heap w → untouched w0 w → untouched w0 w'.
Proof. intros H Hu l nd Hl. rewrite H. by apply Hu. Qed.

Lemma linked_behind_heap n w0 w w' l :
  heap w' = heap w → linked_behind n w0 w l → linked_behind n w0 w' l.
Proof. intros H (nd & ? & ? & ? & ?). exists nd. by rewrite H. Qed.

Lemma cas_heap t site sl e d w w1 ok evs :
  cas t site sl e d w = Some (w1, ok, evs) → (∀ l, sl ≠ SNext l) → heap w1 = heap w.
Proof.
  intros (stored & _ & _ & [(_ & _ & ->)|(_ & _ & ->)])%cas_inv Hsl; [|done].
  destruct sl as [| |l]; [done..|]. by destruct (Hsl l).
Qed.

(** One step of an [Enqueue] call, seen from the nodes of [w0]. *)
Lemma step_frame_enqueuing n w0 t f w w' nx evs :
  step_frame t f w = Some (w', nx, evs) → enqueuing n w0 f w →
  match nx with
  | Continue f' => enqueuing n w0 f' w'
  | Return _ => untouched w0 w' ∨ ∃ l, linked_behind n w0 w' l
  end.
Proof.
  intros Hstep He.
  destruct f; try done; destruct He as [-> Hu]; step_cases Hstep;
    try (split; [done|]); try done;
    try (by eapply untouched_heap; [|done]).
  - (* line 96 *)
    match goal with H : cas _ _ _ _ _ _ = Some _ |- _ =>
      apply cas_heap in H; [|done] end.
    eapply untouched_heap; [|done]. done.
  - (* line 92 *)
    match goal with H : cas _ _ _ _ _ _ = Some _ |- _ =>
      apply cas_inv in H as (stored & Hld & _ & [(-> & -> & ->)|(-> & _ & ->)]) end;
      [|split; [done|by eapply untouched_heap; [|done]]].
    split; [done|]. simpl in Hld.
    match type of Hld with context [heap w !! ?x] =>
      rename x into tl; destruct (heap w !! tl) as [nd|] eqn:Htl; [|done] end.
    simpl in Hld. simplify_eq. simpl. rewrite Htl. simpl.
    destruct (heap w0 !! tl) as [nd0|] eqn:H0.
    + right. exists tl, nd0. pose proof (Hu _ _ H0). simplify_eq.
      split; [done|]. split; [done|]. split; [simpl; by rewrite lookup_insert_eq|].
      intros l' nd' Hne Hl'. simpl. rewrite lookup_insert_ne by done. by apply Hu.
    + left. intros l' nd' Hl'. simpl.
      rewrite lookup_insert_ne by (intros <-; congruence). by apply Hu.
  - (* line 100 *)
    match goal with H : cas _ _ _ _ _ _ = Some _ |- _ =>
      apply cas_heap in H; [|done] end.
    destruct Hu as [Hu|[l Hl]]; [left|right].
    + by eapply untouched_heap.
    + exists l. by eapply linked_behind_heap.
Qed.

Lemma run_frame_enqueuing n w0 t fuel :
  ∀ f w w' r evs,
    run_frame fuel t f w = Finished (w', r, evs) → enqueuing n w0 f w →
    untouched w0 w' ∨ ∃ l, linked_behind n w0 w' l.
Proof.
  induction fuel as [|fuel IH]; intros f w w' r evs Hrun He; [done|].
  simpl in Hrun.
  destruct (step_frame t f w) as [[[w1 [f1|r1]] evs1]|] eqn:Hf; [| |done].
  - pose proof (step_frame_enqueuing _ _ _ _ _ _ _ _ Hf He) as He1.
    destruct (run_frame fuel t f1 w1) as [[[w2 r2] evs2]| |] eqn:Hrest; try done.
    simplify_eq. by eapply IH.
  - pose proof (step_frame_enqueuing _ _ _ _ _ _ _ _ Hf He) as He1.
    by simplify_eq.
Qed.

(** An [Enqueue] call that runs alone changes at most one node of the
    state it starts from. *)
Lemma Enqueue_touches_one t v w fuel w' r evs :
  Enqueue fuel t v w = Finished (w', r, evs) →
  untouched w w' ∨ ∃ l, linked_behind (fresh (dom (heap w))) w w' l.
Proof.
  destruct fuel as [|fuel]; [done|]. unfold Enqueue. simpl.
  destruct (run_frame fuel t _ _) as [[[w2 r2] evs2]| |] eqn:Hrest; try done.
  intros ?. simplify_eq.
  eapply run_frame_enqueuing; [exact Hrest|].
  split; [done|]. intros l nd Hl. simpl.
  rewrite lookup_insert_ne; [done|].
  intros <-. by apply (is_fresh (dom (heap w))), elem_of_dom.
Qed.

(** X2. In every reachable state an [Enqueue(v)] that runs without
    interference returns within 12 steps.  It allocates one node [n], which
    holds [v] and has no successor, and links it behind the last node [l]
    of the list: the [m_next] of [l] goes from null to [n], with the tag
    plus one.  The list that starts at [head] is the former one followed by
    [n], and [tail] denotes [n].  The value of [l], every other node,
    [head] and the retired list are left as they were. *)
Theorem solo_enqueue_appends (d : T) s (t : tid) (v : T) :
  Reachable d s →
  ∃ w' evs n l nd k,
    (∀ fuel, 12 ≤ fuel → Enqueue fuel t v (world s) = Finished (w', RetVoid, evs))
    ∧ heap (world s) !! n = None
    ∧ (∃ ndn, heap w' !! n = Some ndn ∧ m_value ndn = v ∧ m_ptr (m_next ndn) = None)
    ∧ last (walk k (world s) (m_ptr (m_head (world s)))) = Some l
    ∧ heap (world s) !! l = Some nd ∧ m_ptr (m_next nd) = None
    ∧ heap w' !! l
      = Some {| m_value := m_value nd; m_next := bump (Some n) (m_next nd) |}
    ∧ (∀ l' nd', l' ≠ l → heap (world s) !! l' = Some nd' → heap w' !! l' = Some nd')
    ∧ dom (heap w') = {[n]} ∪ dom (heap (world s))
    ∧ (∀ m, k ≤ m →
         walk (S m) w' (m_ptr (m_head w'))
         = walk k (world s) (m_ptr (m_head (world s))) ++ [n])
    ∧ m_ptr (m_tail w') = Some n
    ∧ m_head w' = m_head (world s)
    ∧ retired (m_hp w') = retired (m_hp (world s)).
Proof.
  intros (chain & i & j & Sh)%Reachable_Shape.
  pose proof (sh_le _ _ _ _ Sh) as Hij. pose proof (sh_lt _ _ _ _ Sh) as Hjl.
  destruct (Enqueue_solo t _ _ _ _ v Sh) as (w' & evs & HE & Sh' & Hh & Hr & _ & Hd).
  set (n := fresh (dom (heap (world s)))) in *.
  assert (heap (world s) !! n = None) as Hn by (apply not_elem_of_dom, is_fresh).
  assert ((chain ++ [(n, v)]) !! length chain = Some (n, v)) as Hlast.
  { rewrite lookup_app_r by lia. by rewrite Nat.sub_diag. }
  (* the last node of the list *)
  destruct (chain !! (length chain - 1)) as [[l vl]|] eqn:Hl;
    [|apply lookup_ge_None in Hl; lia].
  destruct (sh_links _ _ _ _ Sh _ _ _ Hl) as (nxl & Hnd & Hnxl).
  rewrite lookup_ge_None_2 in Hnxl by lia. simpl in Hnxl.
  destruct (sh_links _ _ _ _ Sh' (length chain - 1) l vl) as (nxl' & Hnd' & Hnxl').
  { by apply lookup_app_l_Some. }
  replace (S (length chain - 1)) with (length chain) in Hnxl' by lia.
  rewrite Hlast in Hnxl'. simpl in Hnxl'.
  (* the walks *)
  assert (∀ m, length chain ≤ m →
            walk m (world s) (m_ptr (m_head (world s))) = drop i chain.*1) as Hwalk.
  { intros m Hm. rewrite (sh_head _ _ _ _ Sh), <- list_lookup_fmap.
    rewrite (walk_chain _ _ _ _ _ Sh). apply take_ge.
    rewrite length_drop, length_fmap. lia. }
  assert (∀ m, length chain ≤ m →
            walk (S m) w' (m_ptr (m_head w')) = drop i chain.*1 ++ [n]) as Hwalk'.
  { intros m Hm. rewrite (sh_head _ _ _ _ Sh'), <- list_lookup_fmap.
    rewrite (walk_chain _ _ _ _ _ Sh'), fmap_app. simpl.
    rewrite drop_app_le by (rewrite length_fmap; lia).
    apply take_ge. rewrite length_app, length_drop, length_fmap. simpl. lia. }
  (* the one node that has changed *)
  destruct (Enqueue_touches_one _ _ _ _ _ _ _ (HE 12 (le_n _))) as [Hu|[l0 Hl0]].
  { pose proof (Hu _ _ Hnd) as Hsame. rewrite Hnd' in Hsame. congruence. }
  destruct Hl0 as (nd0 & Hnd0 & Hnull & Hnew & Hothers).
  assert (l0 = l) as ->.
  { destruct (decide (l0 = l)) as [|Hne]; [done|].
    pose proof (Hothers _ _ (not_eq_sym Hne) Hnd) as Hsame.
    rewrite Hnd' in Hsame. congruence. }
  exists w', evs, n, l, nd0, (length chain).
  split; [exact HE|]. split; [exact Hn|].
  split.
  { destruct (sh_links _ _ _ _ Sh' _ _ _ Hlast) as (nx & Hndn & Hnx).
    rewrite lookup_ge_None_2 in Hnx by (rewrite length_app; simpl; lia).
    eexists. split; [exact Hndn|done]. }
  split.
  { rewrite Hwalk by lia. rewrite last_lookup, length_drop, length_fmap, lookup_drop.
    replace (i + pred (length chain - i)) with (length chain - 1) by lia.
    by rewrite list_lookup_fmap, Hl. }
  split; [done|]. split; [done|]. split; [done|]. split; [done|]. split; [done|].
  split; [intros m Hm; by rewrite Hwalk', Hwalk by lia|].
  split; [by rewrite (sh_tail _ _ _ _ Sh'), Hlast|]. done.
Qed.

End Appending.

Section Completion.
Context {T : Type}.
Implicit Types (w : World T) (f : Frame T) (chain : list (loc * T)).
Implicit Types (th : Thread T) (s : State T) (lg evs : list (Event T)).
Local Arguments cas : simpl never.

Lemma run_app sched1 sched2 s :
  run (sched1 ++ sched2) s = run sched1 s ≫= run sched2.
Proof.
  revert s. induction sched1 as [|t sched1 IH]; intros s; simpl; [done|].
  destruct (step t s) as [s1|]; simpl; [apply IH|done].
Qed.

Lemma calls_left_zero s : calls_left s = 0 → finished s.
Proof.
  unfold calls_left, finished. induction (pool s) as [|th pl IH]; simpl; intros H.
  - constructor.
  - constructor; [|apply IH; lia]. destruct (todo th); [done|simpl in H; lia].
Qed.

Lemma calls_left_pos s :
  calls_left s ≠ 0 → ∃ t th op rest, pool s !! t = Some th ∧ todo th = op :: rest.
Proof.
  unfold calls_left. induction (pool s) as [|th pl IH]; simpl; intros H; [done|].
  destruct (todo th) as [|op rest] eqn:Htodo.
  - destruct IH as (t & th' & op & rest & Ht & Hr); [simpl in H; lia|].
    by exists (S t), th', op, rest.
  - by exists 0, th, op, rest.
Qed.

(** Whatever the threads are in the middle of, the calls that are left can
    all be made: one thread after the other runs alone until its calls have
    returned. *)
Lemma run_completes n :
  ∀ s, Inv s → calls_left s ≤ n → ∃ sched s', run sched s = Some s' ∧ finished s'.
Proof.
  induction n as [|n IH]; intros s HI Hn.
  { exists [], s. split; [done|]. apply calls_left_zero. lia. }
  destruct (decide (calls_left s = 0)) as [H0|H0].
  { exists [], s. split; [done|]. by apply calls_left_zero. }
  destruct (calls_left_pos _ H0) as (t & th & op & rest & Ht & Htodo).
  destruct (solo_frame t op rest 9 s th HI Ht Htodo) as [[[w' r] evs] HE].
  { destruct (frame th) as [f|]; simpl; [destruct f|destruct op]; simpl; lia. }
  destruct (run_frame_pool t op rest 28 s th w' r evs Ht Htodo (HE 28 ltac:(lia)))
    as (k & _ & Hrun).
  match type of Hrun with _ = Some ?x => set (s1 := x) in * end.
  destruct (IH s1) as (sched' & s' & Hrun' & Hfin).
  - by eapply run_Inv.
  - unfold calls_left in *. subst s1. simpl.
    rewrite sum_insert by (by eapply lookup_lt_Some).
    rewrite (sum_split _ _ _ _ Ht), Htodo in Hn. simpl in *. lia.
  - exists (replicate k t ++ sched'), s'. split; [|done].
    by rewrite run_app, Hrun.
Qed.

(** C8. For every pool of programs and every schedule: the values returned
    by the [Dequeue] calls so far are a sub-multiset of the enqueued values;
    once every call has returned, the returned values together with the
    values [rest] still in the queue are exactly the enqueued ones, where
    [rest] is what draining the queue by successive [Dequeue] calls returns
    before the first empty optional; and every run can be continued until
    every call has returned. *)
Theorem no_loss_no_duplication (d : T) progs sched s :
  run sched (init d progs) = Some s →
  returned s ⊆+ enqueued progs
  ∧ (finished s →
     ∃ rest, returned s ++ rest ≡ₚ enqueued progs
       ∧ ∀ t, ∃ w', ∀ fuel, 18 ≤ fuel →
           run_ops fuel t (replicate (S (length rest)) OpDequeue) (world s)
           = Finished (w', (RetOpt ∘ Some <$> rest) ++ [RetOpt None]))
  ∧ (∃ sched' s', run (sched ++ sched') (init d progs) = Some s' ∧ finished s').
Proof.
  intros Hrun.
  pose proof (run_Inv _ _ _ (init_Inv d progs) Hrun) as HI.
  split; [|split].
  - by apply (returned_are_enqueued d progs sched s).
  - by apply (returned_are_enqueued d progs sched s).
  - destruct (run_completes _ s HI (le_n _)) as (sched' & s' & Hrun' & Hfin).
    exists sched', s'. split; [|done]. by rewrite run_app, Hrun.
Qed.

End Completion.

Section EmptyCalls.
Context {T : Type}.
Implicit Types (w : World T) (f : Frame T) (chain : list (loc * T)).
Implicit Types (th : Thread T) (s : State T) (lg evs : list (Event T)).
Local Arguments cas : simpl never.

Lemma prefix_snoc_cases {A} (l1 l2 : list A) (x y : A) :
  l1 ++ [x] `prefix_of` l2 ++ [y] → l1 ++ [x] `prefix_of` l2 ∨ (l1 = l2 ∧ x = y).
Proof.
  intros [k Hk]. destruct k as [|z k _] using rev_ind.
  - rewrite app_nil_r in Hk. apply app_inj_tail in Hk as [-> ->]. by right.
  - rewrite app_assoc in Hk. apply app_inj_tail in Hk as [-> _]. left. by exists k.
Qed.

Lemma step_results t' s s' t th :
  step t' s = Some s' → pool s !! t = Some th →
  ∃ th', pool s' !! t = Some th' ∧ length (results th) ≤ length (results th').
Proof.
  intros Hstep Ht.
  destruct (step_inv _ _ _ Hstep)
    as [->|(th1 & op & rest & w' & nx & evs & Ht1 & Htodo & Hf & ->)]; simpl.
  { by exists th. }
  destruct (decide (t = t')) as [->|Hne].
  - rewrite list_lookup_insert_eq by (by eapply lookup_lt_Some). simplify_eq.
    eexists. split; [done|]. destruct nx; simpl; [done|]. rewrite length_app. lia.
  - rewrite list_lookup_insert_ne by done. by exists th.
Qed.

Lemma run_results sched :
  ∀ s s' t th, run sched s = Some s' → pool s !! t = Some th →
    ∃ th', pool s' !! t = Some th' ∧ length (results th) ≤ length (results th').
Proof.
  induction sched as [|t' sched IH]; intros s s' t th Hrun Ht; simpl in Hrun.
  { simplify_eq. by exists th. }
  destruct (step t' s) as [s1|] eqn:Hs; [|done]. simpl in Hrun.
  destruct (step_results _ _ _ _ _ Hs Ht) as (th1 & Ht1 & Hle).
  destruct (IH _ _ _ _ Hrun Ht1) as (th' & Ht' & Hle').
  exists th'. split; [done|lia].
Qed.

(** The calls that a thread has completed in a state that a run went
    through are not more than at the end of the run. *)
Lemma prefix_results (d : T) progs sched0 sched s0 s t th0 th :
  sched0 `prefix_of` sched →
  run sched0 (init d progs) = Some s0 → run sched (init d progs) = Some s →
  pool s0 !! t = Some th0 → pool s !! t = Some th →
  length (results th0) ≤ length (results th).
Proof.
  intros [k ->] H0 Hrun Ht0 Ht. rewrite run_app, H0 in Hrun. simpl in Hrun.
  destruct (run_results _ _ _ _ _ Hrun Ht0) as (th' & Ht' & Hle). by simplify_eq.
Qed.

(** A step after which a [Dequeue] call has neither exchanged [head] nor
    returned a value. *)
Lemma step_frame_passive t f w w' nx evs :
  step_frame t f w = Some (w', nx, evs) →
  match nx with
  | Continue f' => searching f' = true
  | Return r => r = RetOpt None
  end →
  searching f = true ∧ passive t w w' evs.
Proof.
  intros Hstep Hnx. unfold passive.
  destruct f; step_cases Hstep;
    try match goal with b : bool |- _ => destruct b end; try done;
    try match goal with H : cas _ _ _ _ _ _ = Some _ |- _ =>
      apply cas_inv in H as (stored & Hld & -> & [(? & -> & ->)|(? & _ & ->)]) end;
    simplify_eq/=; repeat split; try done; repeat constructor; try done;
    try (by intros; hz_lookup);
    try (by intros _; eexists).
Qed.

Lemma init_CInv (d : T) progs : CInv d progs [] (init d progs).
Proof.
  intros t th _ _ sched0 s0 th0 s1 [k Hk]. by destruct sched0.
Qed.

Lemma step_CInv (d : T) progs sched s t s' :
  run sched (init d progs) = Some s → CInv d progs sched s → step t s = Some s' →
  CInv d progs (sched ++ [t]) s'.
Proof.
  intros Hrun HC Hstep t1 th1 Ht1 Hcalm sched0 s0 th0 s1 Hpre H0 Ht0 Hres Hs0.
  destruct (step_inv _ _ _ Hstep)
    as [->|(th & op & rest & w' & nx & evs & Ht & Htodo & Hf & ->)].
  { (* the thread has no call to make *)
    simpl in Ht1.
    destruct (prefix_snoc_cases _ _ _ _ Hpre) as [Hp|[-> ->]].
    - by eapply (HC t1 th1).
    - rewrite Hrun in H0. simplify_eq.
      exists []. simpl. split; [by rewrite app_nil_r|]. by repeat split. }
  simpl in Ht1.
  destruct (decide (t1 = t)) as [->|Hne].
  - rewrite list_lookup_insert_eq in Ht1 by (by eapply lookup_lt_Some). simplify_eq.
    destruct nx as [f'|r]; simpl in Hcalm, Hres.
    + destruct (step_frame_passive _ _ _ _ _ _ Hf Hcalm) as (Hsf & Hpas).
      destruct (prefix_snoc_cases _ _ _ _ Hpre) as [Hp|[-> _]].
      * eapply (HC t th); try done.
        unfold calm. destruct (frame th) as [f0|]; simpl in *; done.
      * rewrite Hrun in H0. simplify_eq.
        by exists evs.
    + exfalso.
      destruct (prefix_snoc_cases _ _ _ _ Hpre) as [Hp|[-> _]].
      * assert (sched0 `prefix_of` sched) as Hp0.
        { etrans; [|exact Hp]. by apply prefix_app_r. }
        pose proof (prefix_results _ _ _ _ _ _ _ _ _ Hp0 H0 Hrun Ht0 Ht) as Hle.
        rewrite Hres, length_app in Hle. simpl in Hle. lia.
      * rewrite Hrun in H0. simplify_eq.
        apply (f_equal length) in Hres. rewrite length_app in Hres. simpl in Hres. lia.
  - rewrite list_lookup_insert_ne in Ht1 by done.
    destruct (prefix_snoc_cases _ _ _ _ Hpre) as [Hp|[-> ->]]; [|done].
    by eapply (HC t1 th1).
Qed.

End EmptyCalls.

Section EmptyIterations.
Context {T : Type}.
Implicit Types (w : World T) (f : Frame T) (chain : list (loc * T)).
Implicit Types (th : Thread T) (s : State T) (lg evs : list (Event T)).
Local Arguments cas : simpl never.

Lemma step_frame_own t f w w' nx evs :
  step_frame t f w = Some (w', nx, evs) → Forall (λ e, event_thread e = t) evs.
Proof.
  intros Hstep.
  destruct f; step_cases Hstep;
    try match goal with H : cas _ _ _ _ _ _ = Some _ |- _ =>
      apply cas_inv in H as (? & _ & -> & _) end;
    by repeat constructor.
Qed.

Lemma next_events_own t (op : Op T) nx evs :
  Forall (λ e, event_thread e = t) evs →
  Forall (λ e, event_thread e = t) (next_events t op nx evs).
Proof.
  intros H. destruct nx; simpl; [done|]. apply Forall_app. by repeat constructor.
Qed.

Lemma Top_later (d : T) progs sched t rs lg t' evs :
  t' ≠ t → Forall (λ e, event_thread e = t') evs →
  Top d progs sched t rs lg → Top d progs (sched ++ [t']) t rs (lg ++ evs).
Proof.
  intros Hne Hown (sched1 & s_top & th_top & lgs & Hp & Hrun & Ht & Hrs & Hc & -> & Hlgs).
  exists sched1, s_top, th_top, (lgs ++ evs).
  split; [by apply prefix_app_r|]. repeat (split; [done|]).
  split; [by rewrite app_assoc|]. apply Forall_app. split; [done|].
  eapply Forall_impl; [exact Hown|]. simpl. intros e ->. done.
Qed.

Lemma Top_same (d : T) progs sched t rs lg t' :
  Top d progs sched t rs lg → Top d progs (sched ++ [t']) t rs lg.
Proof.
  intros (sched1 & s_top & th_top & lgs & Hp & H).
  exists sched1, s_top, th_top, lgs. split; [by apply prefix_app_r|done].
Qed.

(** A step into or inside one pass through the loop logs nothing. *)
Lemma step_frame_iteration t f w w' f' evs :
  step_frame t f w = Some (w', Continue f', evs) → in_iteration f' = true →
  evs = [] ∧ (f = DeqLoadHead ∨ in_iteration f = true).
Proof.
  intros Hstep Hin.
  destruct f; step_cases Hstep;
    try match goal with b : bool |- _ => destruct b end; try done; auto.
Qed.

Lemma init_IInv (d : T) progs : IInv d progs [] (init d progs).
Proof. intros t th f (p & -> & _)%list_lookup_fmap_Some Hf. done. Qed.

Lemma step_IInv (d : T) progs sched s t s' :
  run sched (init d progs) = Some s → IInv d progs sched s → step t s = Some s' →
  IInv d progs (sched ++ [t]) s'.
Proof.
  intros Hrun HI Hstep t1 th1 f1 Ht1 Hf1 Hin.
  destruct (step_inv _ _ _ Hstep)
    as [->|(th & op & rest & w' & nx & evs & Ht & Htodo & Hf & ->)].
  { simpl in *. apply Top_same. by eapply HI. }
  simpl in Ht1 |- *.
  destruct (decide (t1 = t)) as [->|Hne].
  - rewrite list_lookup_insert_eq in Ht1 by (by eapply lookup_lt_Some). simplify_eq.
    destruct nx as [f'|r]; simpl in Hf1; [|done]. simplify_eq. simpl.
    destruct (step_frame_iteration _ _ _ _ _ _ Hf Hin) as (-> & [Htop|Hit]).
    + exists sched, s, th, []. split; [by apply prefix_app_r|].
      repeat (split; [done|]). split; [|done].
      unfold current. by rewrite Htodo, Htop.
    + rewrite app_nil_r. apply Top_same. eapply HI; [done| |exact Hit].
      apply (default_frame _ op); [done|].
      intros Heq. rewrite Heq in Hit. by destruct op.
  - rewrite list_lookup_insert_ne in Ht1 by done.
    apply Top_later; [done| |by eapply HI].
    apply next_events_own. by eapply step_frame_own.
Qed.

Lemma run_IInv (d : T) progs sched s :
  run sched (init d progs) = Some s → IInv d progs sched s.
Proof.
  revert sched s. apply (run_invariant d progs (IInv d progs)); [apply init_IInv|].
  intros sched s t s'. apply step_IInv.
Qed.

Lemma run_CInv (d : T) progs sched s :
  run sched (init d progs) = Some s → CInv d progs sched s.
Proof.
  revert sched s. apply (run_invariant d progs (CInv d progs)); [apply init_CInv|].
  intros sched s t s'. apply step_CInv.
Qed.

(** C10, as amended.  Along every run and for every thread [t]:
    a [Dequeue] that runs without interference and returns the empty
    optional logs no compare-exchange and leaves the nodes, [head], [tail]
    and the retired list as they were; so does, in any state, the step that
    returns the empty optional.  Under any interleaving, when a [Dequeue]
    call of [t] returns the empty optional, every step that [t] made in
    this call left the nodes, [head], the retired list and the hazard
    slots of the other threads as they were; what it logged are exchanges
    of line 127, exchanges of line 136 that failed, and the return; and it
    changed [tail] only by a successful exchange of line 127.  Moreover
    the call went through line 111 in a state [s_top] since which [t] has
    logged nothing but the return: the pass through the loop that finds
    the queue empty makes no exchange. *)
Theorem empty_dequeue_changes_nothing (d : T) progs sched s t :
  run sched (init d progs) = Some s →
  (∀ fuel w' evs,
     Dequeue fuel t (world s) = Finished (w', RetOpt None, evs) →
     evs = []
     ∧ heap w' = heap (world s) ∧ m_head w' = m_head (world s)
     ∧ m_tail w' = m_tail (world s)
     ∧ retired (m_hp w') = retired (m_hp (world s))
     ∧ hazards (m_hp w') = delete (t, 0) (delete (t, 1) (hazards (m_hp (world s)))))
  ∧ (∀ f w w' evs,
     step_frame t f w = Some (w', Return (RetOpt None), evs) →
     evs = []
     ∧ heap w' = heap w ∧ m_head w' = m_head w ∧ m_tail w' = m_tail w
     ∧ retired (m_hp w') = retired (m_hp w))
  ∧ (∀ th s',
       pool s !! t = Some th → step t s = Some s' →
       (results <$> pool s' !! t) = Some (results th ++ [(OpDequeue, RetOpt None)]) →
       (∀ sched0 s0 th0 s1,
          sched0 ++ [t] `prefix_of` sched ++ [t] →
          run sched0 (init d progs) = Some s0 →
          pool s0 !! t = Some th0 → results th0 = results th →
          step t s0 = Some s1 →
          heap (world s1) = heap (world s0)
          ∧ m_head (world s1) = m_head (world s0)
          ∧ retired (m_hp (world s1)) = retired (m_hp (world s0))
          ∧ (∀ t' slot, t' ≠ t →
               hazards (m_hp (world s1)) !! (t', slot)
               = hazards (m_hp (world s0)) !! (t', slot))
          ∧ ∃ evs, log s1 = log s0 ++ evs ∧ Forall (harmless t) evs
              ∧ (m_tail (world s1) ≠ m_tail (world s0) →
                 ∃ old, evs = [EvCas t HelpTailDeq STail old (m_tail (world s1)) true]))
       ∧ (∃ sched1 s_top th_top lgs,
            sched1 `prefix_of` sched ∧ run sched1 (init d progs) = Some s_top
            ∧ pool s_top !! t = Some th_top ∧ results th_top = results th
            ∧ current th_top = Some DeqLoadHead
            ∧ log s' = log s_top ++ lgs ++ [EvReturn t OpDequeue (RetOpt None)]
            ∧ Forall (λ e, event_thread e ≠ t) lgs
            ∧ heap (world s') = heap (world s)
            ∧ m_head (world s') = m_head (world s)
            ∧ m_tail (world s') = m_tail (world s)
            ∧ retired (m_hp (world s')) = retired (m_hp (world s)))).
Proof.
  intros Hrun.
  assert (Reachable d s) as HR by (by exists progs, sched).
  split; [by apply (solo_empty_dequeue d s t)|].
  split; [intros f w w' evs; apply step_frame_return_none|].
  intros th s' Ht Hstep Hres.
  destruct (step_inv _ _ _ Hstep)
    as [->|(th1 & op & rest & w' & nx & evs & Ht1 & Htodo & Hf & ->)].
  { simpl in Hres. rewrite Ht in Hres. simpl in Hres. injection Hres as Hres.
    apply (f_equal length) in Hres. rewrite length_app in Hres. simpl in Hres. lia. }
  assert (th1 = th) as -> by congruence.
  simpl in Hres. rewrite list_lookup_insert_eq in Hres by (by eapply lookup_lt_Some).
  destruct nx as [f'|r]; simpl in Hres; injection Hres as Hres.
  { apply (f_equal length) in Hres. rewrite length_app in Hres. simpl in Hres. lia. }
  apply app_inv_head in Hres. injection Hres as -> ->.
  destruct (step_frame_passive _ _ _ _ _ _ Hf eq_refl) as (Hsf & Hpas).
  remember (default (entry OpDequeue) (frame th)) as f eqn:Hdef. symmetry in Hdef.
  assert (∃ hd tl nxp, f = DeqBranch hd tl nxp) as (hd & tl & nxp & ->).
  { destruct f; step_cases Hf; eauto. }
  assert (frame th = Some (DeqBranch hd tl nxp)) as Hfr
    by (by apply (default_frame _ OpDequeue)).
  destruct (step_frame_return_none _ _ _ _ _ Hf) as (-> & Hh & Hhd & Htl & Hr).
  split.
  - intros sched0 s0 th0 s1 Hpre H0 Ht0 Hrs Hs0.
    assert (Passive t s0 s1) as (evs & Hlog & H1 & H2 & H3 & H4 & H5 & H6);
      [|by repeat (split; [done|]); exists evs].
    destruct (prefix_snoc_cases _ _ _ _ Hpre) as [Hp|[-> _]].
    + eapply (run_CInv _ _ _ _ Hrun t th); try done. unfold calm. by rewrite Hfr.
    + rewrite Hrun in H0. simplify_eq.
      eexists. split; [done|]. simpl.
      destruct Hpas as (? & ? & ? & ? & ? & ?). repeat (split; [done|]).
      split; [by repeat constructor|done].
  - destruct (run_IInv _ _ _ _ Hrun t th _ Ht Hfr eq_refl)
      as (sched1 & s_top & th_top & lgs & Hp & Hr1 & Ht1' & Hrs & Hc & Hlog & Hlgs).
    exists sched1, s_top, th_top, lgs. repeat (split; [done|]). simpl.
    split; [by rewrite Hlog, <- app_assoc|done].
Qed.

End EmptyIterations.

(** ** Instances *)

Lemma sequential_fifo_refinement_witness :
  ∃ w' w'',
    run_ops 18 0 [OpEnqueue 1%Z; OpEnqueue 2%Z; OpDequeue] (new_queue 0%Z)
    = Finished (w', [RetVoid; RetVoid; RetOpt (Some 1%Z)])
    ∧ run_ops 18 0 [OpDequeue; OpDequeue] w'
      = Finished (w'', [RetOpt (Some 2%Z); RetOpt None]).
Proof.
  exact (sequential_fifo_refinement 0%Z 0 [OpEnqueue 1%Z; OpEnqueue 2%Z; OpDequeue] 18
           (le_n 18)).
Defined.

Lemma destructor_after_any_run_witness :
  run helped_sched (init 0%Z helped_progs) = Some helped_run
  ∧ finished helped_run
  ∧ ∃ w2 evs, Destroy 2 18 0 (world helped_run) = Finished (w2, evs)
      ∧ length (retired (m_hp w2)) = 1.
Proof.
  assert (run helped_sched (init 0%Z helped_progs) = Some helped_run) as HR
    by (vm_compute; reflexivity).
  assert (finished helped_run) as HF by (vm_compute; repeat constructor).
  assert (length (enqueued helped_progs) < 2) as Hlt by (vm_compute; lia).
  split; [exact HR|]. split; [exact HF|].
  destruct (destructor_after_any_run 0%Z helped_progs helped_sched helped_run 0 18 2
              HR HF (le_n 18) Hlt)
    as (w2 & evs & h & nd & HD & _ & _ & _ & _ & _ & _ & _ & Hlen).
  exists w2, evs. split; [exact HD|exact Hlen].
Defined.

Lemma links_are_write_once_witness :
  run helped_sched (init 0%Z helped_progs) = Some helped_run
  ∧ heap (world (init 0%Z helped_progs)) !! 1%positive
    = Some {| m_value := 0%Z; m_next := null_pointer |}
  ∧ ∃ nd', heap (world helped_run) !! 1%positive = Some nd' ∧ m_value nd' = 0%Z.
Proof.
  assert (run helped_sched (init 0%Z helped_progs) = Some helped_run) as HR
    by (vm_compute; reflexivity).
  assert (heap (world (init 0%Z helped_progs)) !! 1%positive
          = Some {| m_value := 0%Z; m_next := null_pointer |}) as Hnd
    by (vm_compute; reflexivity).
  split; [exact HR|]. split; [exact Hnd|].
  destruct (links_are_write_once helped_sched _ _ _ _ HR Hnd) as (nd' & H1 & H2 & _).
  exists nd'. split; [exact H1|exact H2].
Defined.

Lemma hazard_slots_follow_guards_witness :
  Reachable 0%Z helped_mid
  ∧ hazards (m_hp (world helped_mid)) !! (1, 2) = None.
Proof.
  assert (Reachable 0%Z helped_mid) as HR
    by (apply run_from_Reachable; vm_compute; eauto).
  split; [exact HR|].
  destruct (hazard_slots_follow_guards 0%Z helped_mid HR) as (_ & H & _).
  apply H. lia.
Defined.

Lemma hazards_prevent_use_after_free_witness :
  ∃ h, perform (replicate 28 (Run 0) ++ [Free 1%positive; Run 0])
         (start 0%Z [[OpEnqueue 1%Z; OpDequeue; OpDequeue]]) = Some h.
Proof.
  destruct (hazards_prevent_use_after_free 0%Z [[OpEnqueue 1%Z; OpDequeue; OpDequeue]]
              (replicate 28 (Run 0) ++ [Free 1%positive; Run 0]))
    as (h & H & _).
  { repeat (constructor; [simpl; lia|]). constructor. }
  exists h. exact H.
Defined.

Lemma dequeue_order_is_enqueue_order_witness :
  Reachable 0%Z helped_run
  ∧ (deq_order helped_run).*2 `prefix_of` (enq_order helped_run).*2.
Proof.
  assert (Reachable 0%Z helped_run) as HR
    by (apply run_from_Reachable; vm_compute; eauto).
  split; [exact HR|].
  exact (proj1 (dequeue_order_is_enqueue_order 0%Z helped_run HR)).
Defined.

Lemma queue_is_a_list_witness :
  Reachable 0%Z helped_mid ∧ NoDup (retired (m_hp (world helped_mid))).
Proof.
  assert (Reachable 0%Z helped_mid) as HR
    by (apply run_from_Reachable; vm_compute; eauto).
  split; [exact HR|].
  destruct (queue_is_a_list 0%Z helped_mid HR) as (n & h & _ & _ & _ & _ & _ & _ & H).
  exact H.
Defined.

Lemma tags_count_exchanges_witness :
  Reachable 0%Z helped_run
  ∧ m_count (m_head (world helped_run))
    = wrap (Z.of_nat (count_swaps SHead (log helped_run))).
Proof.
  assert (Reachable 0%Z helped_run) as HR
    by (apply run_from_Reachable; vm_compute; eauto).
  split; [exact HR|].
  exact (proj1 (tags_count_exchanges 0%Z helped_run HR)).
Defined.

Lemma solo_call_completes_witness :
  Reachable 0%Z helped_mid
  ∧ ∃ n s', n ≤ 28 ∧ run (replicate n 0) helped_mid = Some s'
      ∧ (todo <$> pool s' !! 0) = Some [].
Proof.
  assert (Reachable 0%Z helped_mid) as HR
    by (apply run_from_Reachable; vm_compute; eauto).
  split; [exact HR|].
  assert (∃ rs, pool helped_mid !! 0
    = Some {| todo := [OpEnqueue 1%Z];
              frame := Some (EnqSwing 2%positive {| m_ptr := Some 1%positive; m_count := 0 |});
              results := rs |}) as (rs & Hth).
  { eexists. vm_compute. reflexivity. }
  destruct (solo_call_completes 0%Z helped_mid 0 _ (OpEnqueue 1%Z) [] HR Hth eq_refl)
    as (n & s' & r & Hn & Hrun & Htodo & _).
  exists n, s'. split; [exact Hn|]. split; [exact Hrun|exact Htodo].
Defined.

Lemma every_node_is_accounted_for_witness :
  Reachable 0%Z helped_mid
  ∧ ∃ n, ∀ l,
      l ∈ dom (heap (world helped_mid))
      ↔ l ∈ retired (m_hp (world helped_mid))
        ∨ (∃ t th, pool helped_mid !! t = Some th ∧ l ∈ pend_retire th)
        ∨ l ∈ walk n (world helped_mid) (m_ptr (m_head (world helped_mid)))
        ∨ (∃ t th, pool helped_mid !! t = Some th ∧ l ∈ enq_nodes th).
Proof.
  assert (Reachable 0%Z helped_mid) as HR
    by (apply run_from_Reachable; vm_compute; eauto).
  split; [exact HR|].
  exact (every_node_is_accounted_for 0%Z helped_mid HR).
Defined.

Lemma some_call_returns_witness :
  ∃ s',
    run (replicate 50 0) (init 0%Z [[OpEnqueue 1%Z; OpDequeue; OpDequeue; OpDequeue]])
    = Some s'
    ∧ calls_done (init 0%Z [[OpEnqueue 1%Z; OpDequeue; OpDequeue; OpDequeue]])
      < calls_done s'.
Proof.
  assert (∃ s', run (replicate 50 0)
                  (init 0%Z [[OpEnqueue 1%Z; OpDequeue; OpDequeue; OpDequeue]]) = Some s')
    as (s' & Hrun).
  { eexists. vm_compute. reflexivity. }
  exists s'. split; [exact Hrun|].
  apply (some_call_returns 0%Z _ (replicate 50 0) s'); [apply Reachable_init|exact Hrun| |].
  - apply Forall_forall. intros t [-> _]%elem_of_replicate.
    eexists _, _, _. split; reflexivity.
  - simpl. lia.
Defined.

Lemma empty_result_was_true_witness :
  ∃ s' sched1 s0,
    run (replicate 7 0) (init 0%Z [[OpDequeue]]) = Some idle_dequeue
    ∧ step 0 idle_dequeue = Some s'
    ∧ (results <$> pool s' !! 0) = Some [(OpDequeue, RetOpt None)]
    ∧ sched1 `prefix_of` replicate 7 0
    ∧ run sched1 (init 0%Z [[OpDequeue]]) = Some s0
    ∧ empty (world s0) = true.
Proof.
  assert (run (replicate 7 0) (init 0%Z [[OpDequeue]]) = Some idle_dequeue) as Hrun
    by (vm_compute; reflexivity).
  assert (∃ f, pool idle_dequeue !! 0
               = Some {| todo := [OpDequeue]; frame := f; results := [] |}) as (f & Hth).
  { eexists. vm_compute. reflexivity. }
  assert (∃ s', step 0 idle_dequeue = Some s'
                ∧ (results <$> pool s' !! 0) = Some [(OpDequeue, RetOpt None)])
    as (s' & Hstep & Hres).
  { eexists. split; vm_compute; reflexivity. }
  destruct (empty_result_was_true 0%Z [[OpDequeue]] (replicate 7 0) idle_dequeue 0 _ s'
              Hrun Hth Hstep Hres)
    as (sched1 & s0 & th0 & Hp & Hr & He & _).
  exists s', sched1, s0. repeat (split; [assumption|]). exact He.
Defined.

Lemma solo_enqueue_appends_witness :
  ∃ w' evs,
    Reachable 0%Z helped_mid
    ∧ Enqueue 12 1 7%Z (world helped_mid) = Finished (w', RetVoid, evs)
    ∧ heap (world helped_mid) !! 2%positive
      = Some {| m_value := 1%Z; m_next := null_pointer |}
    ∧ heap w' !! 2%positive
      = Some {| m_value := 1%Z; m_next := {| m_ptr := Some 3%positive; m_count := 1 |} |}
    ∧ heap w' !! 1%positive = heap (world helped_mid) !! 1%positive
    ∧ m_ptr (m_tail w') = Some 3%positive.
Proof.
  assert (Reachable 0%Z helped_mid) as HR
    by (apply run_from_Reachable; vm_compute; eauto).
  destruct (solo_enqueue_appends 0%Z helped_mid 1 7%Z HR)
    as (w' & evs & n & l & nd & k & Hrun & _ & _ & _ & Hnd & _ & Hnew & Hothers & _ & _
        & Htl & _).
  specialize (Hrun 12 (le_n _)).
  assert (∃ w e, Enqueue 12 1 7%Z (world helped_mid) = Finished (w, RetVoid, e)
                 ∧ m_ptr (m_tail w) = Some 3%positive
                 ∧ heap w !! 2%positive ≠ heap (world helped_mid) !! 2%positive)
    as (w0 & e0 & Hrun0 & Htl0 & Hne0).
  { eexists _, _. split; [vm_compute; reflexivity|]. split; [reflexivity|].
    vm_compute. discriminate. }
  rewrite Hrun in Hrun0. injection Hrun0 as <- <-.
  assert (n = 3%positive) as -> by congruence.
  assert (heap (world helped_mid) !! 2%positive
          = Some {| m_value := 1%Z; m_next := null_pointer |}) as H2
    by (vm_compute; reflexivity).
  assert (l = 2%positive) as ->.
  { destruct (decide (l = 2%positive)) as [|Hne]; [done|].
    destruct Hne0. rewrite H2. apply Hothers; [congruence|exact H2]. }
  rewrite H2 in Hnd. injection Hnd as <-.
  exists w', evs. split; [exact HR|]. split; [exact Hrun|]. split; [exact H2|].
  split; [exact Hnew|]. split; [|exact Htl].
  assert (∃ nd1, heap (world helped_mid) !! 1%positive = Some nd1) as (nd1 & H1)
    by (eexists; vm_compute; reflexivity).
  rewrite H1. apply Hothers; [done|exact H1].
Defined.

Lemma no_loss_no_duplication_witness :
  (run helped_sched (init 0%Z helped_progs) = Some helped_run
   ∧ finished helped_run
   ∧ enqueued helped_progs = [1%Z] ∧ returned helped_run = [1%Z]
   ∧ ∃ rest, returned helped_run ++ rest ≡ₚ enqueued helped_progs)
  ∧ (run (replicate 7 0) (init 0%Z [[OpEnqueue 1%Z]]) = Some enqueued_one
     ∧ finished enqueued_one
     ∧ returned enqueued_one = []
     ∧ ∃ w', run_ops 18 0 [OpDequeue; OpDequeue] (world enqueued_one)
             = Finished (w', [RetOpt (Some 1%Z); RetOpt None])).
Proof.
  assert (run helped_sched (init 0%Z helped_progs) = Some helped_run) as HR
    by (vm_compute; reflexivity).
  assert (finished helped_run) as HF by (vm_compute; repeat constructor).
  assert (run (replicate 7 0) (init 0%Z [[OpEnqueue 1%Z]]) = Some enqueued_one) as HR1
    by (vm_compute; reflexivity).
  assert (finished enqueued_one) as HF1 by (vm_compute; repeat constructor).
  split.
  - split; [exact HR|]. split; [exact HF|].
    split; [vm_compute; reflexivity|]. split; [vm_compute; reflexivity|].
    destruct (proj1 (proj2 (no_loss_no_duplication 0%Z helped_progs helped_sched
                              helped_run HR)) HF) as (rest & Hrest & _).
    by exists rest.
  - split; [exact HR1|]. split; [exact HF1|].
    assert (returned enqueued_one = []) as Hret by (vm_compute; reflexivity).
    split; [exact Hret|].
    destruct (proj1 (proj2 (no_loss_no_duplication 0%Z [[OpEnqueue 1%Z]] (replicate 7 0)
                              enqueued_one HR1)) HF1) as (rest & Hrest & Hdrain).
    rewrite Hret in Hrest.
    assert (rest = [1%Z]) as -> by (apply Permutation_singleton_r; exact Hrest).
    destruct (Hdrain 0) as (w' & Hw'). exists w'. apply (Hw' 18). lia.
Defined.

Lemma empty_dequeue_changes_nothing_witness :
  run raced_last_sched (init 0%Z raced_progs) = Some raced_last
  ∧ step 1 raced_last = Some raced_run
  ∧ (results <$> pool raced_run !! 1) = Some [(OpDequeue, RetOpt None)]
  ∧ (∃ s1,
       run (replicate 6 0 ++ replicate 7 1) (init 0%Z raced_progs) = Some raced_help
       ∧ step 1 raced_help = Some s1
       ∧ heap (world s1) = heap (world raced_help)
       ∧ m_head (world s1) = m_head (world raced_help)
       ∧ retired (m_hp (world s1)) = retired (m_hp (world raced_help))
       ∧ m_tail (world s1) ≠ m_tail (world raced_help)
       ∧ ∃ old, log s1
           = log raced_help ++ [EvCas 1 HelpTailDeq STail old (m_tail (world s1)) true])
  ∧ (∃ s_top lgs,
       Reachable 0%Z s_top
       ∧ log raced_run = log s_top ++ lgs ++ [EvReturn 1 OpDequeue (RetOpt None)]
       ∧ Forall (λ e, event_thread e ≠ 1) lgs).
Proof.
  assert (run raced_last_sched (init 0%Z raced_progs) = Some raced_last) as Hrun
    by (vm_compute; reflexivity).
  assert (∃ th, pool raced_last !! 1 = Some th ∧ results th = []) as (th & Ht & Hrs).
  { eexists. split; vm_compute; reflexivity. }
  assert (step 1 raced_last = Some raced_run) as Hstep by (vm_compute; reflexivity).
  assert ((results <$> pool raced_run !! 1) = Some [(OpDequeue, RetOpt None)]) as Hres
    by (vm_compute; reflexivity).
  assert ((results <$> pool raced_run !! 1)
          = Some (results th ++ [(OpDequeue, RetOpt None)])) as Hres'
    by (rewrite Hrs; exact Hres).
  destruct (proj2 (proj2 (empty_dequeue_changes_nothing 0%Z raced_progs raced_last_sched
                            raced_last 1 Hrun)) th raced_run Ht Hstep Hres')
    as (Hcall & sched1 & s_top & th_top & lgs & _ & Htop & _ & _ & _ & Hlog & Hlgs & _).
  split; [exact Hrun|]. split; [exact Hstep|]. split; [exact Hres|].
  split.
  - assert (run (replicate 6 0 ++ replicate 7 1) (init 0%Z raced_progs) = Some raced_help)
      as H0 by (vm_compute; reflexivity).
    assert (∃ th0, pool raced_help !! 1 = Some th0 ∧ results th0 = []) as (th0 & Ht0 & Hrs0).
    { eexists. split; vm_compute; reflexivity. }
    assert (∃ s1, step 1 raced_help = Some s1
                  ∧ m_tail (world s1) ≠ m_tail (world raced_help)) as (s1 & Hs1 & Hne).
    { eexists. split; [vm_compute; reflexivity|]. vm_compute. discriminate. }
    assert ((replicate 6 0 ++ replicate 7 1) ++ [1] `prefix_of` raced_last_sched ++ [1])
      as Hpre by (exists (replicate 10 2 ++ replicate 7 1 ++ [1]); reflexivity).
    destruct (Hcall _ _ _ _ Hpre H0 Ht0 (eq_trans Hrs0 (eq_sym Hrs)) Hs1)
      as (Hh & Hhd & Hr & _ & evs & Hlg & _ & Hev).
    destruct (Hev Hne) as (old & ->).
    exists s1. repeat (split; [done|]). by exists old.
  - exists s_top, lgs. split; [by exists raced_progs, sched1|]. split; [exact Hlog|exact Hlgs].
Defined.
